(** * Agentes: retrieval-augmented, section-sequenced proposal synthesis

    A shallow embedding of the Python sources (tools/generation_tools.py,
    tools/crag_tools.py, tools/proposal_validator.py, tools/analysis_tools.py,
    nodes/section_node.py, nodes/enhanced_section_node.py,
    nodes/combine_node.py) and the properties the
    specification states about them.

    Python [str] values are sequences of Unicode code points: a [text] is a
    list of code points ([N]).  The regular expressions of the sources are
    written as terms of [re] next to the Python pattern they stand for and run
    by a backtracking matcher with Python's priorities (leftmost match, greedy
    and lazy repetition, first alternative first). *)

From Stdlib Require Import String Ascii.
From Stdlib Require Import List NArith Arith Bool Lia.
Import ListNotations.
Local Open Scope string_scope.
Local Open Scope list_scope.
Local Open Scope N_scope.

Set Implicit Arguments.
Set Warnings "-register-all".

(* ================================================================== *)
(** ** Text: Python strings as lists of code points *)

Definition cp := N.
Definition text := list cp.

Fixpoint bytes (s : string) : list N :=
  match s with
  | EmptyString => []
  | String a r => N_of_ascii a :: bytes r
  end.

(** UTF-8 decoding, so that literals of the sources can be written as they
    stand there. *)
Fixpoint utf8 (l : list N) : text :=
  match l with
  | [] => []
  | b0 :: r0 =>
    if b0 <? 128 then b0 :: utf8 r0 else
    match r0 with
    | [] => [b0]
    | b1 :: r1 =>
      if b0 <? 224 then ((b0 - 192) * 64 + (b1 - 128)) :: utf8 r1 else
      match r1 with
      | [] => [b0; b1]
      | b2 :: r2 =>
        if b0 <? 240
        then ((b0 - 224) * 4096 + (b1 - 128) * 64 + (b2 - 128)) :: utf8 r2
        else match r2 with
             | [] => [b0; b1; b2]
             | b3 :: r3 =>
               ((b0 - 240) * 262144 + (b1 - 128) * 4096
                + (b2 - 128) * 64 + (b3 - 128)) :: utf8 r3
             end
      end
    end
  end.

Definition txt (s : string) : text := utf8 (bytes s).

Definition NL : cp := 10.
Definition QUOTE : cp := 34.

Fixpoint text_eqb (x y : text) : bool :=
  match x, y with
  | [], [] => true
  | a :: x', b :: y' => (a =? b) && text_eqb x' y'
  | _, _ => false
  end.

(** [str.isspace] on one code point, which is also the class [\s] of a [str]
    pattern: the characters of bidirectional type WS, B or S and of category
    Zs. *)
Definition isspace (c : cp) : bool :=
  ((9 <=? c) && (c <=? 13)) || ((28 <=? c) && (c <=? 32))
  || (c =? 133) || (c =? 160) || (c =? 5760)
  || ((8192 <=? c) && (c <=? 8202))
  || (c =? 8232) || (c =? 8233) || (c =? 8239) || (c =? 8287) || (c =? 12288).

(** [\d] and [int()]: the decimal digits.  The tables of the Unicode database
    are carried for U+0000..U+00FF, the range the normaliser lets through;
    code points above it are taken as caseless and as no digits. *)
Definition isdigit (c : cp) : bool := (48 <=? c) && (c <=? 57).

Definition isupper_az (c : cp) : bool := (65 <=? c) && (c <=? 90).

Definition lower_cp (c : cp) : cp :=
  if (65 <=? c) && (c <=? 90) then c + 32
  else if (192 <=? c) && (c <=? 222) && negb (c =? 215) then c + 32
  else c.

(** [str.lower] *)
Definition lower (s : text) : text := map lower_cp s.

(** [str.upper]: sharp s becomes SS, y with diaeresis and the micro sign leave
    Latin-1. *)
Definition upper_cp (c : cp) : text :=
  if (97 <=? c) && (c <=? 122) then [c - 32]
  else if c =? 223 then [83; 83]
  else if c =? 255 then [376]
  else if c =? 181 then [924]
  else if (224 <=? c) && (c <=? 254) && negb (c =? 247) then [c - 32]
  else [c].

Definition upper (s : text) : text := flat_map upper_cp s.

Fixpoint lstrip (s : text) : text :=
  match s with
  | c :: r => if isspace c then lstrip r else s
  | [] => []
  end.

Definition rstrip (s : text) : text := rev (lstrip (rev s)).

(** [str.strip()] *)
Definition strip (s : text) : text := rstrip (lstrip s).

Fixpoint startswith (p s : text) : bool :=
  match p, s with
  | [], _ => true
  | a :: p', b :: s' => (a =? b) && startswith p' s'
  | _ :: _, [] => false
  end.

(** [p in s] for strings *)
Fixpoint contains (p s : text) : bool :=
  startswith p s || match s with [] => false | _ :: s' => contains p s' end.

(** [s.replace(old, new)] for a non-empty [old]: every occurrence, left to
    right, without overlap.  [skip] counts the characters of an occurrence
    still to pass over. *)
Fixpoint replace_go (old new s : text) (skip : nat) : text :=
  match s with
  | [] => []
  | c :: s' =>
    match skip with
    | S n => replace_go old new s' n
    | O => if startswith old s
           then new ++ replace_go old new s' (length old - 1)
           else c :: replace_go old new s' 0
    end
  end.

Definition replace (old new s : text) : text := replace_go old new s 0.

(** [s.split(sep)] for a non-empty separator. *)
Fixpoint split_go (sep s : text) (skip : nat) (cur : text) : list text :=
  match s with
  | [] => [rev cur]
  | c :: s' =>
    match skip with
    | S n => split_go sep s' n cur
    | O => if startswith sep s
           then rev cur :: split_go sep s' (length sep - 1) []
           else split_go sep s' 0 (c :: cur)
    end
  end.

Definition split (sep s : text) : list text := split_go sep s 0 [].

(** Decimal rendering of a number, as an f-string writes an [int]. *)
Fixpoint digits_go (fuel : nat) (n : N) (acc : text) : text :=
  match fuel with
  | O => acc
  | S f => let acc' := (48 + n mod 10) :: acc in
           if n <? 10 then acc' else digits_go f (n / 10) acc'
  end.

Definition str_of_nat (n : nat) : text :=
  digits_go (S n) (N.of_nat n) [].

(** [int(s)] on a run of decimal digits. *)
Definition int_of (s : text) : nat :=
  fold_left (fun acc c => (10 * acc + N.to_nat (c - 48))%nat) s 0%nat.

(* ================================================================== *)
(** ** Regular expressions

    Every quantifier of the patterns in the sources stands on a single
    character class, so repetition is [Rep greedy lo p]: at least [lo]
    characters of class [p], as many as possible ([greedy]) or as few. *)

Inductive re : Type :=
| Eps
| Chr (p : cp -> bool)
| Rep (greedy : bool) (lo : nat) (p : cp -> bool)
| Cat (x y : re)
| Alt (x y : re)
| Grp (i : nat) (x : re)
| Bol            (* ^ under re.MULTILINE *)
| Eol            (* $ under re.MULTILINE *)
| Bos            (* ^ *)
| Eos            (* $ *)
| Ahead (x : re) (* (?=x) *).

Definition caps := list (nat * text).

(** The matcher's cursor is the text before it, reversed, and the text after
    it. *)
Definition found : Type := text * text * caps.

Definition kont := text -> text -> caps -> option found.

Definition k0 : kont := fun b a g => Some (b, a, g).

Definition or_else (A : Type) (x y : option A) : option A :=
  match x with Some _ => x | None => y end.

Fixpoint rep_greedy (p : cp -> bool) (lo : nat) (b a : text)
    (k : text -> text -> option found) : option found :=
  match a with
  | c :: a' =>
    if p c
    then or_else (rep_greedy p (pred lo) (c :: b) a' k)
                 (match lo with O => k b a | S _ => None end)
    else match lo with O => k b a | S _ => None end
  | [] => match lo with O => k b a | S _ => None end
  end.

Fixpoint rep_lazy (p : cp -> bool) (lo : nat) (b a : text)
    (k : text -> text -> option found) {struct a} : option found :=
  match lo with
  | O => or_else (k b a)
           (match a with
            | c :: a' => if p c then rep_lazy p 0 (c :: b) a' k else None
            | [] => None
            end)
  | S lo' => match a with
             | c :: a' => if p c then rep_lazy p lo' (c :: b) a' k else None
             | [] => None
             end
  end.

Fixpoint m (r : re) (b a : text) (g : caps) (k : kont) : option found :=
  match r with
  | Eps => k b a g
  | Chr p => match a with
             | c :: a' => if p c then k (c :: b) a' g else None
             | [] => None
             end
  | Rep true lo p => rep_greedy p lo b a (fun b' a' => k b' a' g)
  | Rep false lo p => rep_lazy p lo b a (fun b' a' => k b' a' g)
  | Cat x y => m x b a g (fun b' a' g' => m y b' a' g' k)
  | Alt x y => or_else (m x b a g k) (m y b a g k)
  | Grp i x =>
    m x b a g (fun b' a' g' =>
      k b' a' ((i, rev (firstn (length b' - length b) b')) :: g'))
  | Bol => match b with
           | [] => k b a g
           | c :: _ => if c =? NL then k b a g else None
           end
  | Eol => match a with
           | [] => k b a g
           | c :: _ => if c =? NL then k b a g else None
           end
  | Bos => match b with [] => k b a g | _ :: _ => None end
  | Eos => match a with
           | [] => k b a g
           | c :: [] => if c =? NL then k b a g else None
           | _ => None
           end
  | Ahead x => match m x b a g k0 with
               | Some (_, _, g') => k b a g'
               | None => None
               end
  end.

(** A match at the cursor; [advance] asks for a non-empty one (the matcher's
    must-advance flag after an empty match). *)
Definition match_at (r : re) (advance : bool) (b a : text) : option found :=
  m r b a []
    (fun b' a' g' =>
       if advance && (length b' =? length b)%nat then None else Some (b', a', g')).

Definition matched (b : text) (f : found) : text :=
  let '(b', _, _) := f in rev (firstn (length b' - length b) b').

Definition group (i : nat) (f : found) : text :=
  let '(_, _, g) := f in
  match find (fun e => (fst e =? i)%nat) g with
  | Some e => snd e
  | None => []
  end.

(** One match of [finditer]: the text since the previous match, the matched
    text, its groups. *)
Record hit : Type := Hit { gap : text; whole : text; grp : nat -> text }.

Definition hit_of (gp b : text) (f : found) : hit :=
  Hit (rev gp) (matched b f) (fun i => group i f).

(** [re.finditer]: all matches, left to right, and the text after the last.
    [skip] counts the characters of the current match still to pass over,
    [gp] is the unmatched text read since the last match, reversed. *)
Fixpoint scan (r : re) (b a : text) (skip : nat) (gp : text) : list hit * text :=
  match skip with
  | S n =>
    match a with
    | c :: a' => scan r (c :: b) a' n gp
    | [] => ([], rev gp)
    end
  | O =>
    match match_at r false b a with
    | None =>
      match a with
      | c :: a' => scan r (c :: b) a' 0 (c :: gp)
      | [] => ([], rev gp)
      end
    | Some f =>
      match length (matched b f), a with
      | S n, c :: a' =>
        let '(hs, tl) := scan r (c :: b) a' n [] in (hit_of gp b f :: hs, tl)
      | _, [] => ([hit_of gp b f], [])
      | O, c :: a' =>
        match match_at r true b a with
        | Some f' =>
          let '(hs, tl) := scan r (c :: b) a' (length (matched b f') - 1) [] in
          (hit_of gp b f :: hit_of [] b f' :: hs, tl)
        | None =>
          let '(hs, tl) := scan r (c :: b) a' 0 [c] in
          (hit_of gp b f :: hs, tl)
        end
      end
    end
  end.

Definition finditer (r : re) (s : text) : list hit * text := scan r [] s 0 [].

(** [re.search] *)
Definition search (r : re) (s : text) : option hit :=
  hd_error (fst (finditer r s)).

(** [re.sub(r, repl, s)], the replacement computed from the match. *)
Definition sub_with (r : re) (repl : hit -> text) (s : text) : text :=
  let '(hs, tl) := finditer r s in
  flat_map (fun h => gap h ++ repl h) hs ++ tl.

Definition sub (r : re) (repl : text) (s : text) : text :=
  sub_with r (fun _ => repl) s.

(** [re.findall] for a pattern without group, with one, with two. *)
Definition findall0 (r : re) (s : text) : list text :=
  map whole (fst (finditer r s)).

Definition findall1 (r : re) (s : text) : list text :=
  map (fun h => grp h 1%nat) (fst (finditer r s)).

(** [re.split] for a pattern with one group. *)
Definition re_split (r : re) (s : text) : list text :=
  let '(hs, tl) := finditer r s in
  flat_map (fun h => [gap h; grp h 1%nat]) hs ++ [tl].

(** Pattern syntax. *)
Definition eqc (c : cp) : cp -> bool := fun x => x =? c.
Definition neqc (c : cp) : cp -> bool := fun x => negb (x =? c).
Definition dot : cp -> bool := neqc NL.          (* . *)
Definition any : cp -> bool := fun _ => true.    (* . under re.DOTALL *)

Fixpoint lit (s : text) : re :=
  match s with
  | [] => Eps
  | [c] => Chr (eqc c)
  | c :: s' => Cat (Chr (eqc c)) (lit s')
  end.

Fixpoint cat (l : list re) : re :=
  match l with
  | [] => Eps
  | [r] => r
  | r :: l' => Cat r (cat l')
  end.

Definition star := Rep true 0.
Definition plus := Rep true 1.
Definition lazy_star := Rep false 0.
Definition lazy_plus := Rep false 1.

(* ================================================================== *)
(** ** Content normaliser (tools/generation_tools.py, tools/crag_tools.py) *)

(** [<think>.*?</think>] under re.DOTALL *)
Definition think_re : re :=
  cat [lit (txt "<think>"); lazy_star any; lit (txt "</think>")].

(** [[^\x00-\x7F\xC0-\xFF€\xA1-\xBF]+] *)
Definition latin (c : cp) : bool :=
  (c <=? 127) || ((192 <=? c) && (c <=? 255)) || (c =? 8364)
  || ((161 <=? c) && (c <=? 191)).

Definition foreign_re : re := plus (fun c => negb (latin c)).

(** [\n\s*\n\s*\n+] *)
Definition blank_re : re :=
  cat [Chr (eqc NL); star isspace; Chr (eqc NL); star isspace; plus (eqc NL)].

(** [^#+\s+.*\n] under re.MULTILINE *)
Definition heading_re : re :=
  cat [Bol; plus (eqc 35); plus isspace; star dot; Chr (eqc NL)].

(** [^#{3,}\s+] under re.MULTILINE *)
Definition deep_heading_re : re :=
  cat [Bol; Rep true 3 (eqc 35); plus isspace].

(** generation_tools.clean_section_content *)
Definition clean_section_content (content : text) : text :=
  let content := sub think_re [] content in
  let content := sub foreign_re [] content in
  let content := sub blank_re [NL; NL] content in
  let content := sub heading_re [] content in
  strip content.

(** crag_tools.EnhancedProposalRetrieval.clean_retrieved_content *)
Definition clean_retrieved_content (content : text) : text :=
  let content := sub think_re [] content in
  let content := sub foreign_re [] content in
  let content := sub blank_re [NL; NL] content in
  let content := sub deep_heading_re (txt "## ") content in
  strip content.

(* ================================================================== *)
(** ** Chunker (tools/crag_tools.py, ProposalEmbedding._chunk_document) *)

Definition nonempty (s : text) : bool :=
  match s with [] => false | _ :: _ => true end.

(** The four heading patterns, in the order the chunker tries them:
    [\n#+\s+(.+?)\n], [\n(\d+\.\s+.+?)\n], [\n([A-Z][A-Z\s]+)\n],
    [\n(.*?:)\n]. *)
Definition section_patterns : list re :=
  [ cat [Chr (eqc NL); plus (eqc 35); plus isspace;
         Grp 1 (lazy_plus dot); Chr (eqc NL)];
    cat [Chr (eqc NL);
         Grp 1 (cat [plus isdigit; Chr (eqc 46); plus isspace; lazy_plus dot]);
         Chr (eqc NL)];
    cat [Chr (eqc NL);
         Grp 1 (cat [Chr isupper_az;
                     plus (fun c => isupper_az c || isspace c)]);
         Chr (eqc NL)];
    cat [Chr (eqc NL); Grp 1 (cat [lazy_star dot; Chr (eqc 58)]);
         Chr (eqc NL)] ].

(** The pairs [(sections[i], sections[i+1])] for [i = 1, 3, 5, ...]. *)
Fixpoint pairs (l : list text) : list (text * text) :=
  match l with
  | t :: c :: r => (t, c) :: pairs r
  | [t] => [(t, [])]
  | [] => []
  end.

Definition units (sections : list text) : list (text * text) :=
  pairs (tl sections).

(** The loop over the sections of one pattern; [cur] is [current_chunk]. *)
Fixpoint coalesce_sections (us : list (text * text)) (chunk_size : nat)
    (cur : text) (chunks : list text) : list text :=
  match us with
  | [] => if nonempty cur then chunks ++ [strip cur] else chunks
  | (t, content) :: r =>
    let title := strip t in
    let full := (chunk_size <? length cur + length title + length content)%nat
                && nonempty cur in
    let chunks := if full then chunks ++ [strip cur] else chunks in
    let cur := if full then [] else cur in
    coalesce_sections r chunk_size
      (cur ++ [NL] ++ (title ++ [NL] ++ content)) chunks
  end.

Fixpoint by_sections (pats : list re) (s : text) (chunk_size : nat)
    (chunks : list text) : list text :=
  match pats with
  | [] => chunks
  | p :: rest =>
    match search p (NL :: s) with
    | Some _ =>
      let chunks :=
        coalesce_sections (units (re_split p (NL :: s))) chunk_size [] chunks in
      match chunks with
      | _ :: _ => chunks
      | [] => by_sections rest s chunk_size chunks
      end
    | None => by_sections rest s chunk_size chunks
    end
  end.

(** [s[-n:]] for [n > 0] *)
Definition last_n (n : nat) (s : text) : text := skipn (length s - n) s.

(** The loop over the paragraphs. *)
Fixpoint coalesce_paragraphs (ps : list text) (chunk_size chunk_overlap : nat)
    (cur : text) (chunks : list text) : list text :=
  match ps with
  | [] => if nonempty cur then chunks ++ [strip cur] else chunks
  | p :: r =>
    let paragraph := strip p in
    if nonempty paragraph then
      let full := (chunk_size <? length cur + length paragraph)%nat
                  && nonempty cur in
      let chunks := if full then chunks ++ [strip cur] else chunks in
      let cur := if full
                 then (if (0 <? chunk_overlap)%nat
                       then last_n chunk_overlap cur else [])
                 else cur in
      coalesce_paragraphs r chunk_size chunk_overlap
        (cur ++ [NL] ++ paragraph) chunks
    else coalesce_paragraphs r chunk_size chunk_overlap cur chunks
  end.

(** [text[i:i + chunk_size].strip()] for [i] in [range(0, len(text), step)],
    [step > 0]; [s] is [text[i:]]. *)
Fixpoint slices (fuel : nat) (s : text) (chunk_size step : nat) : list text :=
  match fuel, s with
  | S f, _ :: _ =>
    strip (firstn chunk_size s) :: slices f (skipn step s) chunk_size step
  | _, _ => []
  end.

(** [_chunk_document]; [None] is the ValueError of [range] with step zero. *)
Definition _chunk_document (s : text) (chunk_size chunk_overlap : nat)
    : option (list text) :=
  let chunks := by_sections section_patterns s chunk_size [] in
  let chunks :=
    match chunks with
    | [] => coalesce_paragraphs (split [NL; NL] s) chunk_size chunk_overlap [] []
    | _ => chunks
    end in
  let keep := filter (fun c => nonempty (strip c)) in
  match chunks with
  | [] =>
    if (chunk_size =? chunk_overlap)%nat then None
    else if (chunk_size <? chunk_overlap)%nat then Some []
    else Some (keep (slices (length s) s chunk_size (chunk_size - chunk_overlap)))
  | _ => Some (keep chunks)
  end.

(* ================================================================== *)
(** ** External collaborators

    The generation backend and the vector store are outside the sources.  A
    call of one either returns a value or raises an exception with a
    message. *)

Inductive outcome (A : Type) : Type :=
| Returned (x : A)
| Raised (msg : text).
Arguments Raised {A} msg.

(* ================================================================== *)
(** ** Section retriever (tools/crag_tools.py, ProposalEmbedding) *)

Module Retrieval.

(** A stored passage: [Document.page_content] and the two metadata entries
    the retriever reads. *)
Record Doc : Type := mkDoc {
  page_content : text;
  meta_project_name : option text;
  meta_source : option text
}.

Section WithScore.

Variable Score : Type.

(** [similarity_search_with_score(query, k)] *)
Definition Index : Type := text -> nat -> outcome (list (Doc * Score)).

Record Result : Type := mkResult {
  project_name : text;
  project_code : text;
  section_content : text;
  similarity_score : Score;
  source : text
}.

(** [str.isdigit] on Latin-1: the decimal digits and the superscripts. *)
Definition str_isdigit (c : cp) : bool :=
  isdigit c || (c =? 178) || (c =? 179) || (c =? 185).

Definition section_mappings : list (text * list text) :=
  [ (txt "introduccion",
     map txt ["introducción"; "introduccion"; "1."; "i."; "1 introducción";
              "1. introducción"]);
    (txt "objetivos",
     map txt ["objetivos"; "2."; "ii."; "2 objetivos"; "2. objetivos";
              "objetivo general"; "objetivos específicos"]);
    (txt "alcance",
     map txt ["alcance"; "3."; "iii."; "3 alcance"; "3. alcance";
              "alcance del trabajo"; "alcance del proyecto"]);
    (txt "metodologia",
     map txt ["metodología"; "metodologia"; "4."; "iv."; "4 metodología";
              "enfoque metodológico"]);
    (txt "plan",
     map txt ["plan"; "cronograma"; "5."; "v."; "5 plan"; "planificación";
              "plan de trabajo"]);
    (txt "entregables",
     map txt ["entregables"; "6."; "vi."; "6 entregables";
              "productos a entregar"; "deliverables"]);
    (txt "recursos",
     map txt ["recursos"; "7."; "vii."; "7 recursos"; "equipo de trabajo";
              "personal asignado"]);
    (txt "riesgos",
     map txt ["riesgos"; "8."; "viii."; "8 riesgos"; "gestión de riesgos";
              "análisis de riesgos"]);
    (txt "calidad",
     map txt ["calidad"; "9."; "ix."; "9 calidad"; "control de calidad";
              "aseguramiento de calidad"]);
    (txt "normativas",
     map txt ["normativas"; "normas"; "10."; "x."; "10 normativas";
              "estándares"; "regulaciones"]);
    (txt "experiencia",
     map txt ["experiencia"; "11."; "xi."; "11 experiencia";
              "proyectos similares"; "track record"]);
    (txt "anexos",
     map txt ["anexos"; "12."; "xii."; "12 anexos"; "apéndices";
              "documentación adicional"]) ].

(** [_get_section_variants].  The source returns [list(set(variants))]; the
    only use is an [any] over it, so the list is left as built. *)
Definition _get_section_variants (section_name : text) : list text :=
  let section_name := lower section_name in
  let variants :=
    fold_left
      (fun variants e =>
         if contains (fst e) section_name
            || existsb (fun alt => contains alt section_name) (snd e)
         then variants ++ snd e else variants)
      section_mappings [section_name] in
  let clean_name :=
    strip (filter (fun c => negb (str_isdigit c)
                            && negb (existsb (N.eqb c) (txt ".-:")))
                  section_name) in
  if nonempty clean_name && negb (existsb (text_eqb clean_name) variants)
  then variants ++ [clean_name] else variants.

(** [Path(p).stem] *)
Fixpoint last_component (p cur : text) : text :=
  match p with
  | [] => rev cur
  | c :: r => if c =? 47 then last_component r (match r with [] => cur | _ => [] end)
              else last_component r (c :: cur)
  end.

Fixpoint drop_suffix (rname : text) : option text :=
  match rname with
  | [] => None
  | c :: r => if c =? 46 then Some r else drop_suffix r
  end.

Definition stem (p : text) : text :=
  let name := last_component p [] in
  match rev name with
  | [] => name
  | c :: _ =>
    if c =? 46 then name
    else match drop_suffix (rev name) with
         | Some ((_ :: _) as r) => rev r
         | _ => name
         end
  end.

Definition mentions (variants : list text) (e : Doc * Score) : bool :=
  let content := lower (page_content (fst e)) in
  existsb (fun variant => contains variant content) variants.

Definition format_result (e : Doc * Score) : Result :=
  let doc := fst e in
  let src := match meta_source doc with Some s => s | None => [] end in
  mkResult
    (match meta_project_name doc with Some n => n | None => txt "Desconocido" end)
    (stem src) (page_content doc) (snd e) src.

Definition combined_query (section_name query : text) : text :=
  txt "Sección: " ++ section_name ++ txt ". " ++ query.

(** The candidates kept: the ones that mention the section, or all of them
    when none does. *)
Definition select (variants : list text) (results : list (Doc * Score))
    : list (Doc * Score) :=
  let section_filtered_results := filter (mentions variants) results in
  match section_filtered_results, results with
  | [], _ :: _ => results
  | _, _ => section_filtered_results
  end.

(** [search_similar_content]; [vector_db] is [None] before the first
    indexing. *)
Definition search_similar_content (vector_db : option Index)
    (query section_name : text) (k : nat) : list Result :=
  match vector_db with
  | None => []
  | Some db =>
    match db (combined_query section_name query) (k * 3)%nat with
    | Raised _ => []
    | Returned results =>
      let section_variants := _get_section_variants section_name in
      let final_results := firstn k (select section_variants results) in
      map format_result final_results
    end
  end.

End WithScore.

End Retrieval.

(* ================================================================== *)
(** ** Enhanced context (tools/crag_tools.py, EnhancedProposalRetrieval) *)

Module Enhancer.
Import Retrieval.

(** A section template. *)
Record Template : Type := mkTemplate {
  titulo : text;
  estructura : list text;
  formato : text;
  longitud_recomendada : text
}.

(** [get_section_template] *)
Definition get_section_template (section_name : text) : Template :=
  let normalized_name := strip (lower section_name) in
  if text_eqb normalized_name (txt "introduccion") then
    mkTemplate (txt "1. INTRODUCCIÓN")
      (map txt ["Contexto del proyecto"; "Descripción del problema/necesidad";
                "Propósito de la propuesta"; "Beneficios esperados"])
      (txt "párrafos") (txt "3-4 párrafos")
  else if text_eqb normalized_name (txt "objetivos") then
    mkTemplate (txt "2. OBJETIVOS")
      (map txt ["2.1 OBJETIVO GENERAL";
                "2.2 OBJETIVOS ESPECÍFICOS (en viñetas)"])
      (txt "general en párrafo, específicos en viñetas")
      (txt "1 párrafo + 3-5 viñetas")
  else
    mkTemplate (upper section_name)
      (map txt ["Información general"; "Detalles específicos"])
      (txt "párrafos y viñetas según convenga") (txt "2-3 párrafos").

(** An entry of [cleaned_examples]. *)
Record Example : Type := mkExample {
  e_project_name : text;
  e_content : text
}.

Record Instructions : Type := mkInstructions {
  format_guidelines : text;
  content_guidelines : text;
  style_guidelines : text;
  common_mistakes : text
}.

Record EnhancedContext : Type := mkEnhancedContext {
  template : Template;
  examples : list Example;
  instructions : Instructions
}.

Section WithScore.

Variable Score : Type.

(** The loop that cleans the examples and drops the empty ones. *)
Definition clean_examples (similar_proposals : list (Result Score))
    : list Example :=
  flat_map
    (fun prop =>
       let content := clean_retrieved_content (section_content prop) in
       if nonempty content then [mkExample (project_name prop) content]
       else [])
    similar_proposals.

(** [get_enhanced_context]; [vector_db] is the index of the embedding
    system. *)
Definition get_enhanced_context (vector_db : option (Index Score))
    (section_name tdr_info : text) (num_examples : nat) : EnhancedContext :=
  let template := get_section_template section_name in
  let similar_proposals :=
    search_similar_content vector_db
      (txt "Sección " ++ section_name ++ txt ": " ++ firstn 500 tdr_info)
      section_name num_examples in
  mkEnhancedContext template (clean_examples similar_proposals)
    (mkInstructions
       (txt "Usar el título '" ++ titulo template
        ++ txt "' y seguir la estructura recomendada")
       (txt "Mantener coherencia con secciones anteriores y siguientes")
       (txt "Usar lenguaje técnico profesional, evitar repeticiones")
       (txt "Evitar cambios de idioma, etiquetas visibles, o estructura incoherente")).

End WithScore.

End Enhancer.

(* ================================================================== *)
(** ** JSON values and Python's operations on them *)

Inductive json : Type :=
| JNull
| JBool (b : bool)
| JNum (literal : text) (nonzero : bool)
| JStr (s : text)
| JArr (l : list json)
| JObj (l : list (text * json)).

(** What [json.loads] comes to: a value, a [JSONDecodeError], or another
    exception (a [RecursionError] on deep nesting). *)
Inductive loaded : Type :=
| Parsed (j : json)
| DecodeError
| OtherError.

(** A [dict] with string keys, in insertion order. *)
Definition dict (A : Type) : Type := list (text * A).

Fixpoint dict_get (A : Type) (d : dict A) (k : text) : option A :=
  match d with
  | [] => None
  | (k', v) :: r => if text_eqb k' k then Some v else dict_get r k
  end.

(** [d[k] = v] *)
Fixpoint dict_set (A : Type) (d : dict A) (k : text) (v : A) : dict A :=
  match d with
  | [] => [(k, v)]
  | (k', v') :: r =>
    if text_eqb k' k then (k, v) :: r else (k', v') :: dict_set r k v
  end.

Definition keys (A : Type) (d : dict A) : list text := map fst d.

(** [k in d] for a string [k]: key of a dict, element of a list, substring of
    a string, and a TypeError ([None]) on anything else. *)
Definition py_in (k : text) (d : json) : option bool :=
  match d with
  | JObj l => Some (existsb (fun e => text_eqb (fst e) k) l)
  | JArr l => Some (existsb (fun e => match e with
                                      | JStr s => text_eqb s k
                                      | _ => false
                                      end) l)
  | JStr s => Some (contains k s)
  | _ => None
  end.

(** [d[k]] for a string [k]: the entry of a dict; a KeyError or a TypeError
    ([None]) otherwise. *)
Definition py_getitem (d : json) (k : text) : option json :=
  match d with
  | JObj l => dict_get l k
  | _ => None
  end.

(** Truth value of a Python object. *)
Definition truthy (j : json) : bool :=
  match j with
  | JNull => false
  | JBool b => b
  | JNum _ nonzero => nonzero
  | JStr s => nonempty s
  | JArr l => match l with [] => false | _ => true end
  | JObj l => match l with [] => false | _ => true end
  end.

(** [j != s] for a string [s] *)
Definition differs (j : json) (s : text) : bool :=
  match j with
  | JStr s' => negb (text_eqb s' s)
  | _ => true
  end.

(* ================================================================== *)
(** ** Project metadata (nodes/section_node.py, nodes/combine_node.py) *)

Module Metadata.

(** Case-insensitive literal of a [str] pattern under re.IGNORECASE: equal
    after lowering, with the dotted and dotless i, the long s and the Kelvin
    sign folded onto i, s and k. *)
Definition fold_cp (c : cp) : cp :=
  if (c =? 304) || (c =? 305) then 105
  else if c =? 383 then 115
  else if c =? 8490 then 107
  else lower_cp c.

Definition ieq (p : cp) : cp -> bool := fun c => fold_cp c =? fold_cp p.

Fixpoint ilit (s : text) : re :=
  match s with
  | [] => Eps
  | [c] => Chr (ieq c)
  | c :: s' => Cat (Chr (ieq c)) (ilit s')
  end.

Definition colon_or_space (c : cp) : bool := (c =? 58) || isspace c.

(** [(.+?)(?=\n|$)] *)
Definition value_re : re :=
  Cat (Grp 1 (lazy_plus dot)) (Ahead (Alt (Chr (eqc NL)) Eos)).

(** [(?:título|titulo|nombre)\s+del\s+proyecto[:\s]+(.+?)(?=\n|$)] *)
Definition title_re : re :=
  cat [Alt (ilit (txt "título")) (Alt (ilit (txt "titulo")) (ilit (txt "nombre")));
       plus isspace; ilit (txt "del"); plus isspace; ilit (txt "proyecto");
       plus colon_or_space; value_re].

(** [(?:cliente|empresa)[:\s]+(.+?)(?=\n|$)] *)
Definition client_re : re :=
  cat [Alt (ilit (txt "cliente")) (ilit (txt "empresa"));
       plus colon_or_space; value_re].

(** [(?:fecha|plazo)[:\s]+(.+?)(?=\n|$)] *)
Definition date_re : re :=
  cat [Alt (ilit (txt "fecha")) (ilit (txt "plazo"));
       plus colon_or_space; value_re].

(** The body of a [try] block that assigns to the [metadata] dict: a
    computation reads and writes the dict and either goes on with a value or
    raises ([None]); the assignments made before the exception stay. *)
Definition M (A : Type) : Type := dict json -> option A * dict json.

Definition ret (A : Type) (x : A) : M A := fun md => (Some x, md).

Definition bind (A B : Type) (c : M A) (f : A -> M B) : M B :=
  fun md => match c md with
            | (Some x, md') => f x md'
            | (None, md') => (None, md')
            end.

(** An operation that may raise *)
Definition lift (A : Type) (o : option A) : M A := fun md => (o, md).

(** [metadata[k] = v] *)
Definition assign (k : text) (v : json) : M unit :=
  fun md => (Some tt, dict_set md k v).

Notation "x <- c ;; f" := (bind c (fun x => f))
  (at level 61, c at next level, right associativity).
Notation "c ;;; f" := (bind c (fun _ => f))
  (at level 61, right associativity).

(** [try: body  except Exception: pass], then [return metadata] *)
Definition run_try (body : M unit) (md : dict json) : dict json :=
  snd (body md).

Definition when (b : bool) (c : M unit) : M unit := if b then c else ret tt.

(** [if k in d: metadata[k] = d[k]] *)
Definition copy_field (d : json) (k : text) : M unit :=
  present <- lift (py_in k d) ;;
  when present (v <- lift (py_getitem d k) ;; assign k v).

(** The loop over [date_fields], left at the first field that is present,
    true and not "No especificado". *)
Fixpoint copy_date (d : json) (fields : list text) : M unit :=
  match fields with
  | [] => ret tt
  | field :: rest =>
    present <- lift (py_in field d) ;;
    if present then
      v <- lift (py_getitem d field) ;;
      if truthy v && differs v (txt "No especificado")
      then assign (txt "fecha") v
      else copy_date d rest
    else copy_date d rest
  end.

Definition date_fields : list text :=
  map txt ["fecha"; "fecha_inicio"; "plazos"; "cronograma"].

(** [m = re.search(r, s); if m: metadata[k] = m.group(1).strip()] *)
Definition assign_match (r : re) (s k : text) : M unit :=
  match search r s with
  | Some h => assign k (JStr (strip (grp h 1%nat)))
  | None => ret tt
  end.

Section WithJson.

Variable json_loads : text -> loaded.

(** The inner [try] around [json.loads]: a decode error leaves [is_json]
    false, any other exception goes to the outer handler. *)
Definition load (tdr_info : text) : M (option json) :=
  match json_loads tdr_info with
  | Parsed j => ret (Some j)
  | DecodeError => ret None
  | OtherError => lift None
  end.

Definition defaults (fecha : text) : dict json :=
  [ (txt "titulo_proyecto", JStr (txt "Proyecto No Especificado"));
    (txt "cliente", JStr (txt "Cliente No Especificado"));
    (txt "fecha", JStr fecha) ].

(** section_node.extract_project_metadata *)
Definition extract_project_metadata (tdr_info : text) : dict json :=
  run_try
    (loaded <- load tdr_info ;;
     match loaded with
     | Some tdr_dict =>
       copy_field tdr_dict (txt "titulo_proyecto") ;;;
       copy_field tdr_dict (txt "cliente") ;;;
       copy_date tdr_dict date_fields
     | None =>
       assign_match title_re tdr_info (txt "titulo_proyecto") ;;;
       assign_match client_re tdr_info (txt "cliente") ;;;
       assign_match date_re tdr_info (txt "fecha")
     end)
    (defaults (txt "No Especificada")).

(** [if k in d and d[k] != "No especificado": metadata[k] = d[k]] *)
Definition copy_specified (d : json) (k : text) : M unit :=
  present <- lift (py_in k d) ;;
  when present
    (v <- lift (py_getitem d k) ;;
     when (differs v (txt "No especificado")) (assign k v)).

(** combine_node.extract_project_metadata: [tdr_info] and [sections] are the
    entries of the state it reads, [today] is [get_current_date()]. *)
Definition extract_project_metadata_of_state (today : text)
    (tdr_info : text) (sections : list text) : dict json :=
  run_try
    (loaded <- load tdr_info ;;
     match loaded with
     | Some tdr_dict =>
       copy_specified tdr_dict (txt "titulo_proyecto") ;;;
       copy_specified tdr_dict (txt "cliente") ;;;
       copy_date tdr_dict date_fields
     | None =>
       match sections with
       | intro_section :: _ =>
         assign_match title_re intro_section (txt "titulo_proyecto") ;;;
         assign_match client_re intro_section (txt "cliente")
       | [] => ret tt
       end
     end)
    (defaults today).

End WithJson.

End Metadata.

(* ================================================================== *)
(** ** Project metadata of the enhanced node
       (nodes/enhanced_section_node.py) *)

Module Enhanced.
Import Metadata.

(** [(.+?)(?:\n|$)] *)
Definition value_line_re : re :=
  Cat (Grp 1 (lazy_plus dot)) (Alt (Chr (eqc NL)) Eos).

(** [(?:título|titulo|nombre)\s+del\s+proyecto[:\s]+(.+?)(?:\n|$)],
    [(?:cliente|empresa)[:\s]+(.+?)(?:\n|$)] and
    [(?:fecha)[:\s]+(.+?)(?:\n|$)], under re.IGNORECASE *)
Definition title_line_re : re :=
  cat [Alt (ilit (txt "título")) (Alt (ilit (txt "titulo")) (ilit (txt "nombre")));
       plus isspace; ilit (txt "del"); plus isspace; ilit (txt "proyecto");
       plus colon_or_space; value_line_re].

Definition client_line_re : re :=
  cat [Alt (ilit (txt "cliente")) (ilit (txt "empresa"));
       plus colon_or_space; value_line_re].

Definition date_line_re : re :=
  cat [ilit (txt "fecha"); plus colon_or_space; value_line_re].

Definition date_keys : list text :=
  map txt ["fecha"; "fecha_inicio"; "fecha_elaboracion"; "fecha_entrega"].

(** The loop over [date_fields], left at the first field that is present. *)
Fixpoint copy_first (d : json) (fields : list text) : M unit :=
  match fields with
  | [] => ret tt
  | field :: rest =>
    present <- lift (py_in field d) ;;
    if present then v <- lift (py_getitem d field) ;; assign (txt "fecha") v
    else copy_first d rest
  end.

Section WithJson.

Variable json_loads : text -> loaded.

(** enhanced_section_node.extract_project_metadata.  Its handler catches
    the decode error only: [None] is any other exception, which leaves the
    function. *)
Definition extract_project_metadata (tdr_info : text) : option (dict json) :=
  let metadata := defaults (txt "No Especificada") in
  match json_loads tdr_info with
  | Parsed info_dict =>
    match (copy_field info_dict (txt "titulo_proyecto") ;;;
           copy_field info_dict (txt "cliente") ;;;
           copy_first info_dict date_keys) metadata with
    | (Some _, metadata) => Some metadata
    | (None, _) => None
    end
  | DecodeError =>
    Some (snd ((assign_match title_line_re tdr_info (txt "titulo_proyecto") ;;;
                assign_match client_line_re tdr_info (txt "cliente") ;;;
                assign_match date_line_re tdr_info (txt "fecha")) metadata))
  | OtherError => None
  end.

End WithJson.

End Enhanced.

(* ================================================================== *)
(** ** A JSON reader and writer

    The functions above take [json.loads] as a parameter.  This
    recursive-descent reader stands for it where a result is computed on a
    given input: objects, arrays, strings with their escapes, numbers and
    the literals, with the grammar of Python's decoder (no trailing comma,
    nothing but blanks after the value). *)

Module Json.

Definition is_ws (c : cp) : bool :=
  (c =? 32) || (c =? 9) || (c =? 10) || (c =? 13).

Fixpoint skip_ws (s : text) : text :=
  match s with
  | c :: r => if is_ws c then skip_ws r else s
  | [] => []
  end.

Definition hex_val (c : cp) : option N :=
  if isdigit c then Some (c - 48)
  else if (97 <=? c) && (c <=? 102) then Some (c - 87)
  else if (65 <=? c) && (c <=? 70) then Some (c - 55)
  else None.

(** After the opening quote: the string's characters and the rest. *)
Fixpoint read_string (s : text) (acc : text) : option (text * text) :=
  match s with
  | [] => None
  | c :: r =>
    if c =? QUOTE then Some (rev acc, r)
    else if c <? 32 then None
    else if c =? 92 then
      match r with
      | e :: r' =>
        if e =? 117 then
          match r' with
          | h1 :: h2 :: h3 :: h4 :: r'' =>
            match hex_val h1, hex_val h2, hex_val h3, hex_val h4 with
            | Some a, Some b, Some c', Some d =>
              read_string r'' ((a * 4096 + b * 256 + c' * 16 + d) :: acc)
            | _, _, _, _ => None
            end
          | _ => None
          end
        else
          let plain (x : cp) := read_string r' (x :: acc) in
          if e =? QUOTE then plain QUOTE
          else if e =? 92 then plain 92
          else if e =? 47 then plain 47
          else if e =? 98 then plain 8
          else if e =? 102 then plain 12
          else if e =? 110 then plain 10
          else if e =? 114 then plain 13
          else if e =? 116 then plain 9
          else None
      | [] => None
      end
    else read_string r (c :: acc)
  end.

Fixpoint span (p : cp -> bool) (s : text) : text * text :=
  match s with
  | c :: r => if p c then let '(x, y) := span p r in (c :: x, y) else ([], s)
  | [] => ([], [])
  end.

(** A number: sign, integer part without leading zero, fraction, exponent;
    the literal is kept, with whether a digit of the mantissa is not 0. *)
Definition read_number (s : text) : option (json * text) :=
  let '(sign, s1) := match s with
                     | c :: r => if c =? 45 then ([c], r) else ([], s)
                     | [] => ([], s)
                     end in
  let '(int_part, s2) :=
    match s1 with
    | c :: r => if c =? 48 then ([c], r) else span isdigit s1
    | [] => ([], s1)
    end in
  match int_part with
  | [] => None
  | _ =>
    let '(frac, s3) :=
      match s2 with
      | c :: r => if c =? 46
                  then (match span isdigit r with
                        | ([], _) => ([], s2)
                        | (d, r') => (c :: d, r')
                        end)
                  else ([], s2)
      | [] => ([], s2)
      end in
    let '(expo, s4) :=
      match s3 with
      | c :: r =>
        if (c =? 101) || (c =? 69) then
          let '(sg, r1) := match r with
                           | x :: r' => if (x =? 43) || (x =? 45)
                                        then ([x], r') else ([], r)
                           | [] => ([], r)
                           end in
          match span isdigit r1 with
          | ([], _) => ([], s3)
          | (d, r') => (c :: sg ++ d, r')
          end
        else ([], s3)
      | [] => ([], s3)
      end in
    Some (JNum (sign ++ int_part ++ frac ++ expo)
               (existsb (fun c => (49 <=? c) && (c <=? 57)) (int_part ++ frac)),
          s4)
  end.

Definition after (p s : text) : option text :=
  if startswith p s then Some (skipn (length p) s) else None.

(** The members of an object after the first key's opening quote has been
    seen to be next, and the elements of an array, each with the value
    reader [rv] of one nesting level less. *)
Fixpoint read_members (fuel : nat) (rv : text -> option (json * text))
    (s : text) (acc : dict json) : option (json * text) :=
  match fuel, s with
  | S f, c :: r =>
    if c =? QUOTE then
      match read_string r [] with
      | Some (k, r1) =>
        match skip_ws r1 with
        | c1 :: r2 =>
          if c1 =? 58 then
            match rv (skip_ws r2) with
            | Some (v, r3) =>
              let acc := dict_set acc k v in
              match skip_ws r3 with
              | c2 :: r4 =>
                if c2 =? 125 then Some (JObj acc, r4)
                else if c2 =? 44 then read_members f rv (skip_ws r4) acc
                else None
              | [] => None
              end
            | None => None
            end
          else None
        | [] => None
        end
      | None => None
      end
    else None
  | _, _ => None
  end.

Fixpoint read_elements (fuel : nat) (rv : text -> option (json * text))
    (s : text) (acc : list json) : option (json * text) :=
  match fuel with
  | S f =>
    match rv s with
    | Some (v, r) =>
      match skip_ws r with
      | c :: r' =>
        if c =? 93 then Some (JArr (rev (v :: acc)), r')
        else if c =? 44 then read_elements f rv (skip_ws r') (v :: acc)
        else None
      | [] => None
      end
    | None => None
    end
  | O => None
  end.

Fixpoint read_value (fuel : nat) (s : text) : option (json * text) :=
  match fuel with
  | O => None
  | S f =>
    match s with
    | [] => None
    | c :: r =>
      if c =? QUOTE then
        match read_string r [] with
        | Some (x, r') => Some (JStr x, r')
        | None => None
        end
      else if c =? 123 then
        match skip_ws r with
        | c' :: r' =>
          if c' =? 125 then Some (JObj [], r')
          else read_members (length r) (read_value f) (skip_ws r) []
        | [] => None
        end
      else if c =? 91 then
        match skip_ws r with
        | c' :: r' =>
          if c' =? 93 then Some (JArr [], r')
          else read_elements (length r) (read_value f) (skip_ws r) []
        | [] => None
        end
      else if startswith (txt "null") s
      then Some (JNull, skipn 4 s)
      else if startswith (txt "true") s
      then Some (JBool true, skipn 4 s)
      else if startswith (txt "false") s
      then Some (JBool false, skipn 5 s)
      else if startswith (txt "NaN") s
      then Some (JNum (txt "NaN") true, skipn 3 s)
      else if startswith (txt "Infinity") s
      then Some (JNum (txt "Infinity") true, skipn 8 s)
      else if startswith (txt "-Infinity") s
      then Some (JNum (txt "-Infinity") true, skipn 9 s)
      else read_number s
    end
  end.

Definition loads (s : text) : loaded :=
  match read_value (S (length s)) (skip_ws s) with
  | Some (j, r) => match skip_ws r with [] => Parsed j | _ => DecodeError end
  | None => DecodeError
  end.

(** [json.dumps(j, ensure_ascii=False)] *)
Definition escape (c : cp) : text :=
  if c =? QUOTE then [92; QUOTE]
  else if c =? 92 then [92; 92]
  else if c =? 10 then [92; 110]
  else if c =? 13 then [92; 114]
  else if c =? 9 then [92; 116]
  else if c =? 8 then [92; 98]
  else if c =? 12 then [92; 102]
  else if c <? 32
  then txt "\u00" ++ [if c <? 16 then 48 else 49]
       ++ [let d := c mod 16 in if d <? 10 then 48 + d else 87 + d]
  else [c].

Definition dump_string (s : text) : text :=
  QUOTE :: flat_map escape s ++ [QUOTE].

Fixpoint join (sep : text) (l : list text) : text :=
  match l with
  | [] => []
  | [x] => x
  | x :: r => x ++ sep ++ join sep r
  end.

Fixpoint dumps (j : json) : text :=
  match j with
  | JNull => txt "null"
  | JBool true => txt "true"
  | JBool false => txt "false"
  | JNum lit_ _ => lit_
  | JStr s => dump_string s
  | JArr l => [91] ++ join (txt ", ") (map dumps l) ++ [93]
  | JObj l =>
    [123] ++ join (txt ", ")
               (map (fun e => dump_string (fst e) ++ txt ": " ++ dumps (snd e)) l)
    ++ [125]
  end.

End Json.

(* ================================================================== *)
(** ** Context of similar proposals (tools/crag_tools.py,
       get_similar_proposals_context) *)

Module Context.

Set Warnings "-abstract-large-number".

(** [d.get(k, default)] *)
Definition dict_get_or (d : dict json) (k : text) (default : json) : json :=
  match dict_get d k with Some v => v | None => default end.

Definition truncation_note : text := txt "...
[Contexto truncado por tamaño]".

Section WithSearch.

Variable json_loads : text -> loaded.
Variable json_dumps : json -> text.

(** [str(v)], as an f-string writes a value. *)
Variable py_str : json -> text.

(** [find_similar_proposals(search_params)]: the text it returns, or the
    exception it raises. *)
Variable find_similar_proposals : text -> outcome text.

(** One pass of the loop over the proposals; [None] is the AttributeError of
    [prop.get] on a value that is no dict. *)
Definition context_part (i : nat) (prop : json) : option (list text) :=
  match prop with
  | JObj d =>
    if truthy (dict_get_or d (txt "section_content") JNull) then
      Some [txt "### Ejemplo " ++ str_of_nat (i + 1) ++ txt " - Proyecto: "
            ++ py_str (dict_get_or d (txt "project_name") (JStr (txt "N/A")))
            ++ txt " (Código: "
            ++ py_str (dict_get_or d (txt "project_code") (JStr (txt "N/A")))
            ++ txt ")" ++ [NL]
            ++ py_str (dict_get_or d (txt "section_content") (JStr []))
            ++ [NL]]
    else Some []
  | _ => None
  end.

Fixpoint context_parts (i : nat) (proposals : list json)
    : option (list text) :=
  match proposals with
  | [] => Some []
  | prop :: rest =>
    match context_part i prop with
    | Some part =>
      match context_parts (i + 1) rest with
      | Some parts => Some (part ++ parts)
      | None => None
      end
    | None => None
    end
  end.

(** What the loop iterates over: the elements of a list, the characters of
    a string, the keys of a dict; [None] is the TypeError of a value that
    cannot be iterated. *)
Definition elements (proposals : json) : option (list json) :=
  match proposals with
  | JArr l => Some l
  | JStr s => Some (map (fun c => JStr [c]) s)
  | JObj d => Some (map JStr (keys d))
  | _ => None
  end.

(** [get_similar_proposals_context]: every failure gives the empty
    string. *)
Definition get_similar_proposals_context (section_name tdr_info : text)
    : text :=
  let search_params :=
    json_dumps (JObj [(txt "section_name", JStr section_name);
                      (txt "tdr_info", JStr tdr_info)]) in
  match find_similar_proposals search_params with
  | Raised _ => []
  | Returned similar_proposals_json =>
    match json_loads similar_proposals_json with
    | Parsed (JObj similar_proposals) =>
      if differs (dict_get_or similar_proposals (txt "status") JNull)
                 (txt "success")
         || negb (truthy (dict_get_or similar_proposals (txt "proposals")
                                      JNull))
      then []
      else
        match elements (dict_get_or similar_proposals (txt "proposals")
                                    (JArr [])) with
        | Some proposals =>
          match context_parts 0 proposals with
          | Some parts =>
            let context := Json.join [NL] parts in
            if (7000 <? length context)%nat
            then firstn 7000 context ++ truncation_note
            else context
          | None => []
          end
        | None => []
        end
    | _ => []
    end
  end.

End WithSearch.

End Context.

(* ================================================================== *)
(** ** Outline repair (tools/analysis_tools.py, generate_index) *)

Module Outline.

Definition required_sections : list text :=
  map txt ["INTRODUCCION"; "OBJETIVOS"; "ALCANCE"; "METODOLOGIA";
           "PLAN_DE_TRABAJO"; "ENTREGABLES"; "RECURSOS";
           "RIESGOS"; "CALIDAD"; "NORMATIVAS"; "EXPERIENCIA"; "ANEXOS"].

Definition default_descriptions : dict text :=
  map (fun e => (txt (fst e), txt (snd e)))
  [ ("INTRODUCCION", "Contexto del proyecto y descripción del problema a resolver");
    ("OBJETIVOS", "Objetivo general y objetivos específicos del proyecto");
    ("ALCANCE", "Alcance detallado del trabajo y límites del proyecto");
    ("METODOLOGIA", "Metodología propuesta para el desarrollo del proyecto");
    ("PLAN_DE_TRABAJO", "Plan de trabajo y cronograma de actividades");
    ("ENTREGABLES", "Listado detallado de entregables del proyecto");
    ("RECURSOS", "Recursos humanos y técnicos asignados al proyecto");
    ("RIESGOS", "Gestión de riesgos y plan de mitigación");
    ("CALIDAD", "Plan de aseguramiento de calidad");
    ("NORMATIVAS", "Normativas y estándares aplicables");
    ("EXPERIENCIA", "Experiencia relevante en proyectos similares");
    ("ANEXOS", "Anexos técnicos y documentación complementaria") ].

Definition default_index : dict json :=
  map (fun e => (txt (fst e), JStr (txt (snd e))))
  [ ("INTRODUCCION_Y_CONTEXTO", "Contexto del proyecto y descripción del problema a resolver");
    ("OBJETIVOS_GENERALES", "Objetivo general del proyecto");
    ("OBJETIVOS_ESPECIFICOS", "Objetivos específicos detallados del proyecto");
    ("ALCANCE_DEL_TRABAJO", "Alcance detallado del trabajo, incluyendo lo que está dentro y fuera del alcance");
    ("METODOLOGIA_PROPUESTA", "Metodología propuesta para el desarrollo del proyecto");
    ("PLAN_DE_TRABAJO_Y_CRONOGRAMA", "Plan detallado con fases, actividades y tiempos");
    ("ENTREGABLES", "Listado y descripción detallada de los entregables del proyecto");
    ("RECURSOS_HUMANOS_Y_TECNICOS", "Equipo de trabajo, roles y recursos técnicos asignados");
    ("GESTION_DE_RIESGOS", "Identificación de riesgos y estrategias de mitigación");
    ("PLAN_DE_CALIDAD", "Mecanismos de aseguramiento de calidad y estándares aplicables");
    ("NORMATIVAS_Y_ESTANDARES_APLICABLES", "Cumplimiento de normativas y estándares relevantes");
    ("EXPERIENCIA_RELEVANTE", "Experiencia en proyectos similares y capacidades demostradas");
    ("ANEXOS_TECNICOS", "Documentación técnica complementaria") ].

(** [^[^{]*] and [[^}]*$], without re.MULTILINE *)
Definition before_brace_re : re := Cat Bos (star (neqc 123)).
Definition after_brace_re : re := Cat (star (neqc 125)) Eos.

(** [,\s*}] and [,\s*]] *)
Definition comma_brace_re : re := cat [Chr (eqc 44); star isspace; Chr (eqc 125)].
Definition comma_bracket_re : re := cat [Chr (eqc 44); star isspace; Chr (eqc 93)].

Definition fence : text := txt "```".
Definition json_fence : text := txt "```json".

(** [response.split(opening)[1].split("```")[0].strip()] *)
Definition fenced (opening response : text) : text :=
  strip (nth 0 (split fence (nth 1 (split opening response) [])) []).

Definition unfence (response : text) : text :=
  if contains json_fence response then fenced json_fence response
  else if contains fence response then fenced fence response
  else response.

(** [required in key.upper().replace(" ", "_")] for some key *)
Definition covered (ks : list text) (required : text) : bool :=
  existsb (fun key => contains required (replace [32] [95] (upper key))) ks.

Definition missing_sections (ks : list text) : list text :=
  filter (fun required => negb (covered ks required)) required_sections.

Definition add_missing (json_response : dict json) (section : text) : dict json :=
  dict_set json_response (section ++ txt "_SECCION")
    (JStr (match dict_get default_descriptions section with
           | Some d => d
           | None => []
           end)).

Section WithJson.

Variable json_loads : text -> loaded.
Variable json_dumps : json -> text.

(** [generate_index]; [answer] is what the call of the generation backend
    comes to.  An exception other than a decode error (the AttributeError of
    [keys()] on a value that is no dict among them) reaches the handler that
    answers with the default outline. *)
Definition generate_index (answer : outcome text) : text :=
  let fallback := json_dumps (JObj default_index) in
  match answer with
  | Raised _ => fallback
  | Returned response =>
    let response := sub think_re [] response in
    let response := sub before_brace_re [] response in
    let response := sub after_brace_re [] response in
    let response := unfence response in
    match json_loads response with
    | Parsed (JObj json_response) =>
      json_dumps
        (JObj (fold_left add_missing
                 (missing_sections (keys json_response)) json_response))
    | Parsed _ => fallback
    | OtherError => fallback
    | DecodeError =>
      let response := sub comma_brace_re [125] response in
      let response := sub comma_bracket_re [93] response in
      match json_loads response with
      | Parsed _ => response
      | DecodeError => fallback
      | OtherError => fallback
      end
    end
  end.

End WithJson.

End Outline.

(* ================================================================== *)
(** ** TDR analysis (tools/analysis_tools.py, analyze_tdr) *)

Module Analysis.
Import Outline.

(** [analyze_tdr]; [answer] is what the call of the generation backend
    comes to.  The answer is returned without its code fence; a failure is
    reported in the text returned. *)
Definition analyze_tdr (answer : outcome text) : text :=
  match answer with
  | Returned response => unfence response
  | Raised e =>
    let error_message := txt "Error al analizar el TDR: " ++ e in
    txt "Error: " ++ error_message
  end.

End Analysis.

(* ================================================================== *)
(** ** Structural validator, numbering rules
       (tools/proposal_validator.py) *)

Module Validator.

(** [##\s+(\d+)\.] and [###\s+(\d+\.\d+)] *)
Definition chapter_re : re :=
  cat [lit (txt "##"); plus isspace; Grp 1 (plus isdigit); Chr (eqc 46)].

Definition subsection_re : re :=
  cat [lit (txt "###"); plus isspace;
       Grp 1 (cat [plus isdigit; Chr (eqc 46); plus isdigit])].

(** [(\d+)\.(\d+)], matched at the start of a label *)
Definition label_re : re :=
  cat [Grp 1 (plus isdigit); Chr (eqc 46); Grp 2 (plus isdigit)].

(** [##\s+\d+\.\s+] *)
Definition heading_number_re : re :=
  cat [lit (txt "##"); plus isspace; plus isdigit; Chr (eqc 46); plus isspace].

Inductive issue : Type :=
| NotSequential (numbers expected : list nat)
| SubsectionGap (previous_chapter previous_section
                 current_chapter current_section : nat)
| FirstNotOne (current_chapter current_section : nat)
| Regression (previous_chapter previous_section
              current_chapter current_section : nat).

Definition label_text (c s : nat) : text :=
  str_of_nat c ++ [46] ++ str_of_nat s.

Definition list_text (l : list nat) : text :=
  [91] ++ Json.join (txt ", ") (map str_of_nat l) ++ [93].

(** The message appended to [results["numbering"]["issues"]]. *)
Definition render (i : issue) : text :=
  match i with
  | NotSequential numbers expected =>
    txt "Numeración no secuencial en consistent_chapter_numbering: "
    ++ list_text numbers ++ txt " != " ++ list_text expected
  | SubsectionGap pc ps cc cs =>
    txt "Subsección no secuencial: " ++ label_text pc ps
    ++ txt " -> " ++ label_text cc cs
  | FirstNotOne cc cs =>
    txt "Primera subsección no es 1: " ++ label_text cc cs
  | Regression pc ps cc cs =>
    txt "Retroceso en la numeración de secciones: " ++ label_text pc ps
    ++ txt " -> " ++ label_text cc cs
  end.

(** [results["numbering"]] *)
Record rule_group : Type := mkGroup { valid : bool; issues : list issue }.

Definition flag (g : rule_group) (i : issue) : rule_group :=
  mkGroup false (issues g ++ [i]).

Fixpoint list_eqb (x y : list nat) : bool :=
  match x, y with
  | [], [] => true
  | a :: x', b :: y' => (a =? b)%nat && list_eqb x' y'
  | _, _ => false
  end.

(** The numbers of the chapter headings, in document order. *)
Definition chapter_numbers (proposal_text : text) : list nat :=
  map int_of (findall1 chapter_re proposal_text).

Definition parse_label (subsection : text) : option (nat * nat) :=
  match match_at label_re false [] subsection with
  | Some f => Some (int_of (group 1%nat f), int_of (group 2%nat f))
  | None => None
  end.

(** The labels [chapter.sub] of the subsection headings, in document
    order. *)
Definition subsection_labels (proposal_text : text) : list (nat * nat) :=
  flat_map (fun s => match parse_label s with Some l => [l] | None => [] end)
           (findall1 subsection_re proposal_text).

(** The rule [must_be_sequential]. *)
Definition check_sequential (numbers : list nat) (g : rule_group) : rule_group :=
  let expected := seq 1 (length numbers) in
  if list_eqb numbers expected then g
  else flag g (NotSequential numbers expected).

(** The loop of the rule [must_be_hierarchical]; [previous] is
    [(previous_chapter, previous_section)], [None] before the first label. *)
Fixpoint check_hierarchical (labels : list (nat * nat))
    (previous : option (nat * nat)) (g : rule_group) : rule_group :=
  match labels with
  | [] => g
  | (current_chapter, current_section) :: rest =>
    match previous with
    | None =>
      check_hierarchical rest (Some (current_chapter, current_section)) g
    | Some (previous_chapter, previous_section) =>
      if (current_chapter =? previous_chapter)%nat then
        check_hierarchical rest (Some (previous_chapter, current_section))
          (if (current_section =? previous_section + 1)%nat then g
           else flag g (SubsectionGap previous_chapter previous_section
                                      current_chapter current_section))
      else if (previous_chapter <? current_chapter)%nat then
        check_hierarchical rest (Some (current_chapter, current_section))
          (if (current_section =? 1)%nat then g
           else flag g (FirstNotOne current_chapter current_section))
      else
        check_hierarchical rest previous
          (flag g (Regression previous_chapter previous_section
                              current_chapter current_section))
    end
  end.

(** The numbering rules of [validate_proposal]: [results["numbering"]]. *)
Definition validate_numbering (proposal_text : text) : rule_group :=
  let g := mkGroup true [] in
  let g := check_sequential (chapter_numbers proposal_text) g in
  check_hierarchical (subsection_labels proposal_text) None g.

(** The loop of [fix_issues] over [section_matches]. *)
Fixpoint renumber (section_matches : list text) (i : nat)
    (corrected_text : text) : text :=
  match section_matches with
  | [] => corrected_text
  | mtch :: rest =>
    let new_number := txt "## " ++ str_of_nat (i + 1) ++ txt ". " in
    renumber rest (i + 1) (replace mtch new_number corrected_text)
  end.

(** [fix_issues]; [numbering] is [validation_results["numbering"]]. *)
Definition fix_issues (proposal_text : text) (numbering : rule_group) : text :=
  let corrected_text := sub foreign_re [] proposal_text in
  let corrected_text := sub think_re [] corrected_text in
  if negb (valid numbering)
  then renumber (findall0 heading_number_re corrected_text) 0 corrected_text
  else corrected_text.

End Validator.

(* ================================================================== *)
(** ** Proposal validator, all rules (tools/proposal_validator.py) *)

Module Validation.
Import Validator.

(** A rule of [validation_rules["structure"]]. *)
Record structure_rule : Type := mkStructure {
  s_name : text;
  s_pattern : re;
  required : bool
}.

(** A rule of [validation_rules["content"]]; a key the rule lacks is
    [None]. *)
Record content_rule : Type := mkContent {
  c_name : text;
  c_pattern : re;
  allowed : option bool;
  max_occurrences : option nat;
  min_occurrences : option nat
}.

(** [##\s+\d+\.\s+] followed by a title *)
Definition numbered (title : re) : re :=
  cat [lit (txt "##"); plus isspace; plus isdigit; Chr (eqc 46); plus isspace;
       title].

(** A literal and an alternative of two under re.IGNORECASE. *)
Definition word (s : string) : re := Metadata.ilit (txt s).
Definition either (a b : string) : re := Grp 1 (Alt (word a) (word b)).

(** The structure patterns are searched under re.MULTILINE and
    re.IGNORECASE; the title is [^#\s+PROPUESTA TÉCNICA], the methodology
    [##\s+\d+\.\s+METODOLOG[IÍ]A]. *)
Definition structure_rules : list structure_rule :=
  [ mkStructure (txt "title")
      (cat [Bol; Chr (eqc 35); plus isspace; word "PROPUESTA TÉCNICA"]) true;
    mkStructure (txt "intro") (numbered (word "INTRODUCCIÓN")) true;
    mkStructure (txt "objectives") (numbered (word "OBJETIVOS")) true;
    mkStructure (txt "scope")
      (numbered (either "ALCANCE" "ALCANCE DEL SERVICIO")) true;
    mkStructure (txt "methodology")
      (numbered (cat [word "METODOLOG";
                      Chr (fun c => Metadata.ieq 73 c || Metadata.ieq 205 c);
                      word "A"])) true;
    mkStructure (txt "plan")
      (numbered (either "PLAN DE TRABAJO" "CRONOGRAMA")) true;
    mkStructure (txt "deliverables") (numbered (word "ENTREGABLES")) true;
    mkStructure (txt "resources") (numbered (either "RECURSOS" "PERSONAL")) true;
    mkStructure (txt "risks")
      (numbered (either "RIESGOS" "GESTIÓN DE RIESGOS")) true;
    mkStructure (txt "quality")
      (numbered (either "CALIDAD" "PLAN DE CALIDAD")) true;
    mkStructure (txt "standards")
      (numbered (either "NORMATIVAS" "ESTÁNDARES")) true;
    mkStructure (txt "experience")
      (numbered (either "EXPERIENCIA" "PROYECTOS SIMILARES")) true;
    mkStructure (txt "annexes")
      (numbered (either "ANEXOS" "ANEXOS TÉCNICOS")) false ].

(** [##\s+\d+\.\s+[^\n]+\n\s*\n\s*##] *)
Definition empty_section_re : re :=
  cat [lit (txt "##"); plus isspace; plus isdigit; Chr (eqc 46); plus isspace;
       plus (neqc NL); Chr (eqc NL); star isspace; Chr (eqc NL); star isspace;
       lit (txt "##")].

(** [\|[-\s|]+\|] *)
Definition table_re : re :=
  cat [Chr (eqc 124);
       plus (fun c => (c =? 45) || isspace c || (c =? 124));
       Chr (eqc 124)].

(** The content patterns are searched under re.MULTILINE and re.DOTALL. *)
Definition content_rules : list content_rule :=
  [ mkContent (txt "foreign_chars") foreign_re (Some false) None None;
    mkContent (txt "think_tags") think_re (Some false) None None;
    mkContent (txt "empty_sections") empty_section_re (Some false) None None;
    mkContent (txt "code_blocks") (lit (txt "```")) None (Some 5%nat) None;
    mkContent (txt "tables") table_re None None (Some 0%nat) ].

(** [results["structure"]] and [results["content"]] *)
Record text_group : Type := mkTextGroup {
  t_valid : bool;
  t_issues : list text
}.

(** The state of a loop over rules: the group and [results["suggestions"]]. *)
Definition progress : Type := text_group * list text.

Definition report (issue suggestion : text) (acc : progress) : progress :=
  (mkTextGroup (t_valid (fst acc)) (t_issues (fst acc) ++ [issue]),
   snd acc ++ [suggestion]).

Definition invalidate (acc : progress) : progress :=
  (mkTextGroup false (t_issues (fst acc)), snd acc).

(** The body of the loop over the structure rules. *)
Definition check_structure (proposal_text : text) (acc : progress)
    (rule : structure_rule) : progress :=
  match search (s_pattern rule) proposal_text with
  | None =>
    if required rule then
      report (txt "Falta la sección obligatoria: " ++ s_name rule)
             (txt "Añadir la sección: " ++ s_name rule)
             (invalidate acc)
    else acc
  | Some _ => acc
  end.

(** The body of the loop over the content rules. *)
Definition check_content (proposal_text : text) (acc : progress)
    (rule : content_rule) : progress :=
  let matches := findall0 (c_pattern rule) proposal_text in
  let acc :=
    match allowed rule, matches with
    | Some false, _ :: _ =>
      let acc := invalidate acc in
      let acc :=
        (mkTextGroup (t_valid (fst acc))
           (t_issues (fst acc)
            ++ [txt "Contenido no permitido encontrado: " ++ c_name rule]),
         snd acc) in
      if text_eqb (c_name rule) (txt "foreign_chars") then
        (fst acc,
         snd acc ++ [txt "Eliminar caracteres en idiomas diferentes al español"])
      else if text_eqb (c_name rule) (txt "think_tags") then
        (fst acc, snd acc ++ [txt "Eliminar etiquetas <think> y su contenido"])
      else if text_eqb (c_name rule) (txt "empty_sections") then
        (fst acc,
         snd acc
         ++ [txt "Completar las secciones vacías con contenido relevante"])
      else acc
    | _, _ => acc
    end in
  let acc :=
    match max_occurrences rule with
    | Some n =>
      if (n <? length matches)%nat then
        report (txt "Demasiadas ocurrencias de " ++ c_name rule ++ txt ": "
                ++ str_of_nat (length matches) ++ txt " > " ++ str_of_nat n)
               (txt "Reducir el número de " ++ c_name rule) acc
      else acc
    | None => acc
    end in
  match min_occurrences rule with
  | Some n =>
    if (length matches <? n)%nat then
      report (txt "Muy pocas ocurrencias de " ++ c_name rule ++ txt ": "
              ++ str_of_nat (length matches) ++ txt " < " ++ str_of_nat n)
             (txt "Aumentar el número de " ++ c_name rule) acc
    else acc
  | None => acc
  end.

(** What [validate_proposal] returns. *)
Record results : Type := mkResults {
  is_valid : bool;
  structure : text_group;
  content : text_group;
  numbering : rule_group;
  suggestions : list text
}.

(** [validate_proposal] *)
Definition validate_proposal (proposal_text : text) : results :=
  let acc :=
    fold_left (check_structure proposal_text) structure_rules
              (mkTextGroup true [], []) in
  let structure := fst acc in
  let acc :=
    fold_left (check_content proposal_text) content_rules
              (mkTextGroup true [], snd acc) in
  let content := fst acc in
  let numbers := chapter_numbers proposal_text in
  let suggestions :=
    if list_eqb numbers (seq 1 (length numbers)) then snd acc
    else snd acc
         ++ [txt "Corregir la numeración de secciones para que sea secuencial"] in
  let numbering := validate_numbering proposal_text in
  mkResults (t_valid structure && t_valid content && valid numbering)
            structure content numbering suggestions.



End Validation.

(* ================================================================== *)
(** ** Section orchestrator (nodes/section_node.py,
       tools/generation_tools.py generate_section) *)

Module Orchestrator.

(** The control token [state["next_step"]]. *)
Inductive step : Type :=
| generate_sections
| combine_proposal
| evaluate_proposal
| end_.

(** The entries of the state dict the node reads and writes; an entry that
    may be absent is an [option], read with [state.get(key, default)]. *)
Record State : Type := mkState {
  index : option (dict text);
  tdr_info : option text;
  current_section_index : option nat;
  generated_content : option (dict text);
  sections : option (list text);
  messages : list text;
  next_step : step
}.

Definition get (A : Type) (o : option A) (default : A) : A :=
  match o with Some x => x | None => default end.

Definition say (msg : text) (st : State) : State :=
  mkState (index st) (tdr_info st) (current_section_index st)
          (generated_content st) (sections st) (messages st ++ [msg])
          (next_step st).

Definition set_next_step (s : step) (st : State) : State :=
  mkState (index st) (tdr_info st) (current_section_index st)
          (generated_content st) (sections st) (messages st) s.

Definition set_generated_content (g : dict text) (st : State) : State :=
  mkState (index st) (tdr_info st) (current_section_index st)
          (Some g) (sections st) (messages st) (next_step st).

Definition set_sections (l : list text) (st : State) : State :=
  mkState (index st) (tdr_info st) (current_section_index st)
          (generated_content st) (Some l) (messages st) (next_step st).

Definition set_current_section_index (i : nat) (st : State) : State :=
  mkState (index st) (tdr_info st) (Some i)
          (generated_content st) (sections st) (messages st) (next_step st).

(** The parameters handed to [generate_section]. *)
Record Params : Type := mkParams {
  p_section_name : text;
  p_description : text;
  p_info : text;
  p_previous_content : text;
  p_project_metadata : dict json;
  p_section_number : nat;
  p_total_sections : nat
}.

(** [^##\s+.*?\n] and [^###\s+(.*?)$] under re.MULTILINE *)
Definition own_heading_re : re :=
  cat [Bol; lit (txt "##"); plus isspace; lazy_star dot; Chr (eqc NL)].

Definition subheading_re : re :=
  cat [Bol; lit (txt "###"); plus isspace; Grp 1 (lazy_star dot); Eol].

(** improve_section_content.  No step of its body raises, so the handler
    that would return the content unchanged has no part here. *)
Definition improve_section_content (content section_name : text)
    (section_number : nat) : text :=
  let content := sub think_re [] content in
  let content := sub foreign_re [] content in
  let formatted_title :=
    txt "## " ++ str_of_nat section_number ++ txt ". " ++ upper section_name in
  let content_without_header := sub own_heading_re [] content in
  let content_with_normalized_subsections :=
    sub_with subheading_re
      (fun h => txt "### " ++ str_of_nat section_number ++ [46] ++ grp h 1%nat)
      content_without_header in
  let content_clean :=
    sub blank_re [NL; NL] content_with_normalized_subsections in
  formatted_title ++ [NL; NL] ++ strip content_clean.

(** [r'^##\s+\d+\.\s+' + re.escape(section_name.upper())] under
    re.IGNORECASE *)
Definition header_pattern (section_name : text) : re :=
  cat [Bos; lit (txt "##"); plus isspace; plus isdigit; Chr (eqc 46);
       plus isspace; Metadata.ilit (upper section_name)].

(** The section put in place of one that could not be generated. *)
Definition minimal_section (current_index : nat) (section_name : text) : text :=
  txt "## " ++ str_of_nat (current_index + 1) ++ txt ". " ++ upper section_name
  ++ [NL; NL]
  ++ txt "[Esta sección no pudo generarse correctamente. Por favor, revise los logs para más detalles.]".

(** The loop that gathers the sections generated so far, up to 3000
    characters. *)
Definition previously_generated (generated : dict text) : text :=
  fold_left
    (fun acc e =>
       if (length acc <? 3000)%nat
       then acc ++ txt "## " ++ fst e ++ [NL; NL] ++ snd e ++ [NL; NL]
       else acc)
    generated [].

Section WithBackend.

Variable json_loads : text -> loaded.

(** What the body of [generate_section]'s [try] comes to for given
    parameters: the prompt it builds (lines 36-105) only feeds the backend,
    whose answer is returned, unless a step of the body raises. *)
Variable backend : Params -> outcome text.

(** generation_tools.generate_section *)
Definition generate_section (params : Params) : text :=
  let section_name := p_section_name params in
  match backend params with
  | Returned response =>
    txt "## " ++ section_name ++ [NL; NL] ++ clean_section_content response
  | Raised e =>
    let error_message :=
      txt "Error al generar sección " ++ section_name ++ txt ": " ++ e in
    txt "Error en sección " ++ section_name ++ txt ": " ++ error_message
  end.

(** generate_sections_node *)
Definition generate_sections_node (state : State) : State :=
  let current_index := get (current_section_index state) 0%nat in
  match index state, tdr_info state with
  | Some ((_ :: _) as index), Some ((_ :: _) as tdr_info) =>
    let state :=
      match generated_content state with
      | None => set_generated_content [] state
      | Some _ => state
      end in
    let section_names := keys index in
    if (length section_names <=? current_index)%nat then
      set_next_step combine_proposal
        (say (txt "Todas las secciones han sido generadas exitosamente") state)
    else
      let section_name := nth current_index section_names [] in
      let section_description := get (dict_get index section_name) [] in
      let params :=
        mkParams section_name section_description tdr_info
          (previously_generated (get (generated_content state) []))
          (Metadata.extract_project_metadata json_loads tdr_info)
          (current_index + 1) (length section_names) in
      let section_content := generate_section params in
      let state :=
        if startswith (txt "Error:") section_content then
          let state := say section_content state in
          set_sections
            (get (sections state) []
             ++ [minimal_section current_index section_name]) state
        else
          let improved_section :=
            improve_section_content section_content section_name
              (current_index + 1) in
          let state :=
            set_sections (get (sections state) [] ++ [improved_section]) state in
          let content_without_header :=
            sub (header_pattern section_name) [] improved_section in
          set_generated_content
            (dict_set (get (generated_content state) []) section_name
                      (strip content_without_header)) state in
      let state :=
        say (txt "Sección " ++ str_of_nat (current_index + 1) ++ [47]
             ++ str_of_nat (length section_names) ++ txt " (" ++ section_name
             ++ txt ") generada") state in
      let state := set_current_section_index (current_index + 1) state in
      set_next_step generate_sections state
  | _, _ =>
    set_next_step end_
      (say (txt "Error: Faltan datos necesarios para generar secciones") state)
  end.

End WithBackend.

End Orchestrator.

(* ================================================================== *)
(** * Properties *)

(* ------------------------------------------------------------------ *)
(** ** The orchestrator step *)

Module OrchestratorFacts.
Import Orchestrator.




Section Step.

Variable json_loads : text -> loaded.
Variable backend : Params -> outcome text.



End Step.

(** A run at its start, with the entries of the state still absent, and a
    backend that answers with the description it was given. *)
Definition fresh_run : State :=
  mkState (Some [(txt "objetivos", txt "Metas del servicio")])
          (Some (txt "TDR")) None None None [] generate_sections.

Definition echo : Params -> outcome text :=
  fun params => Returned (p_description params).


End OrchestratorFacts.

Module OrchestratorBug.
Import Orchestrator.

Section Signal.

Variable backend : Params -> outcome text.

(** Whatever the backend does, [generate_section] never answers with the
    prefix the node tests for: a returned answer starts with the heading, a
    failure with "Error en". *)
Lemma generate_section_never_signals (params : Params) :
  startswith (txt "Error:") (generate_section backend params) = false.
Proof.
  unfold generate_section. destruct (backend params); reflexivity.
Qed.

Variable json_loads : text -> loaded.

(** X26: the branch that stores the placeholder is never taken: whenever the
    node generates, what it appends is the improved text of
    [generate_section]'s answer, the error report of a failure included. *)
Lemma node_appends_the_improved_answer (st : State) :
  let st' := generate_sections_node json_loads backend st in
  next_step st' = generate_sections ->
  exists params,
    sections st'
    = Some (get (sections st) []
            ++ [improve_section_content (generate_section backend params)
                  (p_section_name params) (p_section_number params)]).
Proof.
  unfold generate_sections_node.
  destruct (index st) as [[|e idx]|]; try discriminate.
  destruct (tdr_info st) as [[|c info]|]; try discriminate.
  destruct (length (keys (e :: idx)) <=? get (current_section_index st) 0)%nat;
    [destruct (generated_content st); discriminate|].
  intros _.
  destruct (generated_content st); eexists (mkParams _ _ _ _ _ _ _);
    rewrite generate_section_never_signals; reflexivity.
Qed.

End Signal.

(** A backend that fails on every section. *)
Definition failing : Params -> outcome text := fun _ => Raised (txt "boom").

Definition one_section : State :=
  mkState (Some [(txt "introduccion", txt "Contexto")]) (Some (txt "TDR"))
          (Some 0%nat) None (Some []) [] generate_sections.

(** C3 (fails on the code): with a backend that fails on every section, the
    step stores the error text of [generate_section] under the section's
    heading, and not the placeholder section. *)
Theorem failing_backend_section_is_no_placeholder :
  let st' := generate_sections_node Json.loads failing one_section in
  sections st'
  = Some [txt "## 1. INTRODUCCION" ++ [NL; NL]
          ++ txt "Error en sección introduccion: Error al generar sección introduccion: boom"]
  /\ sections st' <> Some [minimal_section 0 (txt "introduccion")].
Proof.
  split.
  - vm_compute. reflexivity.
  - vm_compute. intro H. discriminate H.
Qed.

End OrchestratorBug.

(* ------------------------------------------------------------------ *)
(** ** Renumbering and outline repair on given inputs *)

Module ValidatorBug.
Import Validator.

(** Two chapters that both carry the number 1. *)
Definition twice_one : text :=
  txt "## 1. INTRODUCCION
Texto.
## 1. OBJETIVOS
Texto.
".

(** The example of the specification: chapters numbered 1, 2, 4. *)
Definition skips_three : text :=
  txt "## 1. A
a
## 2. B
b
## 4. C
c
".

Lemma skips_three_is_repaired :
  validate_numbering skips_three
  = mkGroup false [NotSequential [1; 2; 4]%nat [1; 2; 3]%nat]
  /\ chapter_numbers (fix_issues skips_three (validate_numbering skips_three))
     = [1; 2; 3]%nat.
Proof. split; vm_compute; reflexivity. Qed.

(** C4 (fails on the code): the validator reports the numbering 1, 1 as
    invalid, and [fix_issues] then leaves the chapters numbered 2, 2: each
    [replace] rewrites every heading that carries the matched number, the
    ones already renumbered among them. *)
Theorem fix_issues_renumbers_both_to_two :
  validate_numbering twice_one
  = mkGroup false [NotSequential [1; 1]%nat [1; 2]%nat]
  /\ fix_issues twice_one (validate_numbering twice_one)
     = txt "## 2. INTRODUCCION
Texto.
## 2. OBJETIVOS
Texto.
"
  /\ chapter_numbers (fix_issues twice_one (validate_numbering twice_one))
     = [2; 2]%nat.
Proof. repeat split; vm_compute; reflexivity. Qed.

End ValidatorBug.

Module OutlineBug.
Import Outline.

Definition quoted (s : string) : text := [QUOTE] ++ txt s ++ [QUOTE].

(** An answer with text around the outline and a trailing comma. *)
Definition trailing_comma : text :=
  txt "Claro: {" ++ quoted "OBJETIVOS" ++ txt ": " ++ quoted "x" ++ txt ",} fin".

Definition repaired : text :=
  txt "{" ++ quoted "OBJETIVOS" ++ txt ": " ++ quoted "x" ++ txt "}".

Lemma default_index_covers_all :
  missing_sections (keys default_index) = [].
Proof. vm_compute. reflexivity. Qed.

(** C7 (fails on the code): an answer that parses only after the trailing
    comma is removed is returned as repaired, without the check for the
    required sections: the outline holds OBJETIVOS alone. *)
Theorem repaired_outline_lacks_required_sections :
  generate_index Json.loads Json.dumps (Returned trailing_comma) = repaired
  /\ Json.loads repaired = Parsed (JObj [(txt "OBJETIVOS", JStr (txt "x"))])
  /\ length (missing_sections [txt "OBJETIVOS"]) = 11%nat.
Proof. repeat split; vm_compute; reflexivity. Qed.

End OutlineBug.

(* ------------------------------------------------------------------ *)
(** ** The subsection rule of the validator *)

Module ValidatorFacts.
Import Validator.

















End ValidatorFacts.

(* ------------------------------------------------------------------ *)
(** ** Cardinality of the retrieval *)

Module RetrievalFacts.
Import Retrieval.

Section Cardinality.

Variable Score : Type.

Lemma select_kept (variants : list text) (results : list (Doc * Score)) :
  select variants results
  = match filter (mentions variants) results with
    | [] => results
    | _ :: _ => filter (mentions variants) results
    end.
Proof.
  unfold select. destruct (filter _ results) eqn:E; [|reflexivity].
  now destruct results.
Qed.

Lemma select_nonempty (variants : list text) (results : list (Doc * Score)) :
  results <> [] -> select variants results <> [].
Proof.
  intros H. rewrite select_kept.
  destruct (filter _ results) eqn:E; [exact H|discriminate].
Qed.

Lemma select_incl (variants : list text) (results : list (Doc * Score)) :
  incl (select variants results) results.
Proof.
  rewrite select_kept. destruct (filter _ results) eqn:E.
  - apply incl_refl.
  - rewrite <- E. intros x Hx. now apply filter_In in Hx.
Qed.


End Cardinality.

(** An index of two passages, one of which mentions the section. *)
Definition two_passages : Index nat :=
  fun _ n =>
    Returned (firstn n
      [ (mkDoc (txt "Plan de pruebas") (Some (txt "P1")) (Some (txt "a/p1.txt")), 3%nat);
        (mkDoc (txt "2. Objetivos del servicio") (Some (txt "P2")) None, 5%nat) ]).

Lemma search_similar_content_example :
  map (@section_content nat)
      (search_similar_content (Some two_passages) (txt "TDR") (txt "objetivos") 1)
  = [txt "2. Objetivos del servicio"].
Proof. vm_compute. reflexivity. Qed.


End RetrievalFacts.

(* ------------------------------------------------------------------ *)
(** ** Project metadata *)

Module MetadataFacts.
Import Metadata.

Definition k_titulo : text := txt "titulo_proyecto".
Definition k_cliente : text := txt "cliente".
Definition k_fecha : text := txt "fecha".

Definition or_default (o : option json) (placeholder : text) : json :=
  match o with Some v => v | None => JStr placeholder end.

(** What can be extracted from free text: the stripped first group of the
    first match. *)
Definition found_in (r : re) (s : text) : option json :=
  match search r s with
  | Some h => Some (JStr (strip (grp h 1%nat)))
  | None => None
  end.

(** What can be extracted from an object: the first date field that is
    present, true and not "No especificado", and an entry that is not "No
    especificado". *)
Fixpoint first_date (l : dict json) (fields : list text) : option json :=
  match fields with
  | [] => None
  | field :: rest =>
    match dict_get l field with
    | Some v => if truthy v && differs v (txt "No especificado")
                then Some v else first_date l rest
    | None => first_date l rest
    end
  end.

Definition specified (l : dict json) (k : text) : option json :=
  match dict_get l k with
  | Some v => if differs v (txt "No especificado") then Some v else None
  | None => None
  end.

Definition is_object (j : json) : bool :=
  match j with JObj _ => true | _ => false end.

(** A computation that leaves the dict as it found it. *)
Definition inert (A : Type) (c : M A) : Prop := forall md, snd (c md) = md.

Lemma inert_ret (A : Type) (x : A) : inert (ret x).
Proof. intros md. reflexivity. Qed.

Lemma inert_lift (A : Type) (o : option A) : inert (lift o).
Proof. intros md. reflexivity. Qed.

Lemma inert_bind (A B : Type) (c : M A) (f : A -> M B) :
  inert c -> (forall x, inert (f x)) -> inert (bind c f).
Proof.
  intros Hc Hf md. unfold bind. specialize (Hc md).
  destruct (c md) as [[x|] md']; simpl in *; subst md'; [apply Hf|reflexivity].
Qed.

Lemma getitem_not_object (d : json) (k : text) :
  is_object d = false -> py_getitem d k = None.
Proof. destruct d; simpl; congruence. Qed.

Lemma copy_field_inert (d : json) (k : text) :
  is_object d = false -> inert (copy_field d k).
Proof.
  intros Hd. unfold copy_field. apply inert_bind; [apply inert_lift|].
  intros [|]; simpl; [|apply inert_ret].
  rewrite (getitem_not_object _ _ Hd). intros md. reflexivity.
Qed.

Lemma copy_specified_inert (d : json) (k : text) :
  is_object d = false -> inert (copy_specified d k).
Proof.
  intros Hd. unfold copy_specified. apply inert_bind; [apply inert_lift|].
  intros [|]; simpl; [|apply inert_ret].
  rewrite (getitem_not_object _ _ Hd). intros md. reflexivity.
Qed.

Lemma copy_date_inert (d : json) (fields : list text) :
  is_object d = false -> inert (copy_date d fields).
Proof.
  intros Hd. induction fields as [|field rest IH]; simpl; [apply inert_ret|].
  apply inert_bind; [apply inert_lift|].
  intros [|]; [|exact IH].
  rewrite (getitem_not_object _ _ Hd). intros md. reflexivity.
Qed.

Lemma in_object (l : dict json) (k : text) :
  existsb (fun e => text_eqb (fst e) k) l
  = match dict_get l k with Some _ => true | None => false end.
Proof.
  induction l as [|[k' v] l IH]; simpl; [reflexivity|].
  destruct (text_eqb k' k); simpl; auto.
Qed.

Lemma copy_field_object (l : dict json) (k : text) (md : dict json) :
  copy_field (JObj l) k md
  = (Some tt, match dict_get l k with Some v => dict_set md k v | None => md end).
Proof.
  unfold copy_field, bind, lift, when; simpl. rewrite in_object.
  destruct (dict_get l k); reflexivity.
Qed.

Lemma copy_specified_object (l : dict json) (k : text) (md : dict json) :
  copy_specified (JObj l) k md
  = (Some tt, match specified l k with Some v => dict_set md k v | None => md end).
Proof.
  unfold copy_specified, specified, bind, lift, when; simpl. rewrite in_object.
  destruct (dict_get l k) as [v|]; [|reflexivity].
  destruct (differs v _); reflexivity.
Qed.

Lemma copy_date_object (l : dict json) (fields : list text) (md : dict json) :
  copy_date (JObj l) fields md
  = (Some tt, match first_date l fields with
              | Some v => dict_set md k_fecha v
              | None => md
              end).
Proof.
  induction fields as [|field rest IH]; simpl; [reflexivity|].
  unfold bind, lift; simpl. rewrite in_object.
  destruct (dict_get l field) as [v|]; [|exact IH].
  destruct (truthy v && differs v _); [reflexivity|exact IH].
Qed.

Lemma assign_match_found (r : re) (s k : text) (md : dict json) :
  assign_match r s k md
  = (Some tt, match found_in r s with Some v => dict_set md k v | None => md end).
Proof. unfold assign_match, found_in. destruct (search r s); reflexivity. Qed.

(** The dict with the three keys. *)
Definition record (titulo cliente fecha : json) : dict json :=
  [(k_titulo, titulo); (k_cliente, cliente); (k_fecha, fecha)].

Lemma set_titulo (a b c : json) (o : option json) :
  match o with Some v => dict_set (record a b c) k_titulo v | None => record a b c end
  = record (match o with Some v => v | None => a end) b c.
Proof. destruct o; reflexivity. Qed.

Lemma set_cliente (a b c : json) (o : option json) :
  match o with Some v => dict_set (record a b c) k_cliente v | None => record a b c end
  = record a (match o with Some v => v | None => b end) c.
Proof. destruct o; reflexivity. Qed.

Lemma set_fecha (a b c : json) (o : option json) :
  match o with Some v => dict_set (record a b c) k_fecha v | None => record a b c end
  = record a b (match o with Some v => v | None => c end).
Proof. destruct o; reflexivity. Qed.

Section WithJson.

Variable json_loads : text -> loaded.

(** section_node.extract_project_metadata, field by field. *)
Lemma extract_project_metadata_fields (tdr_info : text) :
  extract_project_metadata json_loads tdr_info
  = match json_loads tdr_info with
    | Parsed (JObj l) =>
      record (or_default (dict_get l k_titulo) (txt "Proyecto No Especificado"))
             (or_default (dict_get l k_cliente) (txt "Cliente No Especificado"))
             (or_default (first_date l date_fields) (txt "No Especificada"))
    | DecodeError =>
      record (or_default (found_in title_re tdr_info) (txt "Proyecto No Especificado"))
             (or_default (found_in client_re tdr_info) (txt "Cliente No Especificado"))
             (or_default (found_in date_re tdr_info) (txt "No Especificada"))
    | _ => defaults (txt "No Especificada")
    end.
Proof.
  unfold extract_project_metadata, run_try, load.
  destruct (json_loads tdr_info) as [d| |]; [| |reflexivity].
  - destruct (is_object d) eqn:Hd.
    + destruct d as [| | | | |l]; try discriminate Hd.
      unfold bind at 1 2 3. unfold ret at 1.
      rewrite copy_field_object, copy_field_object, copy_date_object.
      change (defaults (txt "No Especificada"))
        with (record (JStr (txt "Proyecto No Especificado"))
                     (JStr (txt "Cliente No Especificado"))
                     (JStr (txt "No Especificada"))).
      fold k_titulo k_cliente.
      rewrite set_titulo, set_cliente. cbv [snd]. rewrite set_fecha. reflexivity.
    + assert (H : inert (copy_field d (txt "titulo_proyecto") ;;;
                         copy_field d (txt "cliente") ;;;
                         copy_date d date_fields)).
      { repeat (apply inert_bind; [|intros _]);
          auto using copy_field_inert, copy_date_inert. }
      unfold bind at 1. unfold ret at 1. rewrite H.
      destruct d; try reflexivity. discriminate Hd.
  - change (defaults (txt "No Especificada"))
      with (record (JStr (txt "Proyecto No Especificado"))
                   (JStr (txt "Cliente No Especificado"))
                   (JStr (txt "No Especificada"))).
    unfold bind, ret. cbv beta iota.
    rewrite assign_match_found. fold k_titulo. rewrite set_titulo.
    rewrite assign_match_found. fold k_cliente. rewrite set_cliente.
    rewrite assign_match_found. fold k_fecha. cbv [snd]. rewrite set_fecha.
    reflexivity.
Qed.

(** combine_node.extract_project_metadata, field by field. *)
Lemma extract_project_metadata_of_state_fields
    (today tdr_info : text) (sections : list text) :
  extract_project_metadata_of_state json_loads today tdr_info sections
  = match json_loads tdr_info with
    | Parsed (JObj l) =>
      record (or_default (specified l k_titulo) (txt "Proyecto No Especificado"))
             (or_default (specified l k_cliente) (txt "Cliente No Especificado"))
             (or_default (first_date l date_fields) today)
    | DecodeError =>
      match sections with
      | intro_section :: _ =>
        record (or_default (found_in title_re intro_section)
                           (txt "Proyecto No Especificado"))
               (or_default (found_in client_re intro_section)
                           (txt "Cliente No Especificado"))
               (JStr today)
      | [] => defaults today
      end
    | _ => defaults today
    end.
Proof.
  unfold extract_project_metadata_of_state, run_try, load.
  change (defaults today)
    with (record (JStr (txt "Proyecto No Especificado"))
                 (JStr (txt "Cliente No Especificado")) (JStr today)).
  destruct (json_loads tdr_info) as [d| |]; [| |reflexivity].
  - destruct (is_object d) eqn:Hd.
    + destruct d as [| | | | |l]; try discriminate Hd.
      unfold bind, ret. cbv beta iota.
      rewrite copy_specified_object. fold k_titulo. rewrite set_titulo.
      rewrite copy_specified_object. fold k_cliente. rewrite set_cliente.
      rewrite copy_date_object. cbv [snd]. rewrite set_fecha. reflexivity.
    + assert (H : inert (copy_specified d (txt "titulo_proyecto") ;;;
                         copy_specified d (txt "cliente") ;;;
                         copy_date d date_fields)).
      { repeat (apply inert_bind; [|intros _]);
          auto using copy_specified_inert, copy_date_inert. }
      unfold bind at 1. unfold ret at 1. rewrite H.
      destruct d; try reflexivity. discriminate Hd.
  - destruct sections as [|intro_section rest]; [reflexivity|].
    unfold bind, ret. cbv beta iota.
    rewrite assign_match_found. fold k_titulo. rewrite set_titulo.
    rewrite assign_match_found. fold k_cliente. cbv [snd].
    rewrite set_cliente. reflexivity.
Qed.

(** What the input yields for the title, the client and the date: from the
    entries of a JSON object, from the free text, or nothing. *)
Definition extractable (tdr_info : text)
    : option json * option json * option json :=
  match json_loads tdr_info with
  | Parsed (JObj l) =>
    (dict_get l k_titulo, dict_get l k_cliente, first_date l date_fields)
  | DecodeError =>
    (found_in title_re tdr_info, found_in client_re tdr_info,
     found_in date_re tdr_info)
  | _ => (None, None, None)
  end.

Definition extractable_of_state (tdr_info : text) (sections : list text)
    : option json * option json * option json :=
  match json_loads tdr_info with
  | Parsed (JObj l) =>
    (specified l k_titulo, specified l k_cliente, first_date l date_fields)
  | DecodeError =>
    match sections with
    | intro_section :: _ =>
      (found_in title_re intro_section, found_in client_re intro_section, None)
    | [] => (None, None, None)
    end
  | _ => (None, None, None)
  end.

(** C10 (amended): both variants are total and answer with a dict of
    exactly the keys titulo_proyecto, cliente and fecha, in which a field
    that the input does not yield keeps its default: the placeholders
    "Proyecto No Especificado" and "Cliente No Especificado" in both, "No
    Especificada" for the date in section_node, and the current date in
    combine_node. *)
Theorem extract_project_metadata_total
    (today tdr_info : text) (sections : list text) :
  let '(t, c, f) := extractable tdr_info in
  let '(t', c', f') := extractable_of_state tdr_info sections in
  extract_project_metadata json_loads tdr_info
  = record (or_default t (txt "Proyecto No Especificado"))
           (or_default c (txt "Cliente No Especificado"))
           (or_default f (txt "No Especificada"))
  /\ extract_project_metadata_of_state json_loads today tdr_info sections
     = record (or_default t' (txt "Proyecto No Especificado"))
              (or_default c' (txt "Cliente No Especificado"))
              (or_default f' today)
  /\ keys (extract_project_metadata json_loads tdr_info)
     = [k_titulo; k_cliente; k_fecha]
  /\ keys (extract_project_metadata_of_state json_loads today tdr_info sections)
     = [k_titulo; k_cliente; k_fecha].
Proof.
  rewrite extract_project_metadata_fields,
          extract_project_metadata_of_state_fields.
  unfold extractable, extractable_of_state.
  destruct (json_loads tdr_info) as [[| | | | |l]| |];
    try destruct sections; repeat split; reflexivity.
Qed.

End WithJson.

(** Free text that names no date, in a run with no section yet. *)
Definition no_date : text := txt "Oferta para el mantenimiento de la red".

Definition a_day : text := txt "04 de November, 2026".

(** C10 (as stated, fails): in combine_node the date that cannot be
    extracted does not keep the placeholder "No Especificada": the default
    is the current date. *)
Lemma combine_node_date_defaults_to_today :
  dict_get (extract_project_metadata_of_state Json.loads a_day no_date [])
           k_fecha
  = Some (JStr a_day)
  /\ JStr a_day <> JStr (txt "No Especificada").
Proof. split; [vm_compute; reflexivity | vm_compute; discriminate]. Qed.

Lemma extract_project_metadata_example :
  extract_project_metadata Json.loads
    (txt "Nombre del proyecto: Red de datos
Cliente: ACME")
  = record (JStr (txt "Red de datos")) (JStr (txt "ACME"))
           (JStr (txt "No Especificada")).
Proof. vm_compute. reflexivity. Qed.

End MetadataFacts.

(* ------------------------------------------------------------------ *)
(** ** The matcher *)

Module ReFacts.

(** The words a pattern can consume, anchors and look-ahead consuming
    nothing. *)
Fixpoint lang (r : re) (w : text) : Prop :=
  match r with
  | Eps | Bol | Eol | Bos | Eos | Ahead _ => w = []
  | Chr p => exists c, w = [c] /\ p c = true
  | Rep _ lo p => forallb p w = true /\ (lo <= length w)%nat
  | Cat x y => exists u v, w = u ++ v /\ lang x u /\ lang y v
  | Alt x y => lang x w \/ lang y w
  | Grp _ x => lang x w
  end.

Lemma rev_cons_app (c : cp) (w b : text) : rev (c :: w) ++ b = rev w ++ c :: b.
Proof. simpl. now rewrite <- app_assoc. Qed.

Lemma or_else_some (A : Type) (x y : option A) (f : A) :
  or_else x y = Some f -> x = Some f \/ (x = None /\ y = Some f).
Proof. destruct x; simpl; auto. Qed.

Section Repetition.

Variable p : cp -> bool.

Lemma rep_greedy_sound (a : text) :
  forall lo b k f,
    rep_greedy p lo b a k = Some f ->
    exists w a', a = w ++ a' /\ forallb p w = true /\ (lo <= length w)%nat
                 /\ k (rev w ++ b) a' = Some f.
Proof.
  induction a as [|c a' IH]; intros lo b k f H; simpl in H.
  - destruct lo; [|discriminate]. exists [], []. auto.
  - assert (Hstop : match lo with O => k b (c :: a') | S _ => None end = Some f ->
                    exists w a'', c :: a' = w ++ a'' /\ forallb p w = true
                                  /\ (lo <= length w)%nat /\ k (rev w ++ b) a'' = Some f).
    { destruct lo; [|discriminate]. intros Hk. exists [], (c :: a'). auto. }
    destruct (p c) eqn:Hc; [|auto].
    apply or_else_some in H. destruct H as [H|[_ H]]; [|auto].
    apply IH in H. destruct H as (w & a'' & -> & Hw & Hlo & Hk).
    exists (c :: w), a''. rewrite rev_cons_app. simpl. rewrite Hc, Hw.
    repeat split; auto. lia.
Qed.

Lemma rep_lazy_sound (a : text) :
  forall lo b k f,
    rep_lazy p lo b a k = Some f ->
    exists w a', a = w ++ a' /\ forallb p w = true /\ (lo <= length w)%nat
                 /\ k (rev w ++ b) a' = Some f.
Proof.
  induction a as [|c a' IH]; intros lo b k f H.
  - destruct lo; simpl in H; [|discriminate].
    apply or_else_some in H. destruct H as [H|[_ H]]; [|discriminate].
    exists [], []. auto.
  - assert (Hgo : forall lo',
               (if p c then rep_lazy p lo' (c :: b) a' k else None) = Some f ->
               exists w a'', c :: a' = w ++ a'' /\ forallb p w = true
                             /\ (S lo' <= length w)%nat
                             /\ k (rev w ++ b) a'' = Some f).
    { intros lo' Hr. destruct (p c) eqn:Hc; [|discriminate].
      apply IH in Hr. destruct Hr as (w & a'' & -> & Hw & Hlo & Hk).
      exists (c :: w), a''. rewrite rev_cons_app. simpl. rewrite Hc, Hw.
      repeat split; auto. lia. }
    destruct lo as [|lo']; simpl in H.
    + apply or_else_some in H. destruct H as [H|[_ H]].
      * exists [], (c :: a'). auto.
      * apply Hgo in H. destruct H as (w & a'' & E & Hw & Hlo & Hk).
        exists w, a''. repeat split; auto. lia.
    + now apply Hgo.
Qed.

End Repetition.

(** Soundness of the matcher: what it consumes is a word of the pattern. *)
Lemma m_sound (r : re) :
  forall b a g k f,
    m r b a g k = Some f ->
    exists w a' g', a = w ++ a' /\ lang r w /\ k (rev w ++ b) a' g' = Some f.
Proof.
  induction r as [|p|greedy lo p|x IHx y IHy|x IHx y IHy|i x IHx| | | | |x IHx];
    intros b a g k f H; simpl in H.
  - exists [], a, g. simpl. auto.
  - destruct a as [|c a']; [discriminate|].
    destruct (p c) eqn:Hc; [|discriminate].
    exists [c], a', g. simpl. eauto.
  - destruct greedy;
      [apply rep_greedy_sound in H | apply rep_lazy_sound in H];
      destruct H as (w & a' & -> & Hw & Hlo & Hk);
      exists w, a', g; simpl; auto.
  - apply IHx in H. destruct H as (u & a1 & g1 & -> & Hu & H).
    apply IHy in H. destruct H as (v & a2 & g2 & -> & Hv & H).
    exists (u ++ v), a2, g2. rewrite rev_app_distr, <- !app_assoc.
    repeat split; auto. simpl. eauto.
  - apply or_else_some in H. destruct H as [H|[_ H]];
      [apply IHx in H | apply IHy in H];
      destruct H as (w & a' & g' & -> & Hw & H);
      exists w, a', g'; simpl; auto.
  - apply IHx in H. destruct H as (w & a' & g' & -> & Hw & H).
    eexists w, a', _. simpl. eauto.
  - exists [], a, g. split; [reflexivity|]. split; [reflexivity|].
    destruct b as [|c b']; [exact H|]. destruct (c =? NL); [exact H|discriminate].
  - exists [], a, g. split; [reflexivity|]. split; [reflexivity|].
    destruct a as [|c a']; [exact H|]. destruct (c =? NL); [exact H|discriminate].
  - exists [], a, g. split; [reflexivity|]. split; [reflexivity|].
    destruct b; [exact H|discriminate].
  - exists [], a, g. split; [reflexivity|]. split; [reflexivity|].
    destruct a as [|c [|c' a']]; [exact H| |discriminate].
    destruct (c =? NL); [exact H|discriminate].
  - destruct (m x b a g k0) as [[[b1 a1] g1]|]; [|discriminate].
    exists [], a, g1. simpl. auto.
Qed.

Lemma match_at_sound (r : re) (advance : bool) (b a : text) (f : found) :
  match_at r advance b a = Some f ->
  exists w a' g', a = w ++ a' /\ lang r w /\ f = (rev w ++ b, a', g')
                  /\ (advance = true -> w <> []).
Proof.
  unfold match_at. intros H. apply m_sound in H.
  destruct H as (w & a' & g' & -> & Hw & H).
  exists w, a', g'. split; [reflexivity|]. split; [exact Hw|].
  destruct advance; cbn [andb] in H.
  - destruct (length (rev w ++ b) =? length b)%nat eqn:E; [discriminate|].
    split; [now inversion H|]. intros _ ->. simpl in E.
    now rewrite Nat.eqb_refl in E.
  - split; [now inversion H|discriminate].
Qed.

Lemma matched_word (w b a' : text) (g' : caps) :
  matched b (rev w ++ b, a', g') = w.
Proof.
  unfold matched. rewrite length_app, length_rev.
  replace (length w + length b - length b)%nat with (length (rev w)) by (rewrite length_rev; lia).
  rewrite firstn_app, Nat.sub_diag, firstn_all. simpl.
  now rewrite app_nil_r, rev_involutive.
Qed.

(** A pattern whose every word holds a character of class [q] matches
    nowhere in a text without one. *)
Definition needs (q : cp -> bool) (r : re) : Prop :=
  forall w, lang r w -> existsb q w = true.

Lemma match_at_needs (q : cp -> bool) (r : re) (advance : bool) (b a : text) :
  needs q r -> existsb q a = false -> match_at r advance b a = None.
Proof.
  intros Hr Ha. destruct (match_at r advance b a) as [f|] eqn:E; [|reflexivity].
  apply match_at_sound in E. destruct E as (w & a' & g' & -> & Hw & _).
  apply Hr in Hw. rewrite existsb_app, Hw in Ha. discriminate.
Qed.

Lemma scan_needs (q : cp -> bool) (r : re) (a : text) :
  needs q r -> existsb q a = false ->
  forall b gp, scan r b a 0 gp = ([], rev gp ++ a).
Proof.
  intros Hr. induction a as [|c a' IH]; intros Ha b gp; simpl.
  - rewrite (@match_at_needs q r false b _ Hr Ha). now rewrite app_nil_r.
  - rewrite (@match_at_needs q r false b _ Hr Ha).
    simpl in Ha. apply orb_false_iff in Ha. destruct Ha as [_ Ha].
    rewrite IH by exact Ha. simpl. now rewrite <- app_assoc.
Qed.

Lemma search_needs (q : cp -> bool) (r : re) (s : text) :
  needs q r -> existsb q s = false -> search r s = None.
Proof.
  intros Hr Hs. unfold search, finditer. now rewrite (@scan_needs q r s Hr Hs).
Qed.

Lemma sub_needs (q : cp -> bool) (r : re) (repl : hit -> text) (s : text) :
  needs q r -> existsb q s = false -> sub_with r repl s = s.
Proof.
  intros Hr Hs. unfold sub_with, finditer. now rewrite (@scan_needs q r s Hr Hs).
Qed.

(** Words of the building blocks. *)
Lemma lang_cat (l : list re) (r : re) (w : text) :
  lang (cat (r :: l)) w -> exists u v, w = u ++ v /\ lang r u /\ lang (cat l) v.
Proof.
  destruct l as [|r' l]; simpl.
  - intros H. exists w, []. now rewrite app_nil_r.
  - auto.
Qed.

Lemma lang_lit (s w : text) : lang (lit s) w -> w = s.
Proof.
  revert w. induction s as [|c s IH]; intros w; simpl; [auto|].
  destruct s as [|c' s].
  - simpl. intros (x & -> & Hx). apply N.eqb_eq in Hx. now subst.
  - intros (u & v & -> & (x & -> & Hx) & Hv). apply N.eqb_eq in Hx. subst x.
    apply IH in Hv. now subst.
Qed.

Lemma needs_chr_cat (q p : cp -> bool) (l : list re) :
  (forall c, p c = true -> q c = true) -> needs q (cat (Chr p :: l)).
Proof.
  intros Hpq w Hw. apply lang_cat in Hw.
  destruct Hw as (u & v & -> & (c & -> & Hc) & _). simpl. now rewrite (Hpq c Hc).
Qed.

Lemma needs_plus_cat (q p : cp -> bool) (greedy : bool) (lo : nat) (l : list re) :
  (forall c, p c = true -> q c = true) -> needs q (cat (Rep greedy (S lo) p :: l)).
Proof.
  intros Hpq w Hw. apply lang_cat in Hw.
  destruct Hw as (u & v & -> & (Hu & Hlo) & _).
  destruct u as [|c u]; [simpl in Hlo; lia|]. simpl in *.
  apply andb_true_iff in Hu. now rewrite (Hpq c (proj1 Hu)).
Qed.

Lemma needs_skip (q : cp -> bool) (r : re) (l : list re) :
  needs q (cat l) -> needs q (cat (r :: l)).
Proof.
  intros Hl w Hw. apply lang_cat in Hw. destruct Hw as (u & v & -> & _ & Hv).
  rewrite existsb_app, (Hl v Hv). apply orb_true_r.
Qed.

Lemma needs_grp (q : cp -> bool) (i : nat) (r : re) (l : list re) :
  needs q r -> needs q (cat (Grp i r :: l)).
Proof.
  intros Hr w Hw. apply lang_cat in Hw. destruct Hw as (u & v & -> & Hu & _).
  rewrite existsb_app, (Hr u Hu). reflexivity.
Qed.

End ReFacts.

(* ------------------------------------------------------------------ *)
(** ** The chunker on blank documents *)

Module ChunkerBlank.
Import ReFacts.

Definition blank (s : text) : Prop := forallb isspace s = true.

Definition ink (c : cp) : bool := negb (isspace c).

Ltac decide_class :=
  repeat match goal with
         | |- context [(?x <=? ?y)] => destruct (N.leb_spec x y); try lia
         | |- context [(?x =? ?y)] => destruct (N.eqb_spec x y); try lia
         end;
  try reflexivity.

Lemma hash_is_ink (c : cp) : eqc 35 c = true -> ink c = true.
Proof. unfold eqc. intros H. apply N.eqb_eq in H. now subst. Qed.

Lemma colon_is_ink (c : cp) : eqc 58 c = true -> ink c = true.
Proof. unfold eqc. intros H. apply N.eqb_eq in H. now subst. Qed.

Lemma digit_is_ink (c : cp) : isdigit c = true -> ink c = true.
Proof.
  unfold isdigit, ink, isspace. intros H. apply andb_true_iff in H.
  destruct H as [H1 H2]. apply N.leb_le in H1, H2. decide_class.
Qed.

Lemma upper_is_ink (c : cp) : isupper_az c = true -> ink c = true.
Proof.
  unfold isupper_az, ink, isspace. intros H. apply andb_true_iff in H.
  destruct H as [H1 H2]. apply N.leb_le in H1, H2. decide_class.
Qed.

Lemma section_patterns_need_ink : Forall (needs ink) section_patterns.
Proof.
  unfold section_patterns. repeat constructor.
  - apply needs_skip. apply needs_plus_cat, hash_is_ink.
  - apply needs_skip. apply needs_grp. apply needs_plus_cat, digit_is_ink.
  - apply needs_skip. apply needs_grp. apply needs_chr_cat, upper_is_ink.
  - apply needs_skip. apply needs_grp. apply needs_skip.
    apply (@needs_chr_cat ink (eqc 58) []), colon_is_ink.
Qed.

Lemma blank_no_ink (s : text) : blank s -> existsb ink s = false.
Proof.
  unfold blank, ink. induction s as [|c s IH]; simpl; [reflexivity|].
  intros H. apply andb_true_iff in H. destruct H as [Hc Hs].
  now rewrite Hc, IH.
Qed.

Lemma by_sections_blank (pats : list re) (s : text) (chunk_size : nat) :
  Forall (needs ink) pats -> blank s ->
  by_sections pats s chunk_size [] = [].
Proof.
  intros Hp Hs. induction Hp as [|p pats Hp _ IH]; simpl; [reflexivity|].
  rewrite (@search_needs ink p (NL :: s) Hp); [exact IH|].
  simpl. now apply blank_no_ink.
Qed.

Lemma lstrip_blank (s : text) : blank s -> lstrip s = [].
Proof.
  unfold blank. induction s as [|c s IH]; simpl; [reflexivity|].
  intros H. apply andb_true_iff in H. destruct H as [-> Hs]. auto.
Qed.

Lemma strip_blank (s : text) : blank s -> strip s = [].
Proof. intros H. unfold strip. now rewrite lstrip_blank. Qed.

Lemma blank_rev (s : text) : blank s -> blank (rev s).
Proof.
  unfold blank. rewrite !forallb_forall. intros H c Hc.
  apply H. now apply in_rev.
Qed.

Lemma split_go_blank (sep s : text) :
  forall skip cur,
    blank s -> blank cur -> Forall blank (split_go sep s skip cur).
Proof.
  induction s as [|c s IH]; intros skip cur Hs Hcur; simpl.
  - repeat constructor. now apply blank_rev.
  - unfold blank in Hs. simpl in Hs. apply andb_true_iff in Hs.
    destruct Hs as [Hc Hs].
    destruct skip as [|n]; [|now apply IH].
    destruct (startswith sep (c :: s)).
    + constructor; [now apply blank_rev|now apply IH].
    + apply IH; [exact Hs|]. unfold blank. simpl. now rewrite Hc.
Qed.

Lemma coalesce_paragraphs_blank (ps : list text) (chunk_size chunk_overlap : nat) :
  Forall blank ps ->
  coalesce_paragraphs ps chunk_size chunk_overlap [] [] = [].
Proof.
  induction 1 as [|p ps Hp _ IH]; simpl; [reflexivity|].
  now rewrite (strip_blank Hp).
Qed.

Lemma blank_firstn (n : nat) (s : text) : blank s -> blank (firstn n s).
Proof.
  unfold blank. revert s. induction n as [|n IH]; intros [|c s]; simpl; auto.
  intros H. apply andb_true_iff in H. destruct H as [-> Hs]. simpl. auto.
Qed.

Lemma blank_skipn (n : nat) (s : text) : blank s -> blank (skipn n s).
Proof.
  unfold blank. revert s. induction n as [|n IH]; intros [|c s]; simpl; auto.
  intros H. apply andb_true_iff in H. destruct H as [_ Hs]. auto.
Qed.

Lemma slices_blank (chunk_size step fuel : nat) :
  forall s, blank s ->
    filter (fun c => nonempty (strip c)) (slices fuel s chunk_size step) = [].
Proof.
  induction fuel as [|f IH]; intros s Hs; simpl; [reflexivity|].
  destruct s as [|c s]; [reflexivity|].
  cbn [filter].
  rewrite (strip_blank (blank_firstn chunk_size Hs)). simpl.
  apply IH. now apply blank_skipn.
Qed.

(** C9: a document that is empty or holds blanks only gives no chunk, and
    the chunker ends without an error, whenever [0 < overlap <
    target_size]. *)
Theorem chunk_document_blank (s : text) (chunk_size chunk_overlap : nat) :
  blank s -> (0 < chunk_overlap < chunk_size)%nat ->
  _chunk_document s chunk_size chunk_overlap = Some [].
Proof.
  intros Hs Hsize. unfold _chunk_document.
  rewrite (by_sections_blank _ section_patterns_need_ink Hs).
  rewrite coalesce_paragraphs_blank
    by (apply split_go_blank; [exact Hs|reflexivity]).
  replace (chunk_size =? chunk_overlap)%nat with false
    by (symmetry; apply Nat.eqb_neq; lia).
  replace (chunk_size <? chunk_overlap)%nat with false
    by (symmetry; apply Nat.ltb_ge; lia).
  now rewrite slices_blank.
Qed.

Lemma chunk_document_blank_witness :
  _chunk_document (txt "  
	 
") 1000 200 = Some [].
Proof.
  apply chunk_document_blank; [reflexivity|lia].
Defined.

End ChunkerBlank.

(* ------------------------------------------------------------------ *)
(** ** The size of the chunks *)

Module ChunkerBound.

Lemma length_lstrip (s : text) : (length (lstrip s) <= length s)%nat.
Proof.
  induction s as [|c s IH]; simpl; [lia|].
  destruct (isspace c); simpl; lia.
Qed.

Lemma length_strip (s : text) : (length (strip s) <= length s)%nat.
Proof.
  unfold strip, rstrip. rewrite length_rev.
  etransitivity; [apply length_lstrip|]. rewrite length_rev. apply length_lstrip.
Qed.

Lemma length_strip_newline (s : text) :
  (length (strip (NL :: s)) <= length s)%nat.
Proof. unfold strip. simpl. apply (length_strip s). Qed.

Lemma kept_in (l : list text) (c : text) :
  In c (filter (fun c => nonempty (strip c)) l) -> In c l.
Proof. intros H. now apply filter_In in H. Qed.

Section Bound.

Variable chunk_size : nat.

(** A chunk made of one heading and its section. *)
Definition one_section (us : list (text * text)) (c : text) : Prop :=
  exists t content,
    In (t, content) us /\ c = strip (NL :: strip t ++ NL :: content).

Definition section_chunk (us : list (text * text)) (c : text) : Prop :=
  (length c <= chunk_size + 1)%nat \/ one_section us c.

(** What the loop over the sections keeps true of [current_chunk]. *)
Definition section_cur (us : list (text * text)) (cur : text) : Prop :=
  cur = []
  \/ (exists rest, cur = NL :: rest /\ (length rest <= chunk_size + 1)%nat)
  \/ (exists t content,
        In (t, content) us /\ cur = NL :: strip t ++ NL :: content).

Lemma section_cur_flush (us : list (text * text)) (cur : text) :
  section_cur us cur -> section_chunk us (strip cur).
Proof.
  intros [->|[(rest & -> & H)|(t & content & Hin & ->)]].
  - left. simpl. lia.
  - left. pose proof (length_strip_newline rest). lia.
  - right. exists t, content. auto.
Qed.

Lemma coalesce_sections_bound (all us : list (text * text)) :
  incl us all ->
  forall cur chunks,
    section_cur all cur -> Forall (section_chunk all) chunks ->
    Forall (section_chunk all) (coalesce_sections us chunk_size cur chunks).
Proof.
  induction us as [|[t content] us IH]; intros Hincl cur chunks Hcur Hchunks; simpl.
  - destruct (nonempty cur); [|exact Hchunks].
    apply Forall_app. split; [exact Hchunks|].
    constructor; [now apply section_cur_flush|constructor].
  - assert (Hin : In (t, content) all) by (apply Hincl; now left).
    assert (Hus : incl us all) by (intros x Hx; apply Hincl; now right).
    destruct ((chunk_size <? length cur + length (strip t) + length content)%nat
              && nonempty cur) eqn:Hfull.
    + apply IH; [exact Hus| |].
      * right. right. exists t, content. auto.
      * apply Forall_app. split; [exact Hchunks|].
        constructor; [now apply section_cur_flush|constructor].
    + apply IH; [exact Hus| |exact Hchunks].
      destruct cur as [|c0 cur0].
      * right. right. exists t, content. auto.
      * simpl in Hfull. rewrite andb_true_r in Hfull. apply Nat.ltb_ge in Hfull.
        right. left.
        destruct Hcur as [Hcur|[(rest & Hcur & _)|(t' & content' & _ & Hcur)]];
          [discriminate| |]; injection Hcur as -> ->;
          eexists; (split; [reflexivity|]);
          rewrite !length_app in *; simpl in *; rewrite ?length_app in *;
          simpl in *; lia.
Qed.

Variable chunk_overlap : nat.

(** A chunk made of one paragraph after the overlap kept from the chunk
    before it. *)
Definition one_paragraph (ps : list text) (c : text) : Prop :=
  exists p tail,
    In p ps /\ (length tail <= chunk_overlap)%nat
    /\ c = strip (tail ++ NL :: strip p).

Definition paragraph_chunk (ps : list text) (c : text) : Prop :=
  (length c <= chunk_size + 1)%nat \/ one_paragraph ps c.

Definition paragraph_cur (ps : list text) (cur : text) : Prop :=
  (length cur <= chunk_size + 1)%nat
  \/ (exists p tail,
        In p ps /\ (length tail <= chunk_overlap)%nat
        /\ cur = tail ++ NL :: strip p).

Lemma paragraph_cur_flush (ps : list text) (cur : text) :
  paragraph_cur ps cur -> paragraph_chunk ps (strip cur).
Proof.
  intros [H|(p & tail & Hin & Htail & ->)].
  - left. pose proof (length_strip cur). lia.
  - right. exists p, tail. auto.
Qed.

Lemma length_last_n (n : nat) (s : text) : (length (last_n n s) <= n)%nat.
Proof. unfold last_n. rewrite length_skipn. lia. Qed.

Lemma coalesce_paragraphs_bound (all ps : list text) :
  incl ps all ->
  forall cur chunks,
    paragraph_cur all cur -> Forall (paragraph_chunk all) chunks ->
    Forall (paragraph_chunk all)
           (coalesce_paragraphs ps chunk_size chunk_overlap cur chunks).
Proof.
  induction ps as [|p ps IH]; intros Hincl cur chunks Hcur Hchunks; simpl.
  - destruct (nonempty cur); [|exact Hchunks].
    apply Forall_app. split; [exact Hchunks|].
    constructor; [now apply paragraph_cur_flush|constructor].
  - assert (Hin : In p all) by (apply Hincl; now left).
    assert (Hps : incl ps all) by (intros x Hx; apply Hincl; now right).
    destruct (nonempty (strip p)); [|now apply IH].
    destruct ((chunk_size <? length cur + length (strip p))%nat && nonempty cur)
      eqn:Hfull.
    + apply IH; [exact Hps| |].
      * right. exists p.
        destruct (0 <? chunk_overlap)%nat.
        -- exists (last_n chunk_overlap cur).
           split; [exact Hin|]. split; [apply length_last_n|reflexivity].
        -- exists []. split; [exact Hin|]. split; [simpl; lia|reflexivity].
      * apply Forall_app. split; [exact Hchunks|].
        constructor; [now apply paragraph_cur_flush|constructor].
    + apply IH; [exact Hps| |exact Hchunks].
      destruct cur as [|c0 cur0].
      * right. exists p, []. split; [exact Hin|]. split; [simpl; lia|reflexivity].
      * simpl in Hfull. rewrite andb_true_r in Hfull. apply Nat.ltb_ge in Hfull.
        left. rewrite !length_app. simpl in *. lia.
Qed.

Lemma slices_bound (step fuel : nat) :
  forall s, Forall (fun c => (length c <= chunk_size)%nat)
                   (slices fuel s chunk_size step).
Proof.
  induction fuel as [|f IH]; intros s; simpl; [constructor|].
  destruct s as [|c s]; constructor; [|apply IH].
  etransitivity; [apply length_strip|]. rewrite length_firstn. lia.
Qed.

(** The units of the first heading pattern found in the document. *)
Definition heading_units (s : text) (us : list (text * text)) : Prop :=
  exists p, In p section_patterns /\ us = units (re_split p (NL :: s)).

Lemma by_sections_bound (s : text) (pats : list re) :
  incl pats section_patterns ->
  Forall (fun c => exists us, heading_units s us /\ section_chunk us c)
         (by_sections pats s chunk_size []).
Proof.
  induction pats as [|p pats IH]; intros Hincl; simpl; [constructor|].
  assert (Hpats : incl pats section_patterns)
    by (intros x Hx; apply Hincl; now right).
  destruct (search p (NL :: s)); [|now apply IH].
  destruct (coalesce_sections _ chunk_size [] []) as [|c chunks] eqn:E;
    [now apply IH|].
  rewrite <- E.
  eapply Forall_impl;
    [|apply (@coalesce_sections_bound (units (re_split p (NL :: s))));
      [apply incl_refl|now left|constructor]].
  intros x Hx. eexists. split; [|exact Hx].
  exists p. split; [apply Hincl; now left|reflexivity].
Qed.

(** C8 (amended): of the chunks the chunker returns, each has at most
    [chunk_size + 1] characters, or is a single unit: one heading with its
    section, or one paragraph after at most [chunk_overlap] characters kept
    from the chunk before.  A new chunk is started when the next unit would
    overflow a chunk already begun, but a unit is never split. *)
Theorem chunk_document_bound (s : text) (chunks : list text) (c : text) :
  _chunk_document s chunk_size chunk_overlap = Some chunks ->
  In c chunks ->
  (length c <= chunk_size + 1)%nat
  \/ (exists us, heading_units s us /\ one_section us c)
  \/ one_paragraph (split [NL; NL] s) c.
Proof.
  unfold _chunk_document. intros H Hc.
  pose proof (@by_sections_bound s section_patterns (incl_refl _)) as Hh.
  destruct (by_sections section_patterns s chunk_size []) as [|h hs].
  - pose proof (@coalesce_paragraphs_bound (split [NL; NL] s) (split [NL; NL] s)
                  (incl_refl _) [] [] (or_introl (Nat.le_0_l _)) (Forall_nil _))
      as Hp.
    destruct (coalesce_paragraphs _ chunk_size chunk_overlap [] []) as [|q qs].
    + destruct (chunk_size =? chunk_overlap)%nat; [discriminate|].
      destruct (chunk_size <? chunk_overlap)%nat;
        injection H as <-; [contradiction|].
      apply kept_in in Hc.
      pose proof (slices_bound (chunk_size - chunk_overlap) (length s) s) as Hs.
      rewrite Forall_forall in Hs. specialize (Hs c Hc). left. lia.
    + injection H as <-. apply (@kept_in (q :: qs)) in Hc.
      rewrite Forall_forall in Hp. destruct (Hp c Hc) as [Hl|Ho]; auto.
  - injection H as <-. apply (@kept_in (h :: hs)) in Hc.
    rewrite Forall_forall in Hh. destruct (Hh c Hc) as (us & Hus & [Hl|Ho]);
      [auto|]. right. left. exists us. auto.
Qed.

End Bound.

(** One heading whose section is longer than the chunk size. *)
Definition long_section : text :=
  txt "# Alcance
Instalar la red".

(** C8 (as stated, fails): a unit that alone is longer than [chunk_size] is
    returned as one chunk: 23 characters for a chunk size of 10. *)
Lemma chunk_longer_than_chunk_size :
  _chunk_document long_section 10 2
  = Some [txt "Alcance
Instalar la red"]
  /\ (10 < length (txt "Alcance
Instalar la red"))%nat.
Proof. split; vm_compute; [reflexivity|lia]. Qed.

Lemma chunk_document_bound_witness :
  (length (txt "Alcance
Instalar la red") <= 10 + 1)%nat
  \/ (exists us, heading_units long_section us
                 /\ one_section us (txt "Alcance
Instalar la red"))
  \/ one_paragraph 2 (split [NL; NL] long_section) (txt "Alcance
Instalar la red").
Proof.
  apply (@chunk_document_bound 10 2 long_section
           [txt "Alcance
Instalar la red"]).
  - vm_compute. reflexivity.
  - now left.
Defined.

End ChunkerBound.

(* ------------------------------------------------------------------ *)
(** ** Greedy repetition and substitution *)

Module SubFacts.
Import ReFacts.

Section Greedy.

Variable p : cp -> bool.

(** A greedy repetition succeeds when the rest of the pattern does after
    some run it can take. *)
Lemma rep_greedy_complete (w : text) :
  forall lo b a' k,
    forallb p w = true -> (lo <= length w)%nat ->
    k (rev w ++ b) a' <> None ->
    rep_greedy p lo b (w ++ a') k <> None.
Proof.
  induction w as [|c w IH]; intros lo b a' k Hw Hlo Hk.
  - simpl in Hlo. assert (lo = 0)%nat by lia. subst lo. simpl in Hk.
    destruct a' as [|c a']; simpl; [exact Hk|].
    destruct (p c); [|exact Hk].
    destruct (rep_greedy p 0 (c :: b) a' k); simpl; [discriminate|exact Hk].
  - simpl in Hw. apply andb_true_iff in Hw. destruct Hw as [Hc Hw].
    simpl. rewrite Hc.
    assert (H : rep_greedy p (pred lo) (c :: b) (w ++ a') k <> None).
    { apply IH; [exact Hw|simpl in Hlo; lia|]. now rewrite <- rev_cons_app. }
    destruct (rep_greedy p (pred lo) (c :: b) (w ++ a') k);
      [simpl; discriminate|contradiction].
Qed.

(** The run it takes is the longest after which the rest succeeds. *)
Lemma rep_greedy_longest (a : text) :
  forall lo b k f,
    rep_greedy p lo b a k = Some f ->
    exists w a', a = w ++ a' /\ forallb p w = true /\ (lo <= length w)%nat
                 /\ k (rev w ++ b) a' = Some f
                 /\ forall w2 a2, a = w2 ++ a2 -> forallb p w2 = true ->
                                  (length w < length w2)%nat ->
                                  k (rev w2 ++ b) a2 = None.
Proof.
  induction a as [|c a' IH]; intros lo b k f H; simpl in H.
  - destruct lo; [|discriminate]. exists [], []. repeat split; auto.
    intros w2 a2 E _ Hlen. destruct w2; [simpl in Hlen; lia|discriminate].
  - destruct (p c) eqn:Hc.
    + apply or_else_some in H. destruct H as [H|[Hnone H]].
      * apply IH in H. destruct H as (w & a'' & -> & Hw & Hlo & Hk & Hmax).
        exists (c :: w), a''. rewrite rev_cons_app. simpl. rewrite Hc, Hw.
        repeat split; auto; [lia|].
        intros w2 a2 E Hw2 Hlen. destruct w2 as [|c2 w2]; [simpl in Hlen; lia|].
        simpl in E. injection E as <- E. rewrite rev_cons_app.
        simpl in Hw2. apply andb_true_iff in Hw2.
        apply Hmax; [exact E|tauto|simpl in Hlen; lia].
      * destruct lo; [|discriminate]. exists [], (c :: a').
        repeat split; auto.
        intros w2 a2 E Hw2 Hlen. destruct w2 as [|c2 w2]; [simpl in Hlen; lia|].
        simpl in E. injection E as <- E. rewrite rev_cons_app.
        simpl in Hw2. apply andb_true_iff in Hw2. destruct Hw2 as [_ Hw2].
        destruct (k (rev w2 ++ c :: b) a2) eqn:Hk; [|reflexivity].
        exfalso. subst a'.
        apply (@rep_greedy_complete w2 0 (c :: b) a2 k); auto; [lia|congruence].
    + destruct lo; [|discriminate]. exists [], (c :: a').
      repeat split; auto.
      intros w2 a2 E Hw2 Hlen. destruct w2 as [|c2 w2]; [simpl in Hlen; lia|].
      simpl in E. injection E as <- E. simpl in Hw2. now rewrite Hc in Hw2.
Qed.

End Greedy.

(** *** Substitution, one match at a time *)

Section Sub.

Variable r : re.
Variable repl : hit -> text.

(** The replacement does not look at the text before the match. *)
Hypothesis repl_gap :
  forall gp b f, repl (hit_of gp b f) = repl (hit_of [] b f).

Definition render (p : list hit * text) : text :=
  flat_map (fun h => gap h ++ repl h) (fst p) ++ snd p.

Lemma sub_with_render (s : text) :
  sub_with r repl s = render (scan r [] s 0 []).
Proof.
  unfold sub_with, finditer, render. now destruct (scan r [] s 0 []).
Qed.

Lemma render_cons (h : hit) (p : list hit * text) :
  render (let '(hs, tl) := p in (h :: hs, tl)) = gap h ++ repl h ++ render p.
Proof. destruct p as [hs tl]. unfold render. simpl. now rewrite <- !app_assoc. Qed.

Lemma render_cons2 (h h' : hit) (p : list hit * text) :
  render (let '(hs, tl) := p in (h :: h' :: hs, tl))
  = gap h ++ repl h ++ gap h' ++ repl h' ++ render p.
Proof.
  destruct p as [hs tl]. unfold render. simpl. now rewrite <- !app_assoc.
Qed.

(** The text read since the last match comes out first. *)
Lemma render_gap (a : text) :
  forall b skip gp,
    render (scan r b a skip gp) = rev gp ++ render (scan r b a skip []).
Proof.
  induction a as [|c a' IH]; intros b skip gp.
  - destruct skip; simpl.
    + destruct (match_at r false b []) as [f|]; unfold render; simpl.
      * destruct (length (matched b f)); simpl; rewrite !app_nil_r;
          now rewrite repl_gap.
      * now rewrite !app_nil_r.
    + unfold render. simpl. now rewrite app_nil_r.
  - destruct skip as [|n]; simpl; [|apply IH].
    destruct (match_at r false b (c :: a')) as [f|].
    + destruct (length (matched b f)).
      * destruct (match_at r true b (c :: a')) as [f'|].
        -- rewrite !render_cons2. simpl gap. now rewrite repl_gap.
        -- rewrite !render_cons. simpl gap. now rewrite repl_gap.
      * rewrite !render_cons. simpl gap. now rewrite repl_gap.
    + rewrite IH. rewrite (IH _ _ [c]). simpl. now rewrite <- app_assoc.
Qed.

Lemma scan_skip (w : text) :
  forall b a' gp,
    scan r b (w ++ a') (length w) gp = scan r (rev w ++ b) a' 0 gp.
Proof.
  induction w as [|c w IH]; intros b a' gp; [reflexivity|].
  simpl length. cbn [app scan]. rewrite IH. now rewrite rev_cons_app.
Qed.

(** The output from a cursor on, with nothing pending. *)
Definition out (b a : text) : text := render (scan r b a 0 []).

Lemma sub_with_out (s : text) : sub_with r repl s = out [] s.
Proof. apply sub_with_render. Qed.

Lemma out_nil (b : text) : match_at r false b [] = None -> out b [] = [].
Proof. unfold out. simpl. now intros ->. Qed.

Lemma out_pass (b : text) (c : cp) (a' : text) :
  match_at r false b (c :: a') = None ->
  out b (c :: a') = c :: out (c :: b) a'.
Proof.
  unfold out. simpl. intros ->. now rewrite render_gap.
Qed.

Lemma out_hit (b w a' : text) (g : caps) :
  match_at r false b (w ++ a') = Some (rev w ++ b, a', g) ->
  w <> [] ->
  out b (w ++ a')
  = repl (hit_of [] b (rev w ++ b, a', g)) ++ out (rev w ++ b) a'.
Proof.
  intros Hm Hw. destruct w as [|c w]; [congruence|].
  unfold out. cbn [app scan]. cbn [app] in Hm. rewrite Hm.
  rewrite (@matched_word (c :: w)). cbn [length].
  rewrite render_cons. simpl gap. rewrite scan_skip.
  now rewrite rev_cons_app.
Qed.

(** For a pattern that matches no empty word, the output is read off one
    character or one match at a time. *)
Hypothesis nonnull : forall w, lang r w -> w <> [].

Lemma out_cases (b a : text) :
  (a = [] /\ out b a = [])
  \/ (exists c a', a = c :: a' /\ match_at r false b a = None
                   /\ out b a = c :: out (c :: b) a')
  \/ (exists w a' g,
        a = w ++ a' /\ w <> [] /\ lang r w
        /\ match_at r false b a = Some (rev w ++ b, a', g)
        /\ out b a = repl (hit_of [] b (rev w ++ b, a', g))
                      ++ out (rev w ++ b) a').
Proof.
  destruct (match_at r false b a) as [f|] eqn:Hm.
  - right. right. pose proof (match_at_sound _ _ _ _ Hm) as Hs.
    destruct Hs as (w & a' & g & -> & Hw & -> & _).
    exists w, a', g. pose proof (nonnull Hw) as Hne.
    repeat split; auto. now apply out_hit.
  - destruct a as [|c a'].
    + left. split; [reflexivity|]. now apply out_nil.
    + right. left. exists c, a'. repeat split; auto. now apply out_pass.
Qed.

(** Every character of the output is one of the input or of a
    replacement. *)
Lemma out_forallb (Q : cp -> bool) :
  (forall h, forallb Q (repl h) = true) ->
  forall n a, (length a <= n)%nat ->
    forall b, forallb Q a = true -> forallb Q (out b a) = true.
Proof.
  intros Hrepl. induction n as [|n IH]; intros a Hn b Ha;
    destruct (out_cases b a)
      as [[-> ->]|[(c & a' & -> & _ & ->)|(w & a' & g & -> & Hw & _ & _ & ->)]];
    try reflexivity; try (simpl in Hn; lia).
  - destruct w; [congruence|simpl in Hn; lia].
  - simpl in *. apply andb_true_iff in Ha. destruct Ha as [-> Ha].
    apply IH; [lia|exact Ha].
  - rewrite forallb_app in *. apply andb_true_iff in Ha. destruct Ha as [_ Ha].
    rewrite Hrepl. apply IH; [|exact Ha].
    rewrite length_app in Hn. destruct w; [congruence|simpl in Hn; lia].
Qed.

End Sub.

End SubFacts.

(* ------------------------------------------------------------------ *)
(** ** The content normaliser *)

Module NormalizerFacts.
Import ReFacts SubFacts.

(** *** Trimming *)

Lemma lstrip_ink (c : cp) (s : text) :
  isspace c = false -> lstrip (c :: s) = c :: s.
Proof. intros H. simpl. now rewrite H. Qed.

Lemma lstrip_head (s : text) (c : cp) (u : text) :
  lstrip s = c :: u -> isspace c = false.
Proof.
  induction s as [|x s IH]; simpl; [discriminate|].
  destruct (isspace x) eqn:Hx; [exact IH|]. intros H. injection H as <- _. exact Hx.
Qed.

Lemma lstrip_idem (s : text) : lstrip (lstrip s) = lstrip s.
Proof.
  destruct (lstrip s) as [|c u] eqn:E; [reflexivity|].
  apply lstrip_ink. eapply lstrip_head; eauto.
Qed.

Lemma lstrip_app_ink (l : text) (c : cp) (t : text) :
  isspace c = false -> lstrip (l ++ c :: t) = lstrip l ++ c :: t.
Proof.
  intros Hc. induction l as [|x l IH]; simpl.
  - now rewrite Hc.
  - destruct (isspace x); [exact IH|reflexivity].
Qed.

Lemma rstrip_ink (c : cp) (s : text) :
  isspace c = false -> rstrip (c :: s) = c :: rstrip s.
Proof.
  intros Hc. unfold rstrip. simpl.
  rewrite (@lstrip_app_ink (rev s) c [] Hc), rev_app_distr. reflexivity.
Qed.

Lemma rstrip_idem (s : text) : rstrip (rstrip s) = rstrip s.
Proof. unfold rstrip. now rewrite rev_involutive, lstrip_idem. Qed.

Lemma strip_idem (s : text) : strip (strip s) = strip s.
Proof.
  unfold strip. destruct (lstrip s) as [|c u] eqn:E; [reflexivity|].
  pose proof (lstrip_head _ E) as Hc.
  rewrite (@rstrip_ink c u Hc), (@lstrip_ink c (rstrip u) Hc), <- (@rstrip_ink c u Hc).
  apply rstrip_idem.
Qed.

(** What trimming cuts off is blank. *)
Lemma lstrip_cut (s : text) :
  exists pre, s = pre ++ lstrip s /\ forallb isspace pre = true.
Proof.
  induction s as [|c s (pre & E & H)]; simpl; [now exists []|].
  destruct (isspace c) eqn:Hc.
  - exists (c :: pre). simpl. rewrite Hc, H. now rewrite <- E.
  - now exists [].
Qed.

Lemma rstrip_cut (s : text) :
  exists post, s = rstrip s ++ post /\ forallb isspace post = true.
Proof.
  destruct (lstrip_cut (rev s)) as (pre & E & H).
  exists (rev pre). split.
  - unfold rstrip. rewrite <- rev_app_distr, <- E. now rewrite rev_involutive.
  - rewrite forallb_forall in *. intros x Hx. apply H. now apply in_rev.
Qed.

Lemma forallb_lstrip (Q : cp -> bool) (s : text) :
  forallb Q s = true -> forallb Q (lstrip s) = true.
Proof.
  destruct (lstrip_cut s) as (pre & E & _). intros H. rewrite E in H.
  rewrite forallb_app in H. now apply andb_true_iff in H.
Qed.

Lemma forallb_rstrip (Q : cp -> bool) (s : text) :
  forallb Q s = true -> forallb Q (rstrip s) = true.
Proof.
  destruct (rstrip_cut s) as (post & E & _). intros H. rewrite E in H.
  rewrite forallb_app in H. now apply andb_true_iff in H.
Qed.

Lemma forallb_strip (Q : cp -> bool) (s : text) :
  forallb Q s = true -> forallb Q (strip s) = true.
Proof. intros H. now apply forallb_rstrip, forallb_lstrip. Qed.

(** *** The characters outside the Latin range *)

Definition foreign (c : cp) : bool := negb (latin c).

Lemma foreign_nonnull (w : text) : lang foreign_re w -> w <> [].
Proof. intros [_ H] ->. simpl in H. lia. Qed.

Lemma foreign_matches (b : text) (c : cp) (a : text) :
  latin c = false -> match_at foreign_re false b (c :: a) <> None.
Proof.
  intros Hc. unfold match_at, foreign_re, plus. cbn [m].
  apply (@rep_greedy_complete (fun c => negb (latin c)) [c] 1 b a).
  - simpl. now rewrite Hc.
  - simpl. lia.
  - discriminate.
Qed.

Definition drop : hit -> text := fun _ => [].

Lemma drop_gap (gp b : text) (f : found) :
  drop (hit_of gp b f) = drop (hit_of [] b f).
Proof. reflexivity. Qed.

(** After the pass over the foreign characters, all that is left is
    Latin. *)
Lemma foreign_out_latin (n : nat) :
  forall a, (length a <= n)%nat ->
    forall b, forallb latin (out foreign_re drop b a) = true.
Proof.
  induction n as [|n IH]; intros a Hn b;
    destruct (@out_cases foreign_re drop drop_gap foreign_nonnull b a)
      as [[-> ->]|[(c & a' & -> & Hm & ->)|(w & a' & g & -> & Hw & _ & _ & ->)]];
    try reflexivity; try (simpl in Hn; lia).
  - destruct w; [congruence|simpl in Hn; lia].
  - simpl. destruct (latin c) eqn:Hc.
    + apply IH. simpl in Hn. lia.
    + now apply foreign_matches with (b := b) (a := a') in Hc.
  - simpl. apply IH. rewrite length_app in Hn.
    destruct w; [congruence|simpl in Hn; lia].
Qed.

Lemma sub_foreign_latin (s : text) : forallb latin (sub foreign_re [] s) = true.
Proof.
  unfold sub. rewrite (sub_with_out foreign_re drop).
  apply (@foreign_out_latin (length s) s (Nat.le_refl _) []).
Qed.


Lemma foreign_needs : needs foreign foreign_re.
Proof. apply (@needs_plus_cat foreign foreign true 0 []). auto. Qed.

Lemma sub_foreign_id (s : text) :
  forallb latin s = true -> sub foreign_re [] s = s.
Proof.
  intros H. apply (@sub_needs foreign foreign_re _ s foreign_needs).
  unfold foreign. induction s as [|c s IH]; simpl in *; [reflexivity|].
  apply andb_true_iff in H. destruct H as [-> H]. simpl. auto.
Qed.

(** *** Runs of blank lines *)

(** The newlines in the blanks a text begins with. *)
Fixpoint nlcount (a : text) : nat :=
  match a with
  | c :: r =>
    if isspace c then (if c =? NL then S (nlcount r) else nlcount r) else 0%nat
  | [] => 0%nat
  end.

(** A newline followed, through blanks, by two more: where [blank_re]
    matches. *)
Definition blankable (a : text) : bool :=
  match a with
  | c :: r => (c =? NL) && (2 <=? nlcount r)%nat
  | [] => false
  end.

Fixpoint settled (t : text) : Prop :=
  match t with
  | [] => True
  | c :: r => blankable (c :: r) = false /\ settled r
  end.

Lemma nlcount_newline (x : text) : nlcount (NL :: x) = S (nlcount x).
Proof. reflexivity. Qed.

Lemma nlcount_blank_app (u x : text) :
  forallb isspace u = true -> (nlcount x <= nlcount (u ++ x))%nat.
Proof.
  induction u as [|c u IH]; simpl; [lia|].
  intros H. apply andb_true_iff in H. destruct H as [-> H].
  specialize (IH H). destruct (c =? NL); lia.
Qed.

Lemma nlcount_app (x y : text) : (nlcount x <= nlcount (x ++ y))%nat.
Proof.
  induction x as [|c x IH]; simpl; [lia|].
  destruct (isspace c); [destruct (c =? NL)|]; lia.
Qed.

Lemma nlcount_first (r : text) (n : nat) :
  nlcount r = S n ->
  exists u r', r = u ++ NL :: r' /\ forallb isspace u = true /\ nlcount r' = n.
Proof.
  induction r as [|c r IH]; simpl; [discriminate|].
  destruct (isspace c) eqn:Hc; [|discriminate].
  destruct (N.eqb_spec c NL) as [->|Hne].
  - intros H. exists [], r. repeat split. lia.
  - intros H. destruct (IH H) as (u & r' & -> & Hu & Hn).
    exists (c :: u), r'. simpl. now rewrite Hc, Hu.
Qed.

Lemma newlines_blank (u : text) :
  forallb (eqc NL) u = true -> forallb isspace u = true.
Proof.
  induction u as [|c u IH]; simpl; [reflexivity|].
  intros H. apply andb_true_iff in H. destruct H as [Hc H].
  apply N.eqb_eq in Hc. subst c. now rewrite IH.
Qed.

Lemma blank_re_nonnull (w : text) : lang blank_re w -> w <> [].
Proof.
  intros (u & v & -> & (c & -> & _) & _). discriminate.
Qed.

Lemma newline_run_matches (b a : text) (k : text -> text -> option found) :
  (forall b' a', k b' a' <> None) ->
  rep_greedy (eqc NL) 1 b (NL :: a) k <> None.
Proof.
  intros Hk. apply (@rep_greedy_complete (eqc NL) [NL] 1 b a k); auto.
Qed.

(** [blank_re] matches wherever a text is [blankable] ... *)
Lemma blankable_matches (b a : text) :
  blankable a = true -> match_at blank_re false b a <> None.
Proof.
  destruct a as [|c r]; [discriminate|]. unfold blankable.
  intros H. apply andb_true_iff in H. destruct H as [Hc Hn].
  apply N.eqb_eq in Hc. subst c. apply Nat.leb_le in Hn.
  destruct (nlcount r) as [|n1] eqn:E1; [lia|].
  destruct (nlcount_first _ E1) as (u1 & r1 & -> & Hu1 & E2).
  destruct n1 as [|n2]; [lia|].
  destruct (nlcount_first _ E2) as (u2 & r2 & -> & Hu2 & _).
  unfold match_at, blank_re. cbn [cat m star plus eqc N.eqb NL Pos.eqb].
  apply rep_greedy_complete; [exact Hu1|simpl; lia|].
  cbn [m eqc N.eqb NL Pos.eqb].
  apply rep_greedy_complete; [exact Hu2|simpl; lia|].
  apply newline_run_matches. intros b' a'. discriminate.
Qed.

(** ... and only there, ... *)
Lemma matches_blankable (b a : text) (f : found) :
  match_at blank_re false b a = Some f -> blankable a = true.
Proof.
  intros H. apply match_at_sound in H.
  destruct H as (w & a' & g & -> & Hw & _).
  destruct Hw as (u0 & v0 & -> & (c & -> & Hc) & Hv0).
  destruct Hv0 as (u1 & v1 & -> & (Hu1 & _) & Hv1).
  destruct Hv1 as (u2 & v2 & -> & (c' & -> & Hc') & Hv2).
  destruct Hv2 as (u3 & u4 & -> & (Hu3 & _) & (Hu4 & Hlen)).
  apply N.eqb_eq in Hc, Hc'. subst c c'.
  cbn [app]. unfold blankable. apply andb_true_iff. split; [reflexivity|].
  apply Nat.leb_le. rewrite <- app_assoc.
  etransitivity; [|apply nlcount_blank_app; exact Hu1].
  cbn [app]. rewrite nlcount_newline. apply le_n_S. rewrite <- app_assoc.
  etransitivity; [|apply nlcount_blank_app; exact Hu3].
  destruct u4 as [|c4 u4]; [simpl in Hlen; lia|].
  simpl in Hu4. apply andb_true_iff in Hu4. destruct Hu4 as [Hc4 _].
  apply N.eqb_eq in Hc4. subst c4. cbn [app]. rewrite nlcount_newline. lia.
Qed.

(** ... and the match runs to the last newline of the blanks. *)
Lemma match_is_longest (b a b1 a1 : text) (g : caps) :
  match_at blank_re false b a = Some (b1, a1, g) -> nlcount a1 = 0%nat.
Proof.
  unfold match_at, blank_re. cbn [cat m star plus].
  destruct a as [|c r]; [discriminate|].
  destruct (eqc NL c); [|discriminate].
  intros H. apply rep_greedy_sound in H.
  destruct H as (u1 & a2 & -> & _ & _ & H).
  cbn [m] in H. destruct a2 as [|c' r1]; [discriminate|].
  destruct (eqc NL c'); [|discriminate].
  apply rep_greedy_longest in H.
  destruct H as (u2 & a3 & -> & Hu2 & _ & H & Hmax).
  apply rep_greedy_longest in H.
  destruct H as (u3 & a4 & -> & Hu3 & Hlen & H & _).
  cbn [andb] in H. injection H as _ <- _.
  destruct (nlcount a4) as [|n] eqn:E; [reflexivity|exfalso].
  destruct (nlcount_first _ E) as (v & a5 & -> & Hv & _).
  specialize (Hmax (u2 ++ u3 ++ v) (NL :: a5)).
  rewrite <- !app_assoc in Hmax.
  eapply newline_run_matches; cycle 1.
  - apply Hmax; [reflexivity| |rewrite !length_app; lia].
    rewrite !forallb_app, Hu2, Hv, (newlines_blank _ Hu3). reflexivity.
  - intros b' a'. discriminate.
Qed.

Definition two_newlines : hit -> text := fun _ => [NL; NL].

Lemma two_newlines_gap (gp b : text) (f : found) :
  two_newlines (hit_of gp b f) = two_newlines (hit_of [] b f).
Proof. reflexivity. Qed.

Abbreviation collapse := (out blank_re two_newlines).

Lemma collapse_cases (b a : text) :
  (a = [] /\ collapse b a = [])
  \/ (exists c a', a = c :: a' /\ blankable a = false
                   /\ collapse b a = c :: collapse (c :: b) a')
  \/ (exists w a', a = w ++ a' /\ w <> [] /\ blankable a = true
                   /\ nlcount a' = 0%nat
                   /\ collapse b a = NL :: NL :: collapse (rev w ++ b) a').
Proof.
  destruct (@out_cases blank_re two_newlines two_newlines_gap blank_re_nonnull b a)
    as [H|[(c & a' & E & Hm & Ho)|(w & a' & g & E & Hw & _ & Hm & Ho)]].
  - now left.
  - right. left. exists c, a'. repeat split; auto.
    destruct (blankable a) eqn:Hb; [|reflexivity].
    now apply (blankable_matches b) in Hb.
  - right. right. exists w, a'. repeat split; auto.
    + eapply matches_blankable; eauto.
    + eapply match_is_longest; eauto.
Qed.

(** A text without a run of blank lines is left as it is. *)
Lemma collapse_settled (t : text) :
  settled t -> forall b, collapse b t = t.
Proof.
  induction t as [|c t IH]; intros Ht b.
  - destruct (collapse_cases b [])
      as [[_ E]|[(c & a' & E & _)|(w & a' & E & Hw & _)]];
      [exact E|discriminate E|].
    destruct w; [congruence|discriminate E].
  - destruct Ht as [Hb Ht].
    destruct (collapse_cases b (c :: t))
      as [[E _]|[(c' & a' & E & _ & ->)|(w & a' & _ & _ & Hb' & _)]].
    + discriminate.
    + injection E as <- <-. now rewrite IH.
    + congruence.
Qed.

(** What the pass over the blank lines gives has no such run left. *)
Lemma collapse_gives_settled (n : nat) :
  forall a, (length a <= n)%nat ->
    forall b, settled (collapse b a)
              /\ (nlcount (collapse b a) <= nlcount a)%nat.
Proof.
  induction n as [|n IH]; intros a Hn b;
    destruct (collapse_cases b a)
      as [[-> ->]|[(c & a' & -> & Hb & ->)
                  |(w & a' & -> & Hw & Hb & Ha' & ->)]];
    try (simpl; split; [exact I|lia]); try (simpl in Hn; lia).
  - destruct w; [congruence|simpl in Hn; lia].
  - destruct (IH a' ltac:(simpl in Hn; lia) (c :: b)) as [Hs Hc].
    unfold blankable in Hb. split.
    + split; [|exact Hs]. unfold blankable.
      destruct (c =? NL); [|reflexivity]. cbn [andb] in *.
      apply Nat.leb_gt in Hb. apply Nat.leb_gt. lia.
    + simpl. destruct (isspace c); [destruct (c =? NL)|]; lia.
  - assert (Hlen : (length a' <= n)%nat).
    { rewrite length_app in Hn. destruct w; [congruence|simpl in Hn; lia]. }
    destruct (IH a' Hlen (rev w ++ b)) as [Hs Hc].
    assert (H0 : nlcount (collapse (rev w ++ b) a') = 0%nat) by lia.
    split.
    + cbn [settled]. unfold blankable. rewrite nlcount_newline, H0.
      repeat split; auto.
    + rewrite !nlcount_newline, H0.
      destruct (w ++ a') as [|c r]; [discriminate|].
      unfold blankable in Hb. apply andb_true_iff in Hb. destruct Hb as [Hc' Hb].
      apply N.eqb_eq in Hc'. subst c. rewrite nlcount_newline.
      apply Nat.leb_le in Hb. lia.
Qed.

Lemma settled_suffix (pre t : text) : settled (pre ++ t) -> settled t.
Proof. induction pre as [|c pre IH]; simpl; [auto|]. intros [_ H]. auto. Qed.

Lemma settled_prefix (t post : text) : settled (t ++ post) -> settled t.
Proof.
  induction t as [|c t IH]; [constructor|].
  cbn [app settled]. intros [Hb H]. split; [|auto].
  unfold blankable in *. destruct (c =? NL); [|reflexivity]. cbn [andb] in *.
  apply Nat.leb_gt in Hb. apply Nat.leb_gt.
  pose proof (nlcount_app t post). lia.
Qed.

Lemma settled_strip (t : text) : settled t -> settled (strip t).
Proof.
  intros H. unfold strip.
  destruct (lstrip_cut t) as (pre & E & _).
  destruct (rstrip_cut (lstrip t)) as (post & E' & _).
  rewrite E in H. apply settled_suffix in H.
  rewrite E' in H. now apply settled_prefix in H.
Qed.

(** *** The whole pass *)

(** Neither [<] nor [#]. *)
Definition plain_cp (c : cp) : bool := negb (c =? 60) && negb (c =? 35).

Definition plain (x : text) : Prop := forallb plain_cp x = true.








Lemma sub_blank_collapse (s : text) : sub blank_re [NL; NL] s = collapse [] s.
Proof. apply (sub_with_out blank_re two_newlines). Qed.


Lemma sub_blank_latin (s : text) :
  forallb latin s = true -> forallb latin (sub blank_re [NL; NL] s) = true.
Proof.
  intros H. rewrite sub_blank_collapse.
  apply (@out_forallb blank_re two_newlines two_newlines_gap blank_re_nonnull
           latin) with (n := length s); auto.
Qed.












End NormalizerFacts.
(* ================================================================== *)
(** * Further properties *)

(* ------------------------------------------------------------------ *)
(** ** The cleaning passes: what comes out *)

Module CleaningFacts.
Import ReFacts SubFacts NormalizerFacts.

Section Constant.

Variable r : re.
Variable repl : text.

Definition const : hit -> text := fun _ => repl.

Lemma const_gap (gp b : text) (f : found) :
  const (hit_of gp b f) = const (hit_of [] b f).
Proof. reflexivity. Qed.

Hypothesis nonnull : forall w, lang r w -> w <> [].

Lemma sub_out (s : text) : sub r repl s = out r const [] s.
Proof. apply (sub_with_out r const). Qed.

Lemma sub_forallb (Q : cp -> bool) (s : text) :
  forallb Q repl = true -> forallb Q s = true ->
  forallb Q (sub r repl s) = true.
Proof.
  intros Hr Hs. rewrite sub_out.
  apply (@out_forallb r const const_gap nonnull Q) with (n := length s); auto.
Qed.

(** A substitution whose replacement is no longer than what it replaces
    does not lengthen the text. *)
Hypothesis shorter : forall w, lang r w -> (length repl <= length w)%nat.

Lemma out_shrinks (n : nat) :
  forall a, (length a <= n)%nat ->
    forall b, (length (out r const b a) <= length a)%nat.
Proof.
  induction n as [|n IH]; intros a Hn b;
    destruct (@out_cases r const const_gap nonnull b a)
      as [[-> ->]|[(c & a' & -> & _ & ->)|(w & a' & g & -> & Hne & Hw & _ & ->)]];
    try (simpl; lia); try (simpl in Hn; lia).
  - destruct w; [congruence|simpl in Hn; lia].
  - simpl. specialize (IH a' ltac:(simpl in Hn; lia) (c :: b)). lia.
  - rewrite !length_app. unfold const at 1.
    assert (Hlen : (length a' <= n)%nat).
    { rewrite length_app in Hn. destruct w; [congruence|simpl in Hn; lia]. }
    specialize (IH a' Hlen (rev w ++ b)). pose proof (shorter _ Hw). lia.
Qed.

Lemma sub_shrinks (s : text) : (length (sub r repl s) <= length s)%nat.
Proof. rewrite sub_out. now apply (out_shrinks (n := length s)). Qed.

End Constant.

Lemma think_nonnull (w : text) : lang think_re w -> w <> [].
Proof.
  intros (u & v & -> & Hu & _) E. apply lang_lit in Hu. subst u. discriminate.
Qed.

Lemma heading_nonnull (w : text) : lang heading_re w -> w <> [].
Proof.
  intros (u0 & v0 & -> & -> & (u1 & v1 & -> & (_ & H) & _)) E.
  destruct u1; [simpl in H; lia|discriminate].
Qed.

Lemma deep_heading_long (w : text) :
  lang deep_heading_re w -> (4 <= length w)%nat.
Proof.
  intros (u0 & v0 & -> & -> & (u1 & v1 & -> & (_ & H1) & (_ & H2))).
  simpl. rewrite length_app. lia.
Qed.

Lemma deep_heading_nonnull (w : text) : lang deep_heading_re w -> w <> [].
Proof. intros H E. apply deep_heading_long in H. subst. simpl in H. lia. Qed.

Lemma blank_re_long (w : text) : lang blank_re w -> (3 <= length w)%nat.
Proof.
  intros (u0 & v0 & -> & (c & -> & _) & (u1 & v1 & -> & _ &
          (u2 & v2 & -> & (c' & -> & _) & (u3 & u4 & -> & _ & (_ & H))))).
  repeat (rewrite length_app; simpl). lia.
Qed.

(** X1: whatever the text, what the cleaning of a generated section and the
    cleaning of a retrieved passage give holds only characters of the
    allowed range and is trimmed: a second trimming changes nothing. *)
Theorem cleaned_is_latin_and_trimmed (content : text) :
  (forallb latin (clean_section_content content) = true
   /\ strip (clean_section_content content) = clean_section_content content)
  /\ (forallb latin (clean_retrieved_content content) = true
      /\ strip (clean_retrieved_content content)
         = clean_retrieved_content content).
Proof.
  unfold clean_section_content, clean_retrieved_content.
  repeat split; try apply strip_idem; apply forallb_strip.
  - apply (@sub_forallb _ _ heading_nonnull); [reflexivity|].
    apply sub_blank_latin, sub_foreign_latin.
  - apply (@sub_forallb _ _ deep_heading_nonnull); [reflexivity|].
    apply sub_blank_latin, sub_foreign_latin.
Qed.

(** X2: cleaning never lengthens a text. *)
Theorem cleaned_is_not_longer (content : text) :
  (length (clean_section_content content) <= length content)%nat
  /\ (length (clean_retrieved_content content) <= length content)%nat.
Proof.
  assert (H3 : (length (sub blank_re [NL; NL]
                  (sub foreign_re [] (sub think_re [] content)))
                <= length content)%nat).
  { etransitivity; [apply (@sub_shrinks _ _ blank_re_nonnull)|].
    - intros w Hw. apply blank_re_long in Hw. simpl. lia.
    - etransitivity; [apply (@sub_shrinks _ _ foreign_nonnull)|].
      + intros w _. simpl. lia.
      + apply (@sub_shrinks _ _ think_nonnull). intros w _. simpl. lia. }
  unfold clean_section_content, clean_retrieved_content. split.
  - etransitivity; [apply ChunkerBound.length_strip|].
    etransitivity; [apply (@sub_shrinks _ _ heading_nonnull)|exact H3].
    intros w _. simpl. lia.
  - etransitivity; [apply ChunkerBound.length_strip|].
    etransitivity; [apply (@sub_shrinks _ _ deep_heading_nonnull)|exact H3].
    intros w Hw. apply deep_heading_long in Hw. exact (Nat.lt_le_incl _ _ Hw).
Qed.

End CleaningFacts.

(* ------------------------------------------------------------------ *)
(** ** The chunker: what a chunk looks like, and when the chunker fails *)

Module ChunkerFacts.
Import ReFacts ChunkerBlank NormalizerFacts.

(** A text that trimming leaves as it is. *)
Definition trimmed (c : text) : Prop := strip c = c.

Lemma trimmed_strip (s : text) : trimmed (strip s).
Proof. apply strip_idem. Qed.

Lemma trimmed_snoc (chunks : list text) (cur : text) :
  Forall trimmed chunks -> Forall trimmed (chunks ++ [strip cur]).
Proof.
  intros H. apply Forall_app. split; [exact H|].
  constructor; [apply trimmed_strip|constructor].
Qed.

Lemma coalesce_sections_trimmed (chunk_size : nat) (us : list (text * text)) :
  forall cur chunks,
    Forall trimmed chunks ->
    Forall trimmed (coalesce_sections us chunk_size cur chunks).
Proof.
  induction us as [|[t content] us IH]; intros cur chunks H; simpl.
  - destruct (nonempty cur); [now apply trimmed_snoc|exact H].
  - apply IH.
    destruct ((chunk_size <? _)%nat && nonempty cur);
      [now apply trimmed_snoc|exact H].
Qed.

Lemma by_sections_trimmed (s : text) (chunk_size : nat) (pats : list re) :
  forall chunks,
    Forall trimmed chunks ->
    Forall trimmed (by_sections pats s chunk_size chunks).
Proof.
  induction pats as [|p pats IH]; intros chunks H; simpl; [exact H|].
  destruct (search p (NL :: s)); [|now apply IH].
  pose proof (@coalesce_sections_trimmed chunk_size
                (units (re_split p (NL :: s))) [] chunks H) as Hc.
  destruct (coalesce_sections _ chunk_size [] chunks); [now apply IH|exact Hc].
Qed.

Lemma coalesce_paragraphs_trimmed (chunk_size chunk_overlap : nat)
    (ps : list text) :
  forall cur chunks,
    Forall trimmed chunks ->
    Forall trimmed (coalesce_paragraphs ps chunk_size chunk_overlap cur chunks).
Proof.
  induction ps as [|p ps IH]; intros cur chunks H; simpl.
  - destruct (nonempty cur); [now apply trimmed_snoc|exact H].
  - destruct (nonempty (strip p)); [|now apply IH].
    apply IH.
    destruct ((chunk_size <? _)%nat && nonempty cur);
      [now apply trimmed_snoc|exact H].
Qed.

Lemma slices_trimmed (chunk_size step fuel : nat) :
  forall s, Forall trimmed (slices fuel s chunk_size step).
Proof.
  induction fuel as [|f IH]; intros s; simpl; [constructor|].
  destruct s; constructor; [apply trimmed_strip|apply IH].
Qed.

Lemma keep_trimmed (l : list text) :
  Forall trimmed l ->
  Forall (fun c => c <> [] /\ strip c = c)
         (filter (fun c => nonempty (strip c)) l).
Proof.
  intros H. apply Forall_forall. intros c Hc. apply filter_In in Hc.
  destruct Hc as [Hin Hne]. rewrite Forall_forall in H.
  specialize (H c Hin). unfold trimmed in H. rewrite H in Hne.
  split; [|exact H]. intros ->. discriminate.
Qed.

(** X3: every chunk the chunker returns is non-empty and trimmed, whichever of
    its three ways of cutting produced it. *)
Theorem chunks_are_nonempty_and_trimmed (s : text)
    (chunk_size chunk_overlap : nat) (chunks : list text) :
  _chunk_document s chunk_size chunk_overlap = Some chunks ->
  Forall (fun c => c <> [] /\ strip c = c) chunks.
Proof.
  unfold _chunk_document.
  pose proof (@by_sections_trimmed s chunk_size section_patterns []
                (Forall_nil _)) as H1.
  destruct (by_sections section_patterns s chunk_size []) as [|c1 l1].
  - pose proof (@coalesce_paragraphs_trimmed chunk_size chunk_overlap
                  (split [NL; NL] s) [] [] (Forall_nil _)) as H2.
    destruct (coalesce_paragraphs _ chunk_size chunk_overlap [] [])
      as [|c2 l2].
    + destruct (chunk_size =? chunk_overlap)%nat; [discriminate|].
      destruct (chunk_size <? chunk_overlap)%nat;
        intros [= <-]; [constructor|].
      apply keep_trimmed, slices_trimmed.
    + intros [= <-]. exact (keep_trimmed H2).
  - intros [= <-]. exact (keep_trimmed H1).
Qed.

Lemma chunks_are_nonempty_and_trimmed_witness :
  Forall (fun c => c <> [] /\ strip c = c)
         [txt "Alcance de la obra"; txt "obra
Plazo de entrega"].
Proof.
  apply (@chunks_are_nonempty_and_trimmed
           (txt "  Alcance de la obra

 Plazo de entrega ") 20 5).
  reflexivity.
Defined.

(** *** When the chunker raises *)

Lemma coalesce_paragraphs_nil (chunk_size chunk_overlap : nat)
    (ps : list text) :
  forall cur chunks,
    coalesce_paragraphs ps chunk_size chunk_overlap cur chunks = [] ->
    cur = [] /\ Forall (fun p => strip p = []) ps.
Proof.
  induction ps as [|p ps IH]; intros cur chunks; simpl.
  - destruct cur; simpl; [auto|].
    intros E. now destruct chunks.
  - destruct (strip p) as [|c q] eqn:Ep; simpl.
    + intros E. apply IH in E. destruct E as [-> E]. auto.
    + intros E. apply IH in E. destruct E as [E _].
      apply app_eq_nil in E. destruct E as [_ E]. discriminate.
Qed.

Lemma lstrip_nil_blank (p : text) : lstrip p = [] -> blank p.
Proof.
  unfold blank. induction p as [|c p IH]; simpl; [reflexivity|].
  destruct (isspace c); [auto|discriminate].
Qed.

Lemma rstrip_nil_blank (p : text) : rstrip p = [] -> blank p.
Proof.
  unfold rstrip. intros H.
  assert (Hr : lstrip (rev p) = []).
  { rewrite <- (rev_involutive (lstrip (rev p))). now rewrite H. }
  apply lstrip_nil_blank, blank_rev in Hr. now rewrite rev_involutive in Hr.
Qed.

Lemma lstrip_nil_or_ink (p : text) :
  lstrip p = [] \/ exists c q, lstrip p = c :: q /\ isspace c = false.
Proof.
  induction p as [|c p IH]; simpl; [now left|].
  destruct (isspace c) eqn:E; [exact IH|]. right. now exists c, p.
Qed.

Lemma strip_nil_blank (p : text) : strip p = [] -> blank p.
Proof.
  unfold strip. intros H. apply lstrip_nil_blank.
  destruct (lstrip_nil_or_ink p) as [E|(c & q & E & Hc)]; [exact E|].
  rewrite E in H. apply rstrip_nil_blank in H.
  unfold blank in H. simpl in H. now rewrite Hc in H.
Qed.

Lemma startswith_two (x y : cp) (s : text) :
  startswith [x; y] s = true -> exists r, s = x :: y :: r.
Proof.
  destruct s as [|a [|b r]]; simpl; try discriminate.
  - now destruct (x =? a).
  - destruct (N.eqb_spec x a); [|discriminate].
    destruct (N.eqb_spec y b); [|discriminate].
    subst. now exists r.
Qed.

(** If every piece between two blank lines is blank, the text is. *)
Lemma split_go_blank_inv (s : text) :
  forall skip cur,
    blank (firstn skip s) ->
    Forall blank (split_go [NL; NL] s skip cur) ->
    blank s /\ blank cur.
Proof.
  induction s as [|c s IH]; intros skip cur Hskip H.
  - simpl in H. inversion H as [|? ? Hc _]; subst.
    split; [reflexivity|]. apply blank_rev in Hc.
    now rewrite rev_involutive in Hc.
  - cbn [split_go] in H. destruct skip as [|n].
    + destruct (startswith [NL; NL] (c :: s)) eqn:E.
      * apply startswith_two in E. destruct E as (r & E).
        inversion E; subst c s. clear E.
        inversion H as [|? ? Hc Hr]; subst.
        apply (IH 1%nat []) in Hr; [|reflexivity].
        split; [exact (proj1 Hr)|].
        apply blank_rev in Hc. now rewrite rev_involutive in Hc.
      * apply (IH 0%nat (c :: cur)) in H; [|reflexivity].
        destruct H as [Hs Hc]. unfold blank in *. simpl in *.
        apply andb_true_iff in Hc. destruct Hc as [Hc Hcur].
        now rewrite Hc, Hs.
    + unfold blank in Hskip. simpl in Hskip.
      apply andb_true_iff in Hskip. destruct Hskip as [Hc Hn].
      apply (IH n cur) in H; [|exact Hn].
      destruct H as [Hs Hcur]. split; [|exact Hcur].
      unfold blank in *. simpl. now rewrite Hc, Hs.
Qed.

Lemma paragraphs_nil_blank (s : text) (chunk_size chunk_overlap : nat) :
  coalesce_paragraphs (split [NL; NL] s) chunk_size chunk_overlap [] [] = [] ->
  blank s.
Proof.
  intros H. apply coalesce_paragraphs_nil in H. destruct H as [_ H].
  apply (@split_go_blank_inv s 0%nat []); [reflexivity|].
  unfold split in H. revert H. apply Forall_impl. exact strip_nil_blank.
Qed.

(** X4: the chunker raises exactly when the overlap equals the target size and
    the document is blank: cutting by paragraphs gives a chunk for every
    other document, so that the fixed-width cut, whose step is then zero, is
    reached by blank documents only. *)
Theorem chunk_document_raises_iff (s : text) (chunk_size chunk_overlap : nat) :
  _chunk_document s chunk_size chunk_overlap = None
  <-> blank s /\ chunk_size = chunk_overlap.
Proof.
  split.
  - unfold _chunk_document.
    destruct (by_sections section_patterns s chunk_size []); [|discriminate].
    destruct (coalesce_paragraphs _ chunk_size chunk_overlap [] []) eqn:Ep;
      [|discriminate].
    apply paragraphs_nil_blank in Ep.
    destruct (Nat.eqb_spec chunk_size chunk_overlap) as [E|_].
    + auto.
    + now destruct (chunk_size <? chunk_overlap)%nat.
  - intros [Hs <-]. unfold _chunk_document.
    rewrite (by_sections_blank _ section_patterns_need_ink Hs).
    rewrite coalesce_paragraphs_blank
      by (apply split_go_blank; [exact Hs|reflexivity]).
    now rewrite Nat.eqb_refl.
Qed.

(** X5: for a document that is not blank the fixed-width cut is never used:
    the chunks are those of the headings or, failing them, of the
    paragraphs, and there is at least one before the final filter. *)
Theorem chunk_document_never_slices (s : text)
    (chunk_size chunk_overlap : nat) :
  ~ blank s ->
  exists c chunks,
    match by_sections section_patterns s chunk_size [] with
    | [] => coalesce_paragraphs (split [NL; NL] s)
              chunk_size chunk_overlap [] []
    | found => found
    end = c :: chunks
    /\ _chunk_document s chunk_size chunk_overlap
       = Some (filter (fun c => nonempty (strip c)) (c :: chunks)).
Proof.
  intros Hs. unfold _chunk_document.
  destruct (by_sections section_patterns s chunk_size []) as [|c1 l1].
  - destruct (coalesce_paragraphs _ chunk_size chunk_overlap [] [])
      as [|c2 l2] eqn:Ep.
    + now apply paragraphs_nil_blank in Ep.
    + now exists c2, l2.
  - now exists c1, l1.
Qed.

Lemma chunk_document_never_slices_witness :
  exists c chunks,
    match by_sections section_patterns (txt "abcdef") 2 [] with
    | [] => coalesce_paragraphs (split [NL; NL] (txt "abcdef")) 2 1 [] []
    | found => found
    end = c :: chunks
    /\ _chunk_document (txt "abcdef") 2 1
       = Some (filter (fun c => nonempty (strip c)) (c :: chunks)).
Proof.
  apply chunk_document_never_slices. discriminate.
Defined.

End ChunkerFacts.

(* ------------------------------------------------------------------ *)
(** ** The retriever: what the section filter keeps *)

Module RetrievalFilter.
Import Retrieval RetrievalFacts.

Lemma fold_left_keeps (A B : Type) (f : list A -> B -> list A) (x : A)
    (l : list B) :
  (forall acc e, In x acc -> In x (f acc e)) ->
  forall acc, In x acc -> In x (fold_left f l acc).
Proof.
  intros Hf. induction l as [|e l IH]; intros acc H; simpl; auto.
Qed.

(** The lowered section name is always among its own variants. *)
Lemma name_is_a_variant (section_name : text) :
  In (lower section_name) (_get_section_variants section_name).
Proof.
  unfold _get_section_variants.
  match goal with
  | |- In _ (if _ then ?v ++ _ else ?v) => assert (H : In (lower section_name) v)
  end.
  { apply fold_left_keeps; [|now left].
    intros acc e Hin. destruct (_ || _); [|exact Hin].
    apply in_or_app. now left. }
  destruct (_ && _); [|exact H]. apply in_or_app. now left.
Qed.

Section Filter.

Variable Score : Type.

Lemma in_firstn (A : Type) (n : nat) :
  forall (l : list A) (x : A), In x (firstn n l) -> In x l.
Proof.
  induction n as [|n IH]; intros [|y l] x; simpl; try tauto.
  intros [H|H]; auto.
Qed.

(** X6: a passage whose text holds the section name, whatever the case of
    either, is never filtered out: it is among the candidates the first [k]
    results are taken from. *)
Theorem named_passage_is_kept (section_name : text)
    (results : list (Doc * Score)) (e : Doc * Score) :
  In e results ->
  contains (lower section_name) (lower (page_content (fst e))) = true ->
  In e (select (_get_section_variants section_name) results).
Proof.
  intros Hin Hc.
  assert (Hm : mentions (_get_section_variants section_name) e = true).
  { unfold mentions. apply existsb_exists.
    exists (lower section_name). split; [apply name_is_a_variant|exact Hc]. }
  assert (Hf : In e (filter (mentions (_get_section_variants section_name))
                            results)) by (apply filter_In; auto).
  rewrite select_kept.
  destruct (filter _ results); [exact Hin|exact Hf].
Qed.

(** X7: when at least one candidate mentions a variant of the section name,
    every result returned is such a candidate: its passage mentions a
    variant. *)
Theorem results_mention_the_section (db : Index Score)
    (query section_name : text) (k : nat) (results : list (Doc * Score)) :
  db (combined_query section_name query) (k * 3)%nat = Returned results ->
  existsb (mentions (_get_section_variants section_name)) results = true ->
  Forall (fun r =>
            existsb (fun variant => contains variant (lower (section_content r)))
                    (_get_section_variants section_name) = true)
         (search_similar_content (Some db) query section_name k).
Proof.
  intros Hdb Hsome. unfold search_similar_content. rewrite Hdb.
  apply Forall_forall. intros r Hr. apply in_map_iff in Hr.
  destruct Hr as (e & <- & He). apply in_firstn in He.
  rewrite select_kept in He.
  destruct (filter _ results) as [|x l] eqn:Ef.
  - apply existsb_exists in Hsome. destruct Hsome as (y & Hy & Hm).
    assert (Hin : In y (filter (mentions (_get_section_variants section_name))
                               results)) by (apply filter_In; auto).
    rewrite Ef in Hin. destruct Hin.
  - rewrite <- Ef in He. apply filter_In in He. exact (proj2 He).
Qed.

End Filter.

Lemma named_passage_is_kept_witness :
  In (mkDoc (txt "Plan de pruebas y Objetivos") None None, 3%nat)
     (select (_get_section_variants (txt "OBJETIVOS"))
        [ (mkDoc (txt "2. metas") None None, 1%nat);
          (mkDoc (txt "Plan de pruebas y Objetivos") None None, 3%nat) ]).
Proof.
  apply named_passage_is_kept; [right; left; reflexivity|reflexivity].
Defined.

Lemma results_mention_the_section_witness :
  Forall (fun r =>
            existsb (fun variant => contains variant (lower (section_content r)))
                    (_get_section_variants (txt "objetivos")) = true)
         (search_similar_content (Some two_passages) (txt "TDR")
                                 (txt "objetivos") 1).
Proof.
  apply (@results_mention_the_section nat two_passages (txt "TDR")
           (txt "objetivos") 1
           [ (mkDoc (txt "Plan de pruebas") (Some (txt "P1"))
                    (Some (txt "a/p1.txt")), 3%nat);
             (mkDoc (txt "2. Objetivos del servicio") (Some (txt "P2")) None,
              5%nat) ]);
    reflexivity.
Defined.

End RetrievalFilter.

(* ------------------------------------------------------------------ *)
(** ** The outline: completed with the required sections *)

Module OutlineFacts.
Import Outline.

Lemma text_eqb_eq (x y : text) : text_eqb x y = true <-> x = y.
Proof.
  revert y. induction x as [|a x IH]; intros [|b y]; simpl;
    try (split; [discriminate|discriminate]); [tauto|].
  rewrite andb_true_iff, N.eqb_eq, IH. split.
  - intros [-> ->]. reflexivity.
  - intros [= -> ->]. auto.
Qed.

Lemma text_eqb_refl (x : text) : text_eqb x x = true.
Proof. now apply text_eqb_eq. Qed.

Lemma text_eqb_neq (x y : text) : x <> y -> text_eqb x y = false.
Proof.
  intros H. destruct (text_eqb x y) eqn:E; [|reflexivity].
  now apply text_eqb_eq in E.
Qed.

Section Dict.

Variable A : Type.

Lemma dict_set_has_key (d : dict A) (k : text) (v : A) :
  In k (keys (dict_set d k v)).
Proof.
  induction d as [|[k' v'] d IH]; simpl; [now left|].
  destruct (text_eqb k' k); simpl; auto.
Qed.

Lemma dict_set_keeps_keys (d : dict A) (k : text) (v : A) (k1 : text) :
  In k1 (keys d) -> In k1 (keys (dict_set d k v)).
Proof.
  induction d as [|[k' v'] d IH]; simpl; [tauto|].
  destruct (text_eqb k' k) eqn:E; simpl.
  - apply text_eqb_eq in E. subst. tauto.
  - tauto.
Qed.

Lemma dict_get_set_other (d : dict A) (k : text) (v : A) (k1 : text) :
  k <> k1 -> dict_get (dict_set d k v) k1 = dict_get d k1.
Proof.
  intros Hk. induction d as [|[k' v'] d IH]; simpl.
  - now rewrite (text_eqb_neq Hk).
  - destruct (text_eqb k' k) eqn:E; simpl.
    + apply text_eqb_eq in E. subst. now rewrite (text_eqb_neq Hk).
    + now rewrite IH.
Qed.

Lemma dict_get_in_keys (d : dict A) (k : text) (v : A) :
  dict_get d k = Some v -> In k (keys d).
Proof.
  induction d as [|[k' v'] d IH]; simpl; [discriminate|].
  destruct (text_eqb k' k) eqn:E; [|auto].
  apply text_eqb_eq in E. auto.
Qed.

End Dict.

Lemma filter_none (B : Type) (f : B -> bool) (l : list B) :
  (forall x, In x l -> f x = false) -> filter f l = [].
Proof.
  induction l as [|x l IH]; intros H; simpl; [reflexivity|].
  rewrite (H x) by now left. apply IH. intros y Hy. apply H. now right.
Qed.

Lemma covered_mono (ks ks' : list text) (required : text) :
  incl ks ks' -> covered ks required = true -> covered ks' required = true.
Proof.
  unfold covered. rewrite !existsb_exists.
  intros Hi (key & Hin & Hc). exists key. auto.
Qed.

(** The key added for a missing section covers that section. *)
Lemma added_key_covers (required : text) :
  In required required_sections ->
  contains required (replace [32] [95] (upper (required ++ txt "_SECCION")))
  = true.
Proof.
  revert required. apply forallb_forall. vm_compute. reflexivity.
Qed.

Lemma add_missing_keeps_keys (ms : list text) :
  forall (d : dict json) (k : text),
    In k (keys d) -> In k (keys (fold_left add_missing ms d)).
Proof.
  induction ms as [|m ms IH]; intros d k H; simpl; [exact H|].
  apply IH. unfold add_missing. now apply dict_set_keeps_keys.
Qed.

Lemma add_missing_adds (ms : list text) :
  forall (d : dict json) (m : text),
    In m ms -> In (m ++ txt "_SECCION") (keys (fold_left add_missing ms d)).
Proof.
  induction ms as [|m' ms IH]; intros d m; simpl; [tauto|].
  intros [->|H]; [|now apply IH].
  apply add_missing_keeps_keys. unfold add_missing. apply dict_set_has_key.
Qed.

Lemma add_missing_keeps_entries (ms : list text) (k : text) :
  (forall m, In m ms -> m ++ txt "_SECCION" <> k) ->
  forall d : dict json,
    dict_get (fold_left add_missing ms d) k = dict_get d k.
Proof.
  induction ms as [|m ms IH]; intros Hk d; simpl; [reflexivity|].
  rewrite IH by (intros m' Hm'; apply Hk; now right).
  unfold add_missing. apply dict_get_set_other. apply Hk. now left.
Qed.

(** What the completion does to an outline: afterwards no required section
    is missing, and every entry the outline had is still there with its
    description. *)
Lemma completion (json_response : dict json) :
  let outline :=
    fold_left add_missing (missing_sections (keys json_response))
              json_response in
  missing_sections (keys outline) = []
  /\ (forall k v, dict_get json_response k = Some v ->
                  dict_get outline k = Some v).
Proof.
  cbv zeta. split.
  - unfold missing_sections at 1.
    apply filter_none. intros required Hr.
    apply negb_false_iff.
    destruct (covered (keys json_response) required) eqn:E.
    + revert E. apply covered_mono. intros k Hk.
      now apply add_missing_keeps_keys.
    + unfold covered. apply existsb_exists.
      exists (required ++ txt "_SECCION"). split.
      * apply add_missing_adds. unfold missing_sections.
        apply filter_In. split; [exact Hr|]. now rewrite E.
      * now apply added_key_covers.
  - intros k v Hk. rewrite add_missing_keeps_entries; [exact Hk|].
    intros m Hm <-. unfold missing_sections in Hm.
    apply filter_In in Hm. destruct Hm as [Hr Hm].
    apply negb_true_iff in Hm.
    assert (Hc : covered (keys json_response) m = true).
    { unfold covered. apply existsb_exists.
      exists (m ++ txt "_SECCION"). split.
      - exact (dict_get_in_keys _ _ Hk).
      - now apply added_key_covers. }
    congruence.
Qed.

Section WithJson.

Variable json_loads : text -> loaded.
Variable json_dumps : json -> text.

(** The answer as it reaches the parser. *)
Definition stripped_answer (response : text) : text :=
  unfence (sub after_brace_re []
             (sub before_brace_re [] (sub think_re [] response))).

(** X8: when the answer of the backend parses to an object at once, the outline
    returned is that object completed: no required section is missing from
    it, and every entry of the answer is kept with its description. *)
Theorem generate_index_completes_the_outline (response : text)
    (json_response : dict json) :
  json_loads (stripped_answer response) = Parsed (JObj json_response) ->
  exists outline,
    generate_index json_loads json_dumps (Returned response)
    = json_dumps (JObj outline)
    /\ missing_sections (keys outline) = []
    /\ (forall k v, dict_get json_response k = Some v ->
                    dict_get outline k = Some v).
Proof.
  intros H. unfold generate_index. fold (stripped_answer response).
  rewrite H. eexists. split; [reflexivity|]. apply completion.
Qed.

(** X9: whatever the backend does, the outline returned either is a dumped
    object in which no required section is missing, or is the repaired
    answer, returned as it is because it parses. *)
Theorem generate_index_complete_or_repaired (answer : outcome text) :
  (exists outline,
     generate_index json_loads json_dumps answer = json_dumps (JObj outline)
     /\ missing_sections (keys outline) = [])
  \/ (exists parsed,
        json_loads (generate_index json_loads json_dumps answer)
        = Parsed parsed).
Proof.
  assert (Hd : exists outline,
             json_dumps (JObj default_index) = json_dumps (JObj outline)
             /\ missing_sections (keys outline) = []).
  { exists default_index. split; [reflexivity|vm_compute; reflexivity]. }
  unfold generate_index. destruct answer as [response|msg]; [|now left].
  fold (stripped_answer response).
  destruct (json_loads (stripped_answer response)) as [j| |] eqn:E;
    [| |now left].
  - destruct j as [| | | | |json_response]; try (now left).
    left. eexists. split; [reflexivity|]. apply completion.
  - destruct (json_loads (sub comma_bracket_re [93] _)) as [j| |] eqn:E2;
      try (now left).
    right. now exists j.
Qed.

End WithJson.

Definition in_quotes (s : string) : text := [QUOTE] ++ txt s ++ [QUOTE].

Lemma generate_index_completes_the_outline_witness :
  exists outline,
    generate_index Json.loads Json.dumps
      (Returned (txt "Indice: {" ++ in_quotes "Objetivos y alcance" ++ txt ": "
                 ++ in_quotes "x" ++ txt "} fin"))
    = Json.dumps (JObj outline)
    /\ missing_sections (keys outline) = []
    /\ (forall k v,
          dict_get [(txt "Objetivos y alcance", JStr (txt "x"))] k = Some v ->
          dict_get outline k = Some v).
Proof.
  apply generate_index_completes_the_outline. vm_compute. reflexivity.
Defined.

End OutlineFacts.

(* ------------------------------------------------------------------ *)
(** ** The orchestrator step: headings, bookkeeping and the whole loop *)

Module OrchestratorLoop.
Import Orchestrator.

Lemma startswith_app (p r : text) : startswith p (p ++ r) = true.
Proof.
  induction p as [|c p IH]; simpl; [reflexivity|].
  now rewrite N.eqb_refl, IH.
Qed.

(** The heading [## n. NAME] the node gives a section. *)
Definition canonical_heading (number : nat) (section_name : text) : text :=
  txt "## " ++ str_of_nat number ++ txt ". " ++ upper section_name.

Lemma improved_starts_with_heading (content section_name : text) (n : nat) :
  startswith (canonical_heading n section_name)
             (improve_section_content content section_name n) = true.
Proof. unfold improve_section_content. cbv zeta. apply startswith_app. Qed.

Lemma minimal_starts_with_heading (i : nat) (section_name : text) :
  startswith (canonical_heading (i + 1) section_name)
             (minimal_section i section_name) = true.
Proof.
  unfold minimal_section, canonical_heading.
  match goal with
  | |- startswith (?a ++ ?b ++ ?c ++ ?d) (?a ++ ?b ++ ?c ++ ?d ++ ?r) = true =>
    replace (a ++ b ++ c ++ d ++ r) with ((a ++ b ++ c ++ d) ++ r)
      by (now rewrite <- !app_assoc)
  end.
  apply startswith_app.
Qed.

Section Step.

Variable json_loads : text -> loaded.
Variable backend : Params -> outcome text.

Abbreviation node := (generate_sections_node json_loads backend).

(** X10: whenever the node generates, what it appends to the sections opens with
    the heading of its own position in the outline: the number is the
    cursor plus one and the name is the outline's key at the cursor, in
    upper case. *)
Theorem appended_section_opens_with_its_heading (st : State)
    (outline : dict text) :
  index st = Some outline ->
  next_step (node st) = generate_sections ->
  let i := get (current_section_index st) 0%nat in
  exists s,
    sections (node st) = Some (get (sections st) [] ++ [s])
    /\ startswith (canonical_heading (i + 1) (nth i (keys outline) [])) s
       = true.
Proof.
  intros Hi. unfold generate_sections_node. rewrite Hi.
  destruct outline as [|e idx]; [discriminate|].
  destruct (tdr_info st) as [[|c info]|]; try discriminate.
  destruct (length (keys (e :: idx)) <=? get (current_section_index st) 0)%nat;
    [destruct (generated_content st); discriminate|].
  intros _. cbv zeta.
  destruct (startswith _ _); destruct (generated_content st);
    eexists; (split; [simpl; reflexivity|]);
    first [apply improved_starts_with_heading
          |apply minimal_starts_with_heading].
Qed.

Lemma node_keeps_inputs (st : State) :
  index (node st) = index st /\ tdr_info (node st) = tdr_info st.
Proof.
  unfold generate_sections_node.
  destruct (index st) as [[|e idx]|] eqn:Hi; try (split; simpl; auto; fail).
  destruct (tdr_info st) as [[|c info]|] eqn:Ht;
    try (split; simpl; auto; fail).
  destruct (length (keys (e :: idx)) <=? get (current_section_index st) 0)%nat.
  - destruct (generated_content st); split; simpl; auto.
  - destruct (startswith _ _); destruct (generated_content st);
      split; simpl; auto.
Qed.

(** X11: the node never touches the outline or the TDR information, and never
    drops a message: the messages of the state it returns are those it was
    given, followed by at least one more. *)
Theorem node_frame (st : State) :
  index (node st) = index st
  /\ tdr_info (node st) = tdr_info st
  /\ exists m more, messages (node st) = messages st ++ m :: more.
Proof.
  destruct (node_keeps_inputs st) as [Hi Ht].
  split; [exact Hi|split; [exact Ht|]]. clear Hi Ht.
  unfold generate_sections_node.
  destruct (index st) as [[|e idx]|]; try (simpl; eauto; fail).
  destruct (tdr_info st) as [[|c info]|]; try (simpl; eauto; fail).
  destruct (length (keys (e :: idx)) <=? get (current_section_index st) 0)%nat.
  - destruct (generated_content st); simpl; eauto.
  - destruct (startswith _ _); destruct (generated_content st); simpl;
      rewrite <- ?app_assoc; simpl; eauto.
Qed.

Lemma dict_set_keys (A : Type) (d : dict A) (k : text) (v : A) :
  incl (keys (dict_set d k v)) (k :: keys d).
Proof.
  induction d as [|[k' v'] d IH]; simpl.
  - apply incl_refl.
  - destruct (text_eqb k' k); simpl.
    + intros x [<-|H]; simpl; auto.
    + intros x [<-|H]; simpl; auto.
      apply IH in H. destruct H; simpl; auto.
Qed.

(** X12: the record of generated content stays within the outline: if every key
    of [generated_content] is a section of the outline before a step, so it
    is after. *)
Theorem generated_content_stays_in_outline (st : State) :
  incl (keys (get (generated_content st) [])) (keys (get (index st) [])) ->
  incl (keys (get (generated_content (node st)) []))
       (keys (get (index (node st)) [])).
Proof.
  intros H. destruct (node_keeps_inputs st) as (Hidx & _). rewrite Hidx.
  revert H. unfold generate_sections_node.
  destruct (index st) as [[|e idx]|] eqn:Hi; try (simpl; auto; fail).
  destruct (tdr_info st) as [[|c info]|] eqn:Ht; try (simpl; auto; fail).
  destruct (Nat.leb_spec (length (keys (e :: idx)))
                         (get (current_section_index st) 0%nat)) as [Hle|Hlt].
  - destruct (generated_content st) eqn:Eg; simpl; rewrite ?Eg; simpl;
      auto using incl_nil_l.
  - intros H.
    assert (Hn : In (nth (get (current_section_index st) 0%nat)
                         (keys (e :: idx)) [])
                    (keys (e :: idx))) by (apply nth_In; exact Hlt).
    destruct (startswith _ _); destruct (generated_content st) as [g|] eqn:Eg;
      cbn [generated_content set_generated_content set_sections say
           set_current_section_index set_next_step get] in *;
      rewrite ?Eg; cbn [get];
      try exact H;
      (intros x Hx; apply dict_set_keys in Hx; destruct Hx as [<-|Hx];
       [exact Hn|now apply H]).
Qed.

(** *** The loop as a whole *)

Fixpoint steps (n : nat) (st : State) : State :=
  match n with
  | O => st
  | S n' => steps n' (node st)
  end.

Lemma step_generates (st : State) (e : text * text) (idx : dict text)
    (c : cp) (info : text) :
  index st = Some (e :: idx) -> tdr_info st = Some (c :: info) ->
  (get (current_section_index st) 0 < length (e :: idx))%nat ->
  current_section_index (node st)
  = Some (S (get (current_section_index st) 0%nat))
  /\ length (get (sections (node st)) [])
     = S (length (get (sections st) [])).
Proof.
  intros Hi Ht Hlt. unfold generate_sections_node. rewrite Hi, Ht.
  unfold keys. rewrite length_map.
  destruct (Nat.leb_spec (length (e :: idx))
                         (get (current_section_index st) 0%nat)); [lia|].
  destruct (startswith _ _); destruct (generated_content st);
    simpl; rewrite length_app; simpl; split; try (f_equal; lia); lia.
Qed.

Lemma step_finishes (st : State) (e : text * text) (idx : dict text)
    (c : cp) (info : text) :
  index st = Some (e :: idx) -> tdr_info st = Some (c :: info) ->
  (length (e :: idx) <= get (current_section_index st) 0)%nat ->
  next_step (node st) = combine_proposal
  /\ current_section_index (node st) = current_section_index st
  /\ sections (node st) = sections st.
Proof.
  intros Hi Ht Hle. unfold generate_sections_node. rewrite Hi, Ht.
  unfold keys. rewrite length_map.
  destruct (Nat.leb_spec (length (e :: idx))
                         (get (current_section_index st) 0%nat)); [|lia].
  destruct (generated_content st); simpl; auto.
Qed.

Lemma steps_reach_combine (todo : nat) :
  forall (st : State) (e : text * text) (idx : dict text) (c : cp)
         (info : text),
    index st = Some (e :: idx) -> tdr_info st = Some (c :: info) ->
    (get (current_section_index st) 0 + todo = length (e :: idx))%nat ->
    let st' := steps (todo + 1) st in
    next_step st' = combine_proposal
    /\ get (current_section_index st') 0%nat = length (e :: idx)
    /\ length (get (sections st') [])
       = (length (get (sections st) []) + todo)%nat.
Proof.
  induction todo as [|todo IH]; intros st e idx c info Hi Ht Hn.
  - cbn [Nat.add steps].
    destruct (@step_finishes st e idx c info Hi Ht) as (H1 & H2 & H3);
      [lia|].
    rewrite H1, H2, H3. repeat split; lia.
  - cbn [Nat.add steps].
    destruct (@step_generates st e idx c info Hi Ht) as (H1 & H2); [lia|].
    destruct (node_keeps_inputs st) as (Hi' & Ht').
    rewrite Hi in Hi'. rewrite Ht in Ht'.
    destruct (IH (node st) e idx c info Hi' Ht') as (G1 & G2 & G3).
    { rewrite H1. simpl. simpl in Hn. lia. }
    repeat split; [exact G1|exact G2|]. rewrite G3, H2. lia.
Qed.

(** X13: from a state with an outline of [n] sections, a non-empty TDR
    information and the cursor at [i <= n], the node applied [n - i + 1]
    times ends with the token COMBINE_PROPOSAL, the cursor at [n] and
    exactly [n - i] sections more than at the start: every section of the
    outline is generated once, whatever the backend answers. *)
Theorem loop_generates_every_section (st : State) (outline : dict text) :
  index st = Some outline -> outline <> [] ->
  (exists c info, tdr_info st = Some (c :: info)) ->
  let n := length outline in
  let i := get (current_section_index st) 0%nat in
  (i <= n)%nat ->
  let st' := steps (n - i + 1) st in
  next_step st' = combine_proposal
  /\ get (current_section_index st') 0%nat = n
  /\ length (get (sections st') [])
     = (length (get (sections st) []) + (n - i))%nat.
Proof.
  intros Hi Hne (c & info & Ht) n i Hle.
  destruct outline as [|e idx]; [congruence|].
  apply (@steps_reach_combine (n - i) st e idx c info Hi Ht).
  subst n i. lia.
Qed.

End Step.

Lemma previously_generated_step (m : nat) (generated : dict text) :
  (forall e, In e generated -> (length (fst e) + length (snd e) <= m)%nat) ->
  forall acc,
    (length acc <= 3006 + m)%nat ->
    (length (fold_left
               (fun acc e =>
                  if (length acc <? 3000)%nat
                  then acc ++ txt "## " ++ fst e ++ [NL; NL] ++ snd e
                       ++ [NL; NL]
                  else acc)
               generated acc) <= 3006 + m)%nat.
Proof.
  induction generated as [|e g IH]; intros Hm acc Hacc; simpl; [exact Hacc|].
  apply IH; [intros x Hx; apply Hm; now right|].
  destruct (Nat.ltb_spec (length acc) 3000); [|exact Hacc].
  specialize (Hm e (or_introl eq_refl)).
  rewrite !length_app. change (length (txt "## ")) with 3%nat.
  repeat (cbn [length]; rewrite ?length_app). cbn [length].
  unfold text, cp in *. lia.
Qed.

(** X14: the context of earlier sections handed to the backend is not cut at
    3000 characters: an entry is added whole while the context is shorter
    than that, so that the context stays below 3000 characters plus one
    entry, which is 7 characters and a name and a content. *)
Theorem previously_generated_bound (m : nat) (generated : dict text) :
  (forall e, In e generated -> (length (fst e) + length (snd e) <= m)%nat) ->
  (length (previously_generated generated) <= 3006 + m)%nat.
Proof.
  intros Hm. unfold previously_generated.
  apply previously_generated_step; [exact Hm|simpl; lia].
Qed.

Lemma previously_generated_bound_witness :
  (length (previously_generated
             [(txt "objetivos", txt "Metas"); (txt "alcance", txt "Obra")])
   <= 3006 + 14)%nat.
Proof.
  apply previously_generated_bound.
  intros e [<-|[<-|[]]]; simpl; lia.
Defined.

Lemma appended_section_opens_with_its_heading_witness :
  let st := OrchestratorFacts.fresh_run in
  let st' := generate_sections_node Json.loads OrchestratorFacts.echo st in
  exists s,
    sections st' = Some (get (sections st) [] ++ [s])
    /\ startswith (canonical_heading 1 (txt "objetivos")) s = true.
Proof.
  apply (@appended_section_opens_with_its_heading Json.loads
           OrchestratorFacts.echo OrchestratorFacts.fresh_run
           [(txt "objetivos", txt "Metas del servicio")]);
    reflexivity.
Defined.

Lemma generated_content_stays_in_outline_witness :
  let st := OrchestratorFacts.fresh_run in
  incl (keys (get (generated_content
                     (generate_sections_node Json.loads OrchestratorFacts.echo
                                             st)) []))
       (keys (get (index (generate_sections_node Json.loads
                            OrchestratorFacts.echo st)) [])).
Proof.
  apply generated_content_stays_in_outline. simpl. intros x [].
Defined.

Lemma loop_generates_every_section_witness :
  let st' := steps Json.loads OrchestratorFacts.echo 2
                   OrchestratorFacts.fresh_run in
  next_step st' = combine_proposal
  /\ get (current_section_index st') 0%nat = 1%nat
  /\ length (get (sections st') []) = 1%nat.
Proof.
  apply (@loop_generates_every_section Json.loads OrchestratorFacts.echo
           OrchestratorFacts.fresh_run
           [(txt "objetivos", txt "Metas del servicio")]).
  - reflexivity.
  - discriminate.
  - exists 84, (txt "DR"). reflexivity.
  - simpl. lia.
Defined.

End OrchestratorLoop.

(* ------------------------------------------------------------------ *)
(** ** The validator and the repair: disallowed characters *)

Module ValidationFacts.
Import ReFacts SubFacts NormalizerFacts Validator Validation.

Lemma latin_no_foreign (x : text) :
  forallb latin x = true -> existsb foreign x = false.
Proof.
  unfold foreign. induction x as [|c x IH]; simpl; [reflexivity|].
  intros H. apply andb_true_iff in H. destruct H as [-> Hx]. simpl. auto.
Qed.

Lemma foreign_not_latin (x : text) :
  existsb foreign x = true -> forallb latin x = false.
Proof.
  intros H. destruct (forallb latin x) eqn:E; [|reflexivity].
  apply latin_no_foreign in E. congruence.
Qed.

Lemma not_latin_foreign (x : text) :
  forallb latin x = false -> existsb foreign x = true.
Proof.
  unfold foreign. induction x as [|c x IH]; simpl; [discriminate|].
  destruct (latin c); simpl; auto.
Qed.

(** The pattern of the disallowed characters finds something exactly in
    the texts that hold one. *)
Lemma scan_foreign (a : text) :
  forall b gp,
    existsb foreign a = true -> fst (scan foreign_re b a 0 gp) <> [].
Proof.
  induction a as [|c a IH]; intros b gp; [discriminate|].
  intros H. cbn [scan].
  destruct (match_at foreign_re false b (c :: a)) as [f|] eqn:Em.
  - destruct (length (matched b f)).
    + destruct (match_at foreign_re true b (c :: a));
        destruct (scan foreign_re (c :: b) a _ _); discriminate.
    + destruct (scan foreign_re (c :: b) a _ _); discriminate.
  - simpl in H. apply orb_true_iff in H. destruct H as [H|H].
    + unfold foreign in H. apply negb_true_iff in H.
      now apply (@foreign_matches b c a) in H.
    + now apply IH.
Qed.

Lemma foreign_found_iff (x : text) :
  findall0 foreign_re x = [] <-> forallb latin x = true.
Proof.
  unfold findall0, finditer. split.
  - intros H. destruct (forallb latin x) eqn:E; [reflexivity|].
    apply not_latin_foreign in E.
    apply (@scan_foreign x [] []) in E.
    destruct (fst (scan foreign_re [] x 0 [])); [congruence|discriminate].
  - intros H. apply latin_no_foreign in H.
    now rewrite (@scan_needs foreign foreign_re x foreign_needs H).
Qed.

(** *** Validity, rule by rule *)

Definition structure_ok (x : text) (rule : structure_rule) : bool :=
  match search (s_pattern rule) x with
  | None => negb (required rule)
  | Some _ => true
  end.

Definition content_ok (x : text) (rule : content_rule) : bool :=
  match allowed rule, findall0 (c_pattern rule) x with
  | Some false, _ :: _ => false
  | _, _ => true
  end.

Lemma check_structure_valid (x : text) (rules : list structure_rule) :
  forall acc,
    t_valid (fst (fold_left (check_structure x) rules acc))
    = t_valid (fst acc) && forallb (structure_ok x) rules.
Proof.
  induction rules as [|rule rules IH]; intros acc; simpl.
  - now rewrite andb_true_r.
  - rewrite IH. unfold check_structure, structure_ok.
    destruct (search (s_pattern rule) x); [reflexivity|].
    destruct (required rule); simpl; [|reflexivity].
    now rewrite andb_false_r.
Qed.

Lemma check_content_valid (x : text) (rules : list content_rule) :
  forall acc,
    t_valid (fst (fold_left (check_content x) rules acc))
    = t_valid (fst acc) && forallb (content_ok x) rules.
Proof.
  induction rules as [|rule rules IH]; intros acc; simpl.
  - now rewrite andb_true_r.
  - rewrite IH, andb_assoc. f_equal. unfold check_content, content_ok.
    cbv zeta.
    assert (H : forall acc' : progress,
               t_valid (fst
                 (match min_occurrences rule with
                  | Some n =>
                    if (length (findall0 (c_pattern rule) x) <? n)%nat
                    then report
                           (txt "Muy pocas ocurrencias de " ++ c_name rule
                            ++ txt ": "
                            ++ str_of_nat (length (findall0 (c_pattern rule) x))
                            ++ txt " < " ++ str_of_nat n)
                           (txt "Aumentar el número de " ++ c_name rule) acc'
                    else acc'
                  | None => acc'
                  end)) = t_valid (fst acc')).
    { intros acc'. destruct (min_occurrences rule); [|reflexivity].
      now destruct (_ <? _)%nat. }
    rewrite H. clear H.
    assert (H : forall acc' : progress,
               t_valid (fst
                 (match max_occurrences rule with
                  | Some n =>
                    if (n <? length (findall0 (c_pattern rule) x))%nat
                    then report
                           (txt "Demasiadas ocurrencias de " ++ c_name rule
                            ++ txt ": "
                            ++ str_of_nat (length (findall0 (c_pattern rule) x))
                            ++ txt " > " ++ str_of_nat n)
                           (txt "Reducir el número de " ++ c_name rule) acc'
                    else acc'
                  | None => acc'
                  end)) = t_valid (fst acc')).
    { intros acc'. destruct (max_occurrences rule); [|reflexivity].
      now destruct (_ <? _)%nat. }
    rewrite H. clear H.
    destruct (allowed rule) as [[|]|]; try (now rewrite andb_true_r).
    destruct (findall0 (c_pattern rule) x); [now rewrite andb_true_r|].
    rewrite andb_false_r.
    repeat match goal with
           | |- context [if ?b then _ else _] => destruct b
           end; reflexivity.
Qed.

Lemma content_valid_iff (x : text) :
  forallb (content_ok x) content_rules = true
  <-> forallb latin x = true /\ findall0 think_re x = []
      /\ findall0 empty_section_re x = [].
Proof.
  unfold content_rules, content_ok. cbn [forallb allowed c_pattern].
  rewrite <- foreign_found_iff.
  destruct (findall0 foreign_re x); destruct (findall0 think_re x);
    destruct (findall0 empty_section_re x); simpl;
    intuition discriminate.
Qed.

Lemma valid_is_latin (x : text) :
  is_valid (validate_proposal x) = true -> forallb latin x = true.
Proof.
  unfold validate_proposal. cbv zeta. cbn [is_valid].
  rewrite !andb_true_iff, check_content_valid. cbn [fst t_valid andb].
  intros [[_ H] _]. now apply content_valid_iff in H.
Qed.

(** X15: a proposal is valid exactly when each required heading is found, no
    character is outside the allowed set, no think span and no empty
    section is found, and the numbering rules hold.  The number of code
    fences and of tables and the heading of the annexes play no part. *)
Theorem validity (x : text) :
  is_valid (validate_proposal x) = true
  <-> (forall rule, In rule structure_rules -> required rule = true ->
                    search (s_pattern rule) x <> None)
      /\ forallb latin x = true
      /\ findall0 think_re x = []
      /\ findall0 empty_section_re x = []
      /\ valid (validate_numbering x) = true.
Proof.
  unfold validate_proposal. cbv zeta. cbn [is_valid].
  rewrite !andb_true_iff, check_structure_valid, check_content_valid.
  cbn [fst t_valid andb].
  assert (Hs : forallb (structure_ok x) structure_rules = true
               <-> (forall rule, In rule structure_rules ->
                                 required rule = true ->
                                 search (s_pattern rule) x <> None)).
  { rewrite forallb_forall. unfold structure_ok. split.
    - intros H rule Hin Hr. specialize (H rule Hin).
      destruct (search (s_pattern rule) x); [discriminate|].
      rewrite Hr in H. discriminate.
    - intros H rule Hin. specialize (H rule Hin).
      destruct (search (s_pattern rule) x); [reflexivity|].
      destruct (required rule); [now destruct H|reflexivity]. }
  rewrite Hs, content_valid_iff. tauto.
Qed.

(** X16: a character outside the allowed set makes a proposal invalid,
    wherever it stands. *)
Theorem foreign_character_invalidates (x : text) :
  existsb (fun c => negb (latin c)) x = true ->
  is_valid (validate_proposal x) = false
  /\ t_valid (content (validate_proposal x)) = false.
Proof.
  intros H. apply (foreign_not_latin x) in H. split.
  - destruct (is_valid (validate_proposal x)) eqn:E; [|reflexivity].
    apply valid_is_latin in E. congruence.
  - unfold validate_proposal. cbv zeta. cbn [content].
    rewrite check_content_valid. cbn [fst t_valid andb].
    unfold content_rules, content_ok. cbn [forallb allowed c_pattern].
    destruct (findall0 foreign_re x) eqn:Ef; [|reflexivity].
    apply foreign_found_iff in Ef. congruence.
Qed.

Lemma foreign_character_invalidates_witness :
  is_valid (validate_proposal (txt "## 1. OBJETIVOS 目标")) = false
  /\ t_valid (content (validate_proposal (txt "## 1. OBJETIVOS 目标"))) = false.
Proof.
  apply foreign_character_invalidates. reflexivity.
Defined.

(** *** The repair *)

Lemma latin_small (c : cp) : c <= 127 -> latin c = true.
Proof.
  intros H. unfold latin. apply N.leb_le in H. now rewrite H.
Qed.

Lemma digits_go_latin (fuel : nat) :
  forall n acc,
    forallb latin acc = true -> forallb latin (digits_go fuel n acc) = true.
Proof.
  induction fuel as [|f IH]; intros n acc H; cbn [digits_go]; [exact H|].
  assert (Hd : forallb latin ((48 + n mod 10) :: acc) = true).
  { cbn [forallb]. rewrite H, andb_true_r. apply latin_small.
    assert (Hlt : n mod 10 < 10) by (apply N.mod_lt; discriminate).
    revert Hlt. generalize (n mod 10). intros d Hd. lia. }
  destruct (n <? 10); [exact Hd|now apply IH].
Qed.

Lemma str_of_nat_latin (n : nat) : forallb latin (str_of_nat n) = true.
Proof. unfold str_of_nat. now apply digits_go_latin. Qed.

Lemma replace_go_forallb (Q : cp -> bool) (old new : text) (s : text) :
  forallb Q new = true ->
  forall skip, forallb Q s = true ->
    forallb Q (replace_go old new s skip) = true.
Proof.
  intros Hn. induction s as [|c s IH]; intros skip H; simpl; [reflexivity|].
  simpl in H. apply andb_true_iff in H. destruct H as [Hc Hs].
  destruct skip; [|now apply IH].
  match goal with |- context [if ?b then _ else _] => destruct b end.
  - rewrite forallb_app, Hn. now apply IH.
  - simpl. rewrite Hc. now apply IH.
Qed.

Lemma renumber_latin (section_matches : list text) :
  forall i corrected_text,
    forallb latin corrected_text = true ->
    forallb latin (renumber section_matches i corrected_text) = true.
Proof.
  induction section_matches as [|mtch rest IH]; intros i s H;
    cbn [renumber]; [exact H|].
  apply IH. apply replace_go_forallb; [|exact H].
  rewrite !forallb_app, str_of_nat_latin. reflexivity.
Qed.

Lemma fix_issues_latin (proposal_text : text) (numbering : rule_group) :
  forallb latin (fix_issues proposal_text numbering) = true.
Proof.
  unfold fix_issues.
  assert (Hc : forallb latin
                 (sub think_re [] (sub foreign_re [] proposal_text)) = true).
  { apply (@CleaningFacts.sub_forallb _ _ CleaningFacts.think_nonnull);
      [reflexivity|apply sub_foreign_latin]. }
  destruct (negb (valid numbering)); [|exact Hc].
  now apply renumber_latin.
Qed.

(** X17: whatever the proposal and the findings of the validation, the repaired
    text holds no character outside the allowed set, and the pattern of
    the rule foreign_chars finds nothing in it. *)
Theorem fix_issues_leaves_no_foreign_character (proposal_text : text)
    (numbering : rule_group) :
  forallb latin (fix_issues proposal_text numbering) = true
  /\ findall0 foreign_re (fix_issues proposal_text numbering) = [].
Proof.
  split; [apply fix_issues_latin|apply foreign_found_iff, fix_issues_latin].
Qed.

Lemma scan_nothing (r : re) (a : text) :
  forall b gp,
    fst (scan r b a 0 gp) = [] -> scan r b a 0 gp = ([], rev gp ++ a).
Proof.
  induction a as [|c a IH]; intros b gp; cbn [scan].
  - destruct (match_at r false b []) as [f|].
    + destruct (length (matched b f)); discriminate.
    + now rewrite app_nil_r.
  - destruct (match_at r false b (c :: a)) as [f|].
    + destruct (length (matched b f)).
      * destruct (match_at r true b (c :: a));
          destruct (scan r (c :: b) a _ _); discriminate.
      * destruct (scan r (c :: b) a _ _); discriminate.
    + intros H. rewrite (IH _ _ H). simpl. now rewrite <- app_assoc.
Qed.

Lemma sub_nothing (r : re) (repl : text) (s : text) :
  findall0 r s = [] -> sub r repl s = s.
Proof.
  unfold findall0, sub, sub_with, finditer. intros H.
  assert (Hf : fst (scan r [] s 0 []) = [])
    by (destruct (fst (scan r [] s 0 [])); [reflexivity|discriminate]).
  now rewrite (scan_nothing _ _ _ _ Hf).
Qed.

(** X18: the repair changes nothing in a proposal whose content and numbering
    the validation found in order. *)
Theorem fix_issues_keeps_a_sound_proposal (proposal_text : text) :
  let validation_results := validate_proposal proposal_text in
  t_valid (content validation_results) = true ->
  valid (numbering validation_results) = true ->
  fix_issues proposal_text (numbering validation_results) = proposal_text.
Proof.
  unfold validate_proposal. cbv zeta. cbn [content numbering].
  rewrite check_content_valid. cbn [fst t_valid andb].
  unfold content_rules, content_ok. cbn [forallb allowed c_pattern].
  intros Hc Hn. unfold fix_issues. rewrite Hn. cbn [negb].
  destruct (findall0 foreign_re proposal_text) eqn:Ef; [|discriminate].
  destruct (findall0 think_re proposal_text) eqn:Et; [|discriminate].
  apply foreign_found_iff in Ef. rewrite (sub_foreign_id _ Ef).
  now apply sub_nothing.
Qed.

Lemma fix_issues_keeps_a_sound_proposal_witness :
  fix_issues (txt "## 1. OBJETIVOS")
             (numbering (validate_proposal (txt "## 1. OBJETIVOS")))
  = txt "## 1. OBJETIVOS".
Proof.
  apply fix_issues_keeps_a_sound_proposal; reflexivity.
Defined.


End ValidationFacts.

(* ------------------------------------------------------------------ *)
(** ** Code fences: what is handed on holds none *)

Module FenceFacts.
Import NormalizerFacts Outline Analysis.

(** The text before the first occurrence of [sep]. *)
Fixpoint before (sep s : text) : text :=
  match s with
  | [] => []
  | c :: s' => if startswith sep s then [] else c :: before sep s'
  end.

Lemma startswith_longer (p u v : text) :
  startswith p u = true -> startswith p (u ++ v) = true.
Proof.
  revert u. induction p as [|a p IH]; intros [|b u]; simpl; try discriminate;
    [reflexivity|reflexivity|].
  intros H. apply andb_true_iff in H. destruct H as [-> H]. simpl. auto.
Qed.

Lemma before_is_prefix (sep s : text) : exists rest, s = before sep s ++ rest.
Proof.
  induction s as [|c s [rest IH]]; [now exists []|].
  cbn [before]. destruct (startswith sep (c :: s)).
  - now exists (c :: s).
  - exists rest. simpl. now rewrite <- IH.
Qed.

Lemma before_has_no_sep (sep s : text) :
  sep <> [] -> contains sep (before sep s) = false.
Proof.
  intros Hsep. induction s as [|c s IH].
  - destruct sep; [congruence|reflexivity].
  - cbn [before]. destruct (startswith sep (c :: s)) eqn:E.
    + destruct sep; [congruence|reflexivity].
    + cbn [contains]. rewrite IH, orb_false_r.
      destruct (startswith sep (c :: before sep s)) eqn:E2; [|reflexivity].
      destruct (before_is_prefix sep s) as [rest Hrest].
      apply (@startswith_longer sep (c :: before sep s) rest) in E2.
      simpl app in E2. rewrite <- Hrest in E2. congruence.
Qed.

Lemma first_piece (sep s : text) :
  forall cur, nth 0 (split_go sep s 0 cur) [] = rev cur ++ before sep s.
Proof.
  induction s as [|c s IH]; intros cur.
  - simpl. now rewrite app_nil_r.
  - cbn [split_go before]. destruct (startswith sep (c :: s)).
    + simpl. now rewrite app_nil_r.
    + rewrite IH. simpl. now rewrite <- app_assoc.
Qed.

Lemma contains_suffix (p a s : text) :
  contains p s = true -> contains p (a ++ s) = true.
Proof.
  intros H. induction a as [|c a IH]; [exact H|].
  simpl app. cbn [contains]. rewrite IH. apply orb_true_r.
Qed.

Lemma contains_prefix (p s b : text) :
  contains p s = true -> contains p (s ++ b) = true.
Proof.
  induction s as [|c s IH]; intros H.
  - cbn [contains] in H. rewrite orb_false_r in H.
    destruct p; [|discriminate]. destruct b; reflexivity.
  - simpl app. cbn [contains] in *. apply orb_true_iff in H.
    destruct H as [H|H].
    + apply (@startswith_longer p (c :: s) b) in H. simpl app in H.
      now rewrite H.
    + rewrite (IH H). apply orb_true_r.
Qed.

Lemma strip_has_no_more (p s : text) :
  contains p s = false -> contains p (strip s) = false.
Proof.
  intros H. destruct (contains p (strip s)) eqn:E; [|reflexivity].
  unfold strip in E.
  destruct (rstrip_cut (lstrip s)) as (post & Hpost & _).
  destruct (lstrip_cut s) as (pre & Hpre & _).
  apply (@contains_prefix p _ post) in E. rewrite <- Hpost in E.
  apply (@contains_suffix p pre) in E. rewrite <- Hpre in E. congruence.
Qed.

Lemma fenced_has_no_fence (opening response : text) :
  contains fence (fenced opening response) = false.
Proof.
  unfold fenced. apply strip_has_no_more. unfold split.
  rewrite first_piece. simpl rev. simpl app.
  apply before_has_no_sep. discriminate.
Qed.

(** X20: whatever the answer, the text left once its fence is taken off holds
    no code fence: neither the answer [analyze_tdr] returns nor the text
    [generate_index] hands to the JSON parser does. *)
Theorem unfence_leaves_no_fence (response : text) :
  contains fence (unfence response) = false
  /\ contains fence (OutlineFacts.stripped_answer response) = false.
Proof.
  assert (H : forall r, contains fence (unfence r) = false).
  { intros r. unfold unfence.
    destruct (contains json_fence r); [apply fenced_has_no_fence|].
    destruct (contains fence r) eqn:E; [apply fenced_has_no_fence|exact E]. }
  split; apply H.
Qed.

(** X21: [analyze_tdr] answers either with a text free of code fences or, when
    the backend fails, with a report that opens with "Error:". *)
Theorem analyze_tdr_answer (answer : outcome text) :
  match answer with
  | Returned _ => contains fence (analyze_tdr answer) = false
  | Raised _ => startswith (txt "Error:") (analyze_tdr answer) = true
  end.
Proof.
  destruct answer as [response|e]; [|reflexivity].
  unfold analyze_tdr, unfence.
  destruct (contains json_fence response); [apply fenced_has_no_fence|].
  destruct (contains fence response) eqn:E;
    [apply fenced_has_no_fence|exact E].
Qed.

End FenceFacts.

(* ------------------------------------------------------------------ *)
(** ** Project metadata: the two section nodes on a TDR that is no object *)

Module EnhancedFacts.
Import Metadata MetadataFacts.

(** A JSON number, truth value or null. *)
Definition is_scalar (j : json) : bool :=
  match j with
  | JNull | JBool _ | JNum _ _ => true
  | _ => false
  end.

(** The first date field that is present. *)
Fixpoint first_present (l : dict json) (fields : list text) : option json :=
  match fields with
  | [] => None
  | field :: rest =>
    match dict_get l field with
    | Some v => Some v
    | None => first_present l rest
    end
  end.

Lemma copy_first_object (l : dict json) (fields : list text) (md : dict json) :
  Enhanced.copy_first (JObj l) fields md
  = (Some tt, match first_present l fields with
              | Some v => dict_set md k_fecha v
              | None => md
              end).
Proof.
  induction fields as [|field rest IH]; simpl; [reflexivity|].
  unfold bind, lift; simpl. rewrite in_object.
  destruct (dict_get l field) as [v|]; [reflexivity|exact IH].
Qed.

Section WithJson.

Variable json_loads : text -> loaded.

(** X22: a TDR information that parses to a number, a truth value or null makes
    the metadata extraction of the enhanced node raise, where that of the
    section node answers with the defaults. *)
Theorem enhanced_metadata_raises_on_scalars (tdr_info : text) (j : json) :
  json_loads tdr_info = Parsed j -> is_scalar j = true ->
  Enhanced.extract_project_metadata json_loads tdr_info = None
  /\ extract_project_metadata json_loads tdr_info
     = defaults (txt "No Especificada").
Proof.
  intros Hj Hs. split.
  - unfold Enhanced.extract_project_metadata. rewrite Hj.
    destruct j; try discriminate Hs; reflexivity.
  - rewrite extract_project_metadata_fields, Hj.
    destruct j; try discriminate Hs; reflexivity.
Qed.

(** X23: on a TDR information that parses to an object, or does not parse at
    all, the enhanced node's extraction returns a dict of exactly the three
    keys; from an object it takes the first date field that is present,
    whatever its value. *)
Theorem enhanced_metadata_of_object_or_text (tdr_info : text) :
  match json_loads tdr_info with
  | Parsed (JObj l) =>
    Enhanced.extract_project_metadata json_loads tdr_info
    = Some (record
              (or_default (dict_get l k_titulo) (txt "Proyecto No Especificado"))
              (or_default (dict_get l k_cliente) (txt "Cliente No Especificado"))
              (or_default (first_present l Enhanced.date_keys)
                          (txt "No Especificada")))
  | DecodeError =>
    exists titulo cliente fecha,
      Enhanced.extract_project_metadata json_loads tdr_info
      = Some (record titulo cliente fecha)
  | _ => True
  end.
Proof.
  unfold Enhanced.extract_project_metadata.
  destruct (json_loads tdr_info) as [j| |]; [|clear|exact I].
  - destruct j as [| | | | |l]; try exact I.
    unfold bind at 1 2. cbv beta iota.
    rewrite copy_field_object, copy_field_object, copy_first_object.
    change (defaults (txt "No Especificada"))
      with (record (JStr (txt "Proyecto No Especificado"))
                   (JStr (txt "Cliente No Especificado"))
                   (JStr (txt "No Especificada"))).
    fold k_titulo k_cliente.
    rewrite set_titulo, set_cliente, set_fecha. reflexivity.
  - change (defaults (txt "No Especificada"))
      with (record (JStr (txt "Proyecto No Especificado"))
                   (JStr (txt "Cliente No Especificado"))
                   (JStr (txt "No Especificada"))).
    unfold bind. cbv beta iota.
    rewrite assign_match_found. fold k_titulo. rewrite set_titulo.
    rewrite assign_match_found. fold k_cliente. rewrite set_cliente.
    rewrite assign_match_found. fold k_fecha. cbv [snd]. rewrite set_fecha.
    eauto.
Qed.

End WithJson.

Lemma enhanced_metadata_raises_on_scalars_witness :
  Enhanced.extract_project_metadata Json.loads (txt "42") = None
  /\ extract_project_metadata Json.loads (txt "42")
     = defaults (txt "No Especificada").
Proof.
  apply (@enhanced_metadata_raises_on_scalars Json.loads (txt "42")
           (JNum (txt "42") true)); reflexivity.
Defined.

End EnhancedFacts.

(* ------------------------------------------------------------------ *)
(** ** The context of similar proposals: its size *)

Module ContextFacts.
Import Context.

Set Warnings "-abstract-large-number".

Section WithSearch.

Variable json_loads : text -> loaded.
Variable json_dumps : json -> text.
Variable py_str : json -> text.
Variable find_similar_proposals : text -> outcome text.

(** X24: the context of similar proposals is cut after 7000 characters, and the
    note of the cut comes on top: the text returned is never longer than
    7000 characters and the note, whatever the search returns. *)
Theorem context_is_bounded (section_name tdr_info : text) :
  (length (get_similar_proposals_context json_loads json_dumps py_str
             find_similar_proposals section_name tdr_info)
   <= 7000 + length truncation_note)%nat.
Proof.
  unfold get_similar_proposals_context.
  destruct (find_similar_proposals _) as [answer|e]; [|simpl; lia].
  destruct (json_loads answer) as [[| | | | |d]| |]; try (simpl; lia).
  destruct (_ || _); [simpl; lia|].
  destruct (elements _) as [proposals|]; [|simpl; lia].
  destruct (context_parts py_str 0 proposals) as [parts|]; [|simpl; lia].
  cbv zeta. destruct (Nat.ltb_spec 7000 (length (Json.join [NL] parts))).
  - rewrite length_app, length_firstn. lia.
  - lia.
Qed.

End WithSearch.

End ContextFacts.

(* ------------------------------------------------------------------ *)
(** ** The improved section and the renumbering on canonical headings *)

Module SectionFacts.
Import NormalizerFacts Orchestrator Validator.

(** X25: what [improve_section_content] returns is the heading of the
    section, a blank line and a body; the body is trimmed and holds no run
    of blank lines: collapsing the blank lines again changes nothing. *)
Theorem improved_body_is_settled (content section_name : text)
    (section_number : nat) :
  exists body,
    improve_section_content content section_name section_number
    = OrchestratorLoop.canonical_heading section_number section_name
      ++ [NL; NL] ++ body
    /\ strip body = body
    /\ sub blank_re [NL; NL] body = body.
Proof.
  unfold improve_section_content. cbv zeta.
  eexists. split; [reflexivity|]. split; [apply strip_idem|].
  rewrite sub_blank_collapse. apply collapse_settled.
  apply settled_strip. rewrite sub_blank_collapse.
  match goal with
  | |- settled (collapse [] ?a) =>
    exact (proj1 (@collapse_gives_settled (length a) a (Nat.le_refl _) []))
  end.
Qed.

Lemma node_appends_the_improved_answer_witness :
  exists params,
    sections (generate_sections_node Json.loads OrchestratorFacts.echo
                                     OrchestratorFacts.fresh_run)
    = Some (get (sections OrchestratorFacts.fresh_run) []
            ++ [improve_section_content
                  (generate_section OrchestratorFacts.echo params)
                  (p_section_name params) (p_section_number params)]).
Proof.
  apply (@OrchestratorBug.node_appends_the_improved_answer
           OrchestratorFacts.echo Json.loads OrchestratorFacts.fresh_run).
  reflexivity.
Defined.

(** *** Renumbering *)

Lemma startswith_split (p s : text) :
  startswith p s = true -> exists rest, s = p ++ rest.
Proof.
  revert s. induction p as [|a p IH]; intros s; [now exists s|].
  destruct s as [|b s]; [discriminate|]. simpl.
  intros H. apply andb_true_iff in H. destruct H as [Hab H].
  apply N.eqb_eq in Hab. subst b. destruct (IH s H) as [rest ->].
  now exists rest.
Qed.

Lemma replace_go_skip (old new w rest : text) :
  replace_go old new (w ++ rest) (length w) = replace_go old new rest 0.
Proof.
  induction w as [|c w IH]; simpl; [|exact IH].
  destruct rest; reflexivity.
Qed.

(** Replacing a text by itself changes nothing. *)
Lemma replace_same (old : text) (n : nat) :
  old <> [] ->
  forall s, (length s <= n)%nat -> replace old old s = s.
Proof.
  intros Hold. unfold replace. induction n as [|n IH]; intros s Hn.
  - destruct s; [reflexivity|simpl in Hn; lia].
  - destruct s as [|c s]; [reflexivity|]. cbn [replace_go].
    destruct (startswith old (c :: s)) eqn:E.
    + destruct (startswith_split _ _ E) as [rest Hrest].
      destruct old as [|a old].
      * congruence.
      * simpl in Hrest. inversion Hrest; subst.
        replace (length (a :: old) - 1)%nat with (length old)
          by (simpl; lia).
        rewrite replace_go_skip. simpl. f_equal. f_equal.
        apply IH. simpl in Hn. rewrite length_app in Hn. lia.
    + f_equal. apply IH. simpl in Hn. lia.
Qed.

(** The heading prefix [## n. ] as the repair writes it. *)
Definition canonical_prefix (i : nat) : text :=
  txt "## " ++ str_of_nat (i + 1) ++ txt ". ".

Lemma renumber_canonical (n : nat) :
  forall i s, renumber (map canonical_prefix (seq i n)) i s = s.
Proof.
  induction n as [|n IH]; intros i s; [reflexivity|].
  cbn [seq map renumber]. fold (canonical_prefix i).
  rewrite (@replace_same (canonical_prefix i) (length s));
    [|discriminate|apply Nat.le_refl].
  replace (i + 1)%nat with (S i) by lia. apply IH.
Qed.

(** X27: when the heading prefixes found in the text are already the
    canonical ones, [## 1. ], [## 2. ] and so on in this order, the repair
    leaves the numbering as it is, even if the validation found the
    numbering group invalid (by a subsection, say): the text returned is
    the proposal without its disallowed characters and think spans. *)
Theorem fix_issues_keeps_canonical_headings (proposal_text : text)
    (numbering : rule_group) (n : nat) :
  findall0 heading_number_re
           (sub think_re [] (sub foreign_re [] proposal_text))
  = map canonical_prefix (seq 0 n) ->
  fix_issues proposal_text numbering
  = sub think_re [] (sub foreign_re [] proposal_text).
Proof.
  intros H. unfold fix_issues. cbv zeta. rewrite H.
  destruct (negb (valid numbering)); [apply renumber_canonical|reflexivity].
Qed.

Lemma fix_issues_keeps_canonical_headings_witness :
  fix_issues (txt "## 1. OBJETIVOS
### 1.1 Metas
### 1.3 Hitos
## 2. ALCANCE
")
    (validate_numbering (txt "## 1. OBJETIVOS
### 1.1 Metas
### 1.3 Hitos
## 2. ALCANCE
"))
  = sub think_re [] (sub foreign_re [] (txt "## 1. OBJETIVOS
### 1.1 Metas
### 1.3 Hitos
## 2. ALCANCE
")).
Proof.
  apply (@fix_issues_keeps_canonical_headings _ _ 2). reflexivity.
Defined.

End SectionFacts.

(* ------------------------------------------------------------------ *)
(** ** The examples of the enhanced context *)

Module EnhancerFacts.
Import NormalizerFacts Retrieval Enhancer.

Lemma retrieved_is_latin (content : text) :
  forallb latin (clean_retrieved_content content) = true.
Proof.
  unfold clean_retrieved_content. apply forallb_strip.
  apply (@CleaningFacts.sub_forallb _ _ CleaningFacts.deep_heading_nonnull);
    [reflexivity|].
  apply sub_blank_latin, sub_foreign_latin.
Qed.

Section WithScore.

Variable Score : Type.

Lemma clean_examples_length (l : list (Result Score)) :
  (length (clean_examples l) <= length l)%nat.
Proof.
  unfold clean_examples. induction l as [|prop l IH]; simpl; [lia|].
  destruct (nonempty _); simpl; lia.
Qed.

Lemma search_similar_content_length (vector_db : option (Index Score))
    (query section_name : text) (k : nat) :
  (length (search_similar_content vector_db query section_name k) <= k)%nat.
Proof.
  unfold search_similar_content. destruct vector_db as [db|]; [|simpl; lia].
  destruct (db _ _); [|simpl; lia].
  rewrite length_map, length_firstn. apply Nat.le_min_l.
Qed.

(** X28: the enhanced context holds at most [num_examples] examples, and
    each of them is a cleaned passage that is not empty, is trimmed and
    holds only characters of the allowed set, whatever the index returns. *)
Theorem enhanced_examples_are_clean (vector_db : option (Index Score))
    (section_name tdr_info : text) (num_examples : nat) :
  let context :=
    get_enhanced_context vector_db section_name tdr_info num_examples in
  (length (examples context) <= num_examples)%nat
  /\ Forall (fun e => e_content e <> []
                      /\ strip (e_content e) = e_content e
                      /\ forallb latin (e_content e) = true)
            (examples context).
Proof.
  cbv zeta. unfold get_enhanced_context. cbn [examples]. split.
  - etransitivity; [apply clean_examples_length|].
    apply search_similar_content_length.
  - apply Forall_forall. intros e He. unfold clean_examples in He.
    apply in_flat_map in He. destruct He as (prop & _ & He).
    destruct (nonempty (clean_retrieved_content (section_content prop)))
      eqn:En; [|destruct He].
    destruct He as [<-|[]]. cbn [e_content]. repeat split.
    + intros E. rewrite E in En. discriminate.
    + unfold clean_retrieved_content. apply strip_idem.
    + apply retrieved_is_latin.
Qed.

End WithScore.

End EnhancerFacts.
